(** * tyk-proxy: the access-control pipeline, embedded and verified

    A shallow embedding of the gateway's core: the bearer extraction and
    path-scope matcher of the authorization middleware, the middleware's
    decision chain over its three collaborator interfaces, the fixed-window
    counter store with the rate limiter on top of it, and the token record
    store, followed by the theorems that settle the specification's claims.

    Go strings are byte strings ([string], a list of [ascii]); Go [int],
    [int64] and [time.Duration] are [Z]; a [time.Time] is the instant it
    denotes, in nanoseconds since the Unix epoch; the Redis backend is a
    finite map from keys to entries with an optional expiry. *)

From Stdlib Require Import ZArith Lia Bool Ascii.
From stdpp Require Import base decidable option list strings gmap pretty.

Local Open Scope Z_scope.

(** ** Package [strings] of the Go library, as far as the code calls it *)

Module Strings.

Definition bytes (s : string) : list ascii := String.list_ascii_of_string s.
Definition str (l : list ascii) : string := String.string_of_list_ascii l.

Definition byte (n : nat) : ascii := Ascii.ascii_of_nat n.

(** [strings.HasPrefix(s, prefix)] *)
Definition HasPrefix (s prefix : string) : bool :=
  bool_decide (bytes prefix `prefix_of` bytes s).

(** [strings.HasSuffix(s, suffix)] *)
Definition HasSuffix (s suffix : string) : bool :=
  bool_decide (bytes suffix `suffix_of` bytes s).

(** [strings.TrimSuffix(s, suffix)]: one trailing occurrence is removed. *)
Definition TrimSuffix (s suffix : string) : string :=
  if HasSuffix s suffix
  then str (take (length (bytes s) - length (bytes suffix))%nat (bytes s))
  else s.

(** The UTF-8 encodings of the code points for which [unicode.IsSpace]
    holds: tab, line feed, vertical tab, form feed, carriage return and
    space, then U+0085, U+00A0, U+1680, U+2000..U+200A, U+2028, U+2029,
    U+202F, U+205F and U+3000. *)
Definition space_encodings : list (list ascii) :=
  ((λ n, [byte n]) <$> [9; 10; 11; 12; 13; 32]%nat)
  ++ ((λ n, [byte 194; byte n]) <$> [133; 160]%nat)
  ++ [[byte 225; byte 154; byte 128]]
  ++ ((λ n, [byte 226; byte 128; byte n]) <$>
        [128; 129; 130; 131; 132; 133; 134; 135; 136; 137; 138;
         168; 169; 175]%nat)
  ++ [[byte 226; byte 129; byte 159]; [byte 227; byte 128; byte 128]].

(** The rest of [l] after one leading white-space rune, if there is one. *)
Definition strip_leading (encs : list (list ascii)) (l : list ascii)
  : option (list ascii) :=
  (λ e, drop (length e) l) <$>
    head (filter (λ e, e `prefix_of` l) encs).

Fixpoint trim_leading (fuel : nat) (encs : list (list ascii))
    (l : list ascii) : list ascii :=
  match fuel with
  | O => l
  | S fuel =>
      match strip_leading encs l with
      | Some l' => trim_leading fuel encs l'
      | None => l
      end
  end.

Definition TrimLeftSpace (l : list ascii) : list ascii :=
  trim_leading (length l) space_encodings l.

(** From the right the last rune is decoded; a white-space rune ends the
    string exactly when one of the encodings is a suffix of it. *)
Definition TrimRightSpace (l : list ascii) : list ascii :=
  reverse (trim_leading (length l) (reverse <$> space_encodings) (reverse l)).

(** [strings.TrimSpace(s)]: leading, then trailing white space removed. *)
Definition TrimSpace (s : string) : string :=
  str (TrimRightSpace (TrimLeftSpace (bytes s))).

(** The first occurrence of the byte [c]: what is before and after it. *)
Fixpoint cut (c : ascii) (l : list ascii)
  : option (list ascii * list ascii) :=
  match l with
  | [] => None
  | x :: l' =>
      if decide (x = c) then Some ([], l')
      else prod_map (cons x) id <$> cut c l'
  end.

(** [strings.SplitN(s, sep, 2)] for a one-byte separator: the string
    itself when the separator does not occur, else the parts around its
    first occurrence. *)
Definition SplitN2 (s : string) (sep : ascii) : list string :=
  match cut sep (bytes s) with
  | Some (a, b) => [str a; str b]
  | None => [s]
  end.

Definition lower (c : ascii) : ascii :=
  let n := Ascii.nat_of_ascii c in
  if bool_decide (65 ≤ n ≤ 90)%nat then Ascii.ascii_of_nat (n + 32) else c.

(** [strings.EqualFold(s, t)] under simple case folding, for a [t] in
    ASCII without the letters k and s: those two are the only ASCII
    letters that a rune outside ASCII folds to (U+212A and U+017F), so
    for such a [t] the Unicode comparison is the byte-wise comparison up
    to ASCII case.  The one call of the code has [t = "Bearer"]. *)
Definition EqualFold (s t : string) : bool :=
  bool_decide (lower <$> bytes s = lower <$> bytes t).

End Strings.

(** ** Go values shared by the packages: errors, instants, durations *)

Module Go.

(** An [error] value.  The three sentinels of package [store] are values
    of their own, since [errors.New] yields a fresh value at each call;
    [wrapError] is what [fmt.Errorf] with a [%w] verb and
    [errors.Wrap] build: a message and the error it wraps. *)
Inductive error : Type :=
| ErrNotFound
| ErrExpired
| ErrInvalid
| errorString (msg : string)
| wrapError (msg : string) (cause : error).

(** The method [Error()]. *)
Definition Error (e : error) : string :=
  match e with
  | ErrNotFound => "token not found"
  | ErrExpired => "token expired"
  | ErrInvalid => "token record invalid"
  | errorString msg => msg
  | wrapError msg _ => msg
  end.

(** [fmt.Errorf("%w: " + detail, e)] *)
Definition Errorf_w (e : error) (detail : string) : error :=
  wrapError (Error e +:+ ": " +:+ detail) e.

(** [errors.Wrap(e, msg)] of github.com/pkg/errors *)
Definition Wrap (e : error) (msg : string) : error :=
  wrapError (msg +:+ ": " +:+ Error e) e.

Global Instance error_eq_dec : EqDecision error.
Proof. solve_decision. Defined.

(** [errors.Is(e, target)]: [target] is [e] or an error that [e] wraps. *)
Fixpoint Is (e target : error) : bool :=
  bool_decide (e = target)
  || match e with wrapError _ cause => Is cause target | _ => false end.

(** A [time.Time] is the instant, in nanoseconds since the Unix epoch
    (location and monotonic reading play no part in the code). *)
Definition Time : Type := Z.

(** [t.After(u)] *)
Definition After (t u : Time) : bool := bool_decide (u < t).

(** [t.Unix()]: whole seconds since the epoch, rounded down. *)
Definition Unix (t : Time) : Z := t `div` 1000000000.

(** [time.Unix(sec, 0)] *)
Definition ofUnix (sec : Z) : Time := sec * 1000000000.

(** A [time.Duration] is a count of nanoseconds. *)
Definition Duration : Type := Z.
Definition Second : Duration := 1000000000.
Definition Minute : Duration := 60 * Second.

(** [d.Milliseconds()]: the integer quotient, towards zero. *)
Definition Milliseconds (d : Duration) : Z := d `quot` 1000000.

(** [int64(d.Seconds())].  [Seconds] is the floating-point sum of the
    whole seconds and the remaining nanoseconds over 1e9; its truncation
    is the integer quotient for every whole number of seconds and for
    every duration below 2^24 seconds, where the sum is below the next
    integer. *)
Definition SecondsInt64 (d : Duration) : Z := d `quot` 1000000000.

(** The durations for which that is so. *)
Definition exactSeconds (d : Duration) : Prop :=
  d `mod` Second = 0 ∨ d < 16777216 * Second.

Definition maxInt64 : Z := 9223372036854775807.
Definition minInt64 : Z := -9223372036854775808.

Definition digit (c : ascii) : option Z :=
  let n := Ascii.nat_of_ascii c in
  if bool_decide (48 ≤ n ≤ 57)%nat then Some (Z.of_nat n - 48) else None.

Fixpoint digits (acc : Z) (l : list ascii) : option Z :=
  match l with
  | [] => Some acc
  | c :: l => d ← digit c; digits (10 * acc + d) l
  end.

(** [strconv.Atoi(s)] on a 64-bit platform, [None] standing for its
    error: an optional sign, then one or more decimal digits, the value
    within the range of [int]. *)
Definition Atoi (s : string) : option Z :=
  let l := Strings.bytes s in
  let '(neg, ds) :=
    match l with
    | c :: l' =>
        if decide (c = "-"%char) then (true, l')
        else if decide (c = "+"%char) then (false, l')
        else (false, l)
    | [] => (false, [])
    end in
  match ds with
  | [] => None
  | _ =>
      n ← digits 0 ds;
      let v := if neg : bool then - n else n in
      if bool_decide (minInt64 ≤ v ≤ maxInt64) then Some v else None
  end.

(** [strconv.Itoa(n)] and the verb [%d] *)
Definition Itoa (n : Z) : string := pretty n.

(** Functions of the Go library that the token store calls and that are
    taken as given: [time.Parse(time.RFC3339, s)], with the instant of
    the parsed time, and [json.Unmarshal] into a [[]string]; [None] is
    their error. *)
Class Runtime := {
  time_Parse_RFC3339 : string → option Time;
  json_Unmarshal_strings : string → option (list string)
}.

End Go.

(** ** The Redis backend behind [redis.UniversalClient] *)

Module Redis.
Import Go.

(** A key holds an integer-valued string (a counter) or a hash. *)
Inductive value : Type :=
| VInt (n : Z)
| VHash (h : gmap string string).

(** An entry with its expiry, in milliseconds of the server clock. *)
Record entry : Type := Entry { val : value; deadline : option Z }.

(** The client with the server behind it: the keyspace, the server
    clock in milliseconds, the commands to come that the connection
    will fail ([true] fails the command; past the end none fails), and
    the number of commands the server has run so far. *)
Record client : Type := Client {
  db : gmap string entry;
  clock : Z;
  faults : list bool;
  ran : nat
}.

Inductive reply (A : Type) : Type :=
| Ok (a : A)
| Err (e : error).
Global Arguments Ok {A} a.
Global Arguments Err {A} e.

(** A key is gone once the clock has passed its deadline. *)
Definition live (now : Z) (e : entry) : bool :=
  match deadline e with
  | None => true
  | Some d => bool_decide (now ≤ d)
  end.

Definition get (c : client) (k : string) : option entry :=
  e ← db c !! k; if live (clock c) e then Some e else None.

(** The count a live counter holds, zero for a missing key, and the
    deadline of a live key. *)
Definition count (c : client) (k : string) : Z :=
  match get c k with
  | Some (Entry (VInt n) _) => n
  | _ => 0
  end.
Definition expiry (c : client) (k : string) : option Z :=
  get c k ≫= deadline.

Definition set_db (c : client) (d : gmap string entry) : client :=
  {| db := d; clock := clock c; faults := faults c; ran := ran c |}.

(** The next command will reach the server. *)
Definition reachable (c : client) : bool :=
  match faults c with
  | true :: _ => false
  | _ => true
  end.

Definition connRefused : error := errorString "dial tcp: connection refused".
Definition wrongType : error :=
  errorString "WRONGTYPE Operation against a key holding the wrong kind of value".
Definition incrOverflow : error :=
  errorString "ERR increment or decrement would overflow".

(** One round trip: the server runs the command on the keyspace, as one
    step, unless the connection fails it. *)
Definition roundtrip {A} (c : client)
    (cmd : client → reply A * gmap string entry) : reply A * client :=
  match faults c with
  | true :: fs =>
      (Err connRefused,
       {| db := db c; clock := clock c; faults := fs; ran := ran c |})
  | fs =>
      let '(r, d) := cmd c in
      (r, {| db := d; clock := clock c; faults := tail fs; ran := S (ran c) |})
  end.

(** INCR: a missing key counts from zero and gets no expiry. *)
Definition INCR (k : string) (c : client) : reply Z * gmap string entry :=
  match get c k with
  | None => (Ok 1, <[k := Entry (VInt 1) None]> (db c))
  | Some (Entry (VInt n) d) =>
      if bool_decide (n < maxInt64)
      then (Ok (n + 1), <[k := Entry (VInt (n + 1)) d]> (db c))
      else (Err incrOverflow, db c)
  | Some (Entry (VHash _) _) => (Err wrongType, db c)
  end.

(** PEXPIRE: the deadline of a live key becomes the clock plus [ms];
    with [ms] not positive the key is deleted. *)
Definition PEXPIRE (k : string) (ms : Z) (c : client)
  : reply Z * gmap string entry :=
  match get c k with
  | None => (Ok 0, db c)
  | Some e =>
      if bool_decide (0 < ms)
      then (Ok 1, <[k := Entry (val e) (Some (clock c + ms))]> (db c))
      else (Ok 1, delete k (db c))
  end.

(** HGETALL: the fields of the hash, none for a missing key. *)
Definition HGETALL (k : string) (c : client)
  : reply (gmap string string) * gmap string entry :=
  match get c k with
  | None => (Ok ∅, db c)
  | Some (Entry (VHash h) _) => (Ok h, db c)
  | Some (Entry (VInt _) _) => (Err wrongType, db c)
  end.

(** DEL: the number of keys removed. *)
Definition DEL (k : string) (c : client) : reply Z * gmap string entry :=
  match get c k with
  | None => (Ok 0, delete k (db c))
  | Some _ => (Ok 1, delete k (db c))
  end.

(** The counter script of the rate-limit store, run by the server as one
    command: INCR, then PEXPIRE when the count is 1, the count returned.
    An error of INCR ends the script with that error. *)
Definition incrScript (k : string) (ttl : Z) (c : client)
  : reply Z * gmap string entry :=
  match INCR k c with
  | (Err e, d) => (Err e, d)
  | (Ok n, d) =>
      if bool_decide (n = 1)
      then (Ok n, (PEXPIRE k ttl (set_db c d)).2)
      else (Ok n, d)
  end.

(** [incrScript.Run(ctx, rdcl, []string{k}, ttl).Int64()] *)
Definition RunIncrScript (c : client) (k : string) (ttl : Z)
  : reply Z * client := roundtrip c (incrScript k ttl).

Definition HGetAll (c : client) (k : string)
  : reply (gmap string string) * client := roundtrip c (HGETALL k).
Definition Del (c : client) (k : string) : reply Z * client :=
  roundtrip c (DEL k).

End Redis.

(** ** Package [store] (internal/store): the token record store *)

Module TokenStore.
Import Go.

Record Token : Type := {
  APIKey : string;
  RateLimit : Z;
  ExpiresAt : Time;
  AllowedRoutes : list string
}.

(** The zero [time.Time], January 1 of year 1. *)
Definition zeroTime : Time := -62135596800 * 1000000000.

(** [Token{}] *)
Definition zeroToken : Token :=
  {| APIKey := ""; RateLimit := 0; ExpiresAt := zeroTime; AllowedRoutes := [] |}.

(** The store; [s_now] is what the clock function [now] returns at the
    call. *)
Record Store : Type := {
  s_rdcl : Redis.client;
  s_prefix : string;
  s_now : Time
}.

Definition with_rdcl (s : Store) (c : Redis.client) : Store :=
  {| s_rdcl := c; s_prefix := s_prefix s; s_now := s_now s |}.

(** [NewStore], with the clock reading of the calls to come. *)
Definition NewStore (rdcl : Redis.client) (pfx : string) (now : Time) : Store :=
  {| s_rdcl := rdcl;
     s_prefix := if decide (pfx = "") then "token:" else pfx;
     s_now := now |}.

Definition key (s : Store) (apiKey : string) : string := s_prefix s +:+ apiKey.

(** [m[f]] on a Go map: the empty string for an absent field. *)
Definition field (m : gmap string string) (f : string) : string :=
  default "" (m !! f).

Section decode.
Context `{Runtime}.

Definition decodeToken (apiKey : string) (m : gmap string string)
  : Token * option error :=
  let k := if decide (field m "api_key" = "") then apiKey
           else field m "api_key" in
  let rls := field m "rate_limit" in
  if decide (rls = "") then
    (zeroToken, Some (Errorf_w ErrInvalid "missing rate_limit"))
  else
    match Atoi rls with
    | None => (zeroToken, Some (Errorf_w ErrInvalid "invalid rate_limit"))
    | Some rl =>
        if bool_decide (rl ≤ 0) then
          (zeroToken, Some (Errorf_w ErrInvalid "invalid rate_limit"))
        else
          let exps := field m "expires_at" in
          if decide (exps = "") then
            (zeroToken, Some (Errorf_w ErrInvalid "missing expires_at"))
          else
            match time_Parse_RFC3339 exps with
            | None =>
                (zeroToken, Some (Errorf_w ErrInvalid "invalid expires_at"))
            | Some exp =>
                let routes := field m "allowed_routes" in
                if decide (routes = "") then
                  ({| APIKey := k; RateLimit := rl; ExpiresAt := exp;
                      AllowedRoutes := [] |}, None)
                else
                  match json_Unmarshal_strings routes with
                  | None =>
                      (zeroToken,
                       Some (Errorf_w ErrInvalid "invalid allowed_routes"))
                  | Some rs =>
                      ({| APIKey := k; RateLimit := rl; ExpiresAt := exp;
                          AllowedRoutes := rs |}, None)
                  end
            end
    end.

(** [Store.GetToken]; the context argument, which only carries
    cancellation, is left out. *)
Definition GetToken (s : Store) (apiKey : string)
  : (Token * option error) * Store :=
  if decide (apiKey = "") then
    ((zeroToken, Some (Errorf_w ErrInvalid "empty api_key")), s)
  else
    let k := key s apiKey in
    match Redis.HGetAll (s_rdcl s) k with
    | (Redis.Err e, c) => ((zeroToken, Some e), with_rdcl s c)
    | (Redis.Ok m, c) =>
        if bool_decide (size m = 0%nat) then
          ((zeroToken, Some ErrNotFound), with_rdcl s c)
        else
          match decodeToken apiKey m with
          | (_, Some e) => ((zeroToken, Some e), with_rdcl s c)
          | (t, None) =>
              if negb (After (ExpiresAt t) (s_now s)) then
                ((zeroToken, Some ErrExpired),
                 with_rdcl s (Redis.Del c k).2)
              else ((t, None), with_rdcl s c)
          end
    end.

(** [Store.Delete] *)
Definition Delete (s : Store) (apiKey : string) : option error * Store :=
  if decide (apiKey = "") then (Some (Errorf_w ErrInvalid "empty api_key"), s)
  else
    match Redis.Del (s_rdcl s) (key s apiKey) with
    | (Redis.Err e, c) => (Some e, with_rdcl s c)
    | (Redis.Ok _, c) => (None, with_rdcl s c)
    end.
End decode.

End TokenStore.

(** ** Package [store] (internal/ratelimit): the fixed-window counter store *)

Module CounterStore.
Import Go.

Record Store : Type := {
  s_rdcl : Redis.client;
  s_prefix : string;
  s_now : Time
}.

Definition with_rdcl (s : Store) (c : Redis.client) : Store :=
  {| s_rdcl := c; s_prefix := s_prefix s; s_now := s_now s |}.

(** [NewStore], with the clock reading of the calls to come. *)
Definition NewStore (rdcl : Redis.client) (pfx : string) (now : Time) : Store :=
  {| s_rdcl := rdcl;
     s_prefix := if decide (pfx = "") then "rate_count:" else pfx;
     s_now := now |}.

Definition windowStart (t : Time) (window : Duration) : Time :=
  let sec := SecondsInt64 window in
  if bool_decide (sec ≤ 0) then t
  else
    let u := Unix t in
    let ws := (u `quot` sec) * sec in
    ofUnix ws.

Definition counterKey (s : Store) (key : string) (window : Duration) : string :=
  let ws := Unix (windowStart (s_now s) window) in
  s_prefix s +:+ key +:+ ":" +:+ Itoa ws.

(** [Store.Incr] *)
Definition Incr (s : Store) (key : string) (window : Duration)
  : (Z * option error) * Store :=
  if bool_decide (window ≤ 0) then
    ((0, Some (errorString "store: window must be > 0")), s)
  else
    let k := counterKey s key window in
    let ttlMs := Milliseconds window + 1000 in
    match Redis.RunIncrScript (s_rdcl s) k ttlMs with
    | (Redis.Err e, c) => ((0, Some e), with_rdcl s c)
    | (Redis.Ok v, c) => ((v, None), with_rdcl s c)
    end.

End CounterStore.

(** ** Package [service] (internal/ratelimit/service): the rate limiter *)

Module Service.
Import Go.

(** The interface [store]: a counter store with its own state. *)
Class store (S : Type) :=
  Incr : S → string → Duration → (Z * option error) * S.

Global Instance CounterStore_store : store CounterStore.Store :=
  CounterStore.Incr.

Record RateLimit (S : Type) : Type := {
  rl_store : S;
  rl_window : Duration
}.
Global Arguments rl_store {S} _.
Global Arguments rl_window {S} _.

Record Options : Type := { Window : Duration }.

Definition NewRateLimitWithOptions {S : Type} (s : S) (opts : Options) : RateLimit S :=
  let w := Window opts in
  {| rl_store := s; rl_window := if bool_decide (w ≤ 0) then Minute else w |}.

Definition NewRateLimit {S : Type} (s : S) : RateLimit S :=
  NewRateLimitWithOptions s {| Window := 0 |}.

(** [RateLimit.Allow] *)
Definition Allow {S : Type} `{!store S} (rl : RateLimit S) (key : string) (limit : Z)
  : (bool * option error) * RateLimit S :=
  if decide (key = "") then
    ((false, Some (errorString "rate limit: empty key")), rl)
  else if bool_decide (limit ≤ 0) then
    ((false, Some (errorString "rate limit: limit must be > 0")), rl)
  else
    let '((n, err), s) := Incr (rl_store rl) key (rl_window rl) in
    let rl := {| rl_store := s; rl_window := rl_window rl |} in
    match err with
    | Some e => ((false, Some (Wrap e "rate limit: failed to increment counter")), rl)
    | None => ((bool_decide (n ≤ limit), None), rl)
    end.

(** The test double [fakeStore] of the package's tests. *)
Module fakeStore.
Record t : Type := {
  lastKey : string;
  lastWindow : Duration;
  n : Z;
  err : option error
}.
Global Instance fake_store : store t := λ f key window,
  ((n f, err f),
   {| lastKey := key; lastWindow := window; n := n f; err := err f |}).
End fakeStore.

(** A store that counts the calls of [Incr] made on the store inside. *)
Module countingStore.
Record t (S : Type) : Type := { inner : S; calls : nat }.
Global Arguments inner {S} _.
Global Arguments calls {S} _.
Global Instance counting_store {S : Type} `{!store S} : store (t S) :=
  λ f key window,
    let '(res, s) := Incr (inner f) key window in
    (res, {| inner := s; calls := Datatypes.S (calls f) |}).
End countingStore.

End Service.

(** ** Package [auth]: the authorization middleware *)

Module Auth.
Import Go Strings.

(** [Claims]; of the embedded [jwt.RegisteredClaims] the code reads the
    expiry alone, a [*NumericDate] that may be nil. *)
Record Claims : Type := {
  APIKey : string;
  AllowedRoutes : list string;
  RateLimit : Z;
  ExpiresAtRFC3339 : string;
  ExpiresAt : option Time
}.

(** The three collaborator interfaces.  A collaborator has a state of
    its own, which a call may change; the context argument of
    [GetToken] and [Allow] is left out. *)
Class tokenStore (S : Type) :=
  GetToken : S → string → (TokenStore.Token * option error) * S.
Class limiter (L : Type) :=
  Allow : L → string → Z → (bool * option error) * L.
Class verifier (V : Type) :=
  Parse : V → string → (option Claims * option error) * V.

Global Instance Store_tokenStore `{Runtime} : tokenStore TokenStore.Store :=
  TokenStore.GetToken.
Global Instance RateLimit_limiter {S : Type} `{!Service.store S}
  : limiter (Service.RateLimit S) := Service.Allow.

(** The service; [m_now] is what its clock function returns at the
    request. *)
Record AuthorizationMiddlewareService (S L V : Type) : Type := {
  m_store : S;
  m_limiter : L;
  m_verifier : V;
  m_now : Time
}.
Global Arguments m_store {S L V} _.
Global Arguments m_limiter {S L V} _.
Global Arguments m_verifier {S L V} _.
Global Arguments m_now {S L V} _.

(** What the handler reads of the request: [r.Header.Get("Authorization")]
    (empty when the header is absent) and [r.URL.Path]. *)
Record Request : Type := {
  Authorization : string;
  Path : string
}.

(** How the handler ends: a call of [m.unauthorized(w, msg)], a call of
    [http.Error(w, body, code)], the hand-over to [next] with the claims
    in the request context, or the run-time panic of reading a field
    through a nil [*Claims]. *)
Inductive outcome : Type :=
| unauthorized (msg : string)
| httpError (body : string) (code : Z)
| next (c : Claims)
| panic.

(** [AuthorizationMiddlewareService.extractBearer] *)
Definition extractBearer (v : string) : string * bool :=
  let v := TrimSpace v in
  if decide (v = "") then ("", false)
  else
    match SplitN2 v " " with
    | [p0; p1] =>
        if negb (EqualFold p0 "Bearer") then ("", false)
        else
          let t := TrimSpace p1 in
          (t, bool_decide (t ≠ ""))
    | _ => ("", false)
    end.

(** The body of the loop of [isAllowedPath] for one pattern: [true] is
    its [return true], [false] the move to the next pattern. *)
Definition matchPattern (path p : string) : bool :=
  let p := TrimSpace p in
  if decide (p = "") then false
  else if decide (p = "*") then true
  else if HasSuffix p "*" then HasPrefix path (TrimSuffix p "*")
  else bool_decide (path = p).

(** [AuthorizationMiddlewareService.isAllowedPath]: the empty path is
    refused first; the loop returns at the first pattern that matches. *)
Definition isAllowedPath (path : string) (patterns : list string) : bool :=
  if decide (path = "") then false
  else existsb (matchPattern path) patterns.

Section handler.
Context {S L V : Type} `{!tokenStore S, !limiter L, !verifier V}.

Definition set_verifier (m : AuthorizationMiddlewareService S L V) (v : V) :=
  {| m_store := m_store m; m_limiter := m_limiter m; m_verifier := v;
     m_now := m_now m |}.
Definition set_store (m : AuthorizationMiddlewareService S L V) (s : S) :=
  {| m_store := s; m_limiter := m_limiter m; m_verifier := m_verifier m;
     m_now := m_now m |}.
Definition set_limiter (m : AuthorizationMiddlewareService S L V) (l : L) :=
  {| m_store := m_store m; m_limiter := l; m_verifier := m_verifier m;
     m_now := m_now m |}.

(** Steps 6 to 9 of [Handler]: from the token lookup on. *)
Definition resolve (m : AuthorizationMiddlewareService S L V) (claims : Claims)
  : outcome * AuthorizationMiddlewareService S L V :=
  let '((tok, err), s) := GetToken (m_store m) (APIKey claims) in
  let m := set_store m s in
  match err with
  | Some e => (unauthorized ("unknown token: " +:+ Error e), m)
  | None =>
      let limit := TokenStore.RateLimit tok in
      if bool_decide (limit ≤ 0) then (unauthorized "token disabled", m)
      else
        let '((allowed, err), l) := Allow (m_limiter m) (APIKey claims) limit in
        let m := set_limiter m l in
        match err with
        | Some _ => (httpError "Rate limiter error" 500, m)
        | None =>
            if negb allowed then (httpError "Too Many Requests" 429, m)
            else (next claims, m)
        end
  end.

(** [AuthorizationMiddlewareService.Handler], for one request: how it
    ends and the service with the collaborators as the calls left
    them.  [claims.GetExpirationTime()] returns the expiry field and
    no error. *)
Definition Handler (m : AuthorizationMiddlewareService S L V) (r : Request)
  : outcome * AuthorizationMiddlewareService S L V :=
  let '(jwtStr, ok) := extractBearer (Authorization r) in
  if negb ok then (unauthorized "missing bearer token", m)
  else
    let '((claims, err), v) := Parse (m_verifier m) jwtStr in
    let m := set_verifier m v in
    match err, claims with
    | Some e, _ => (unauthorized ("invalid token: " +:+ Error e), m)
    | None, None => (panic, m)
    | None, Some claims =>
        if decide (APIKey claims = "") then
          (unauthorized "missing api_key claim", m)
        else
          match ExpiresAt claims with
          | None => (unauthorized "token expired", m)
          | Some exp =>
              if negb (After exp (m_now m)) then
                (unauthorized "token expired", m)
              else if bool_decide (0 < length (AllowedRoutes claims))%nat
                      && negb (isAllowedPath (Path r) (AllowedRoutes claims))
              then (httpError "Forbidden" 403, m)
              else resolve m claims
          end
    end.
End handler.

(** The response that the handler's own replies write. *)
Record Response : Type := {
  Code : Z;
  WWW_Authenticate : string;
  Body : string
}.

Definition quote : string := String (Strings.byte 34) "".
Definition newline : string := String (Strings.byte 10) "".

(** [http.Error(w, body, code)] *)
Definition http_Error (h : string) (body : string) (code : Z) : Response :=
  {| Code := code; WWW_Authenticate := h; Body := body +:+ newline |}.

(** What reaches the caller: [unauthorized] sets the challenge header
    and answers 401; [http.Error] answers with its code and body; after
    the hand-over the response is the downstream handler's. *)
Definition respond (o : outcome) : option Response :=
  match o with
  | unauthorized _ =>
      Some (http_Error ("Bearer realm=" +:+ quote +:+ "api" +:+ quote)
              "Unauthorized" 401)
  | httpError body code => Some (http_Error "" body code)
  | next _ => None
  | panic => None
  end.

(** The test doubles of the package's tests: each counts its calls and
    keeps the last arguments. *)
Module fakeVerifier.
Record t : Type := {
  parseFn : string → option Claims * option error;
  calls : nat;
  lastToken : string
}.
Global Instance fake_verifier : verifier t := λ f tokenString,
  (parseFn f tokenString,
   {| parseFn := parseFn f; calls := S (calls f); lastToken := tokenString |}).
End fakeVerifier.

Module fakeTokenStore.
Record t : Type := {
  getFn : string → TokenStore.Token * option error;
  calls : nat;
  lastKey : string
}.
Global Instance fake_tokenStore : tokenStore t := λ f key,
  (getFn f key,
   {| getFn := getFn f; calls := S (calls f); lastKey := key |}).
End fakeTokenStore.

Module fakeLimiter.
Record t : Type := {
  allowFn : string → Z → bool * option error;
  calls : nat;
  lastKey : string;
  lastLimit : Z
}.
Global Instance fake_limiter : limiter t := λ f key limit,
  (allowFn f key limit,
   {| allowFn := allowFn f; calls := S (calls f); lastKey := key;
      lastLimit := limit |}).
End fakeLimiter.

(** [New(store, limiter, verifier)], with the clock reading of the
    request. *)
Definition New {S L V : Type} (s : S) (l : L) (v : V) (now : Time)
  : AuthorizationMiddlewareService S L V :=
  {| m_store := s; m_limiter := l; m_verifier := v; m_now := now |}.

End Auth.

Import Go Strings Auth.

(** ** Requests in a row against the counter store *)

Module Run.
Import Service.

(** The store at the instant [t]: the gateway clock reads [t] and the
    server clock reads the same instant, in milliseconds. *)
Definition at_time (t : Time) (s : CounterStore.Store) : CounterStore.Store :=
  {| CounterStore.s_rdcl :=
       {| Redis.db := Redis.db (CounterStore.s_rdcl s);
          Redis.clock := t `div` 1000000;
          Redis.faults := Redis.faults (CounterStore.s_rdcl s);
          Redis.ran := Redis.ran (CounterStore.s_rdcl s) |};
     CounterStore.s_prefix := CounterStore.s_prefix s;
     CounterStore.s_now := t |}.

(** The store after a call at [t] on a reachable backend that left the
    entry [e] under [k]. *)
Definition stepped (s : CounterStore.Store) (t : Time) (k : string)
    (e : Redis.entry) : CounterStore.Store :=
  {| CounterStore.s_rdcl :=
       {| Redis.db := <[k := e]> (Redis.db (CounterStore.s_rdcl s));
          Redis.clock := t `div` 1000000;
          Redis.faults := [];
          Redis.ran := Datatypes.S (Redis.ran (CounterStore.s_rdcl s)) |};
     CounterStore.s_prefix := CounterStore.s_prefix s;
     CounterStore.s_now := t |}.

(** One call of [Allow] at each of the instants [ts], in that order, on
    the same limiter: the results. *)
Fixpoint serve (rl : RateLimit CounterStore.Store) (key : string) (limit : Z)
    (ts : list Time) : list (bool * option error) :=
  match ts with
  | [] => []
  | t :: ts =>
      let '(res, rl') :=
        Allow {| rl_store := at_time t (rl_store rl);
                 rl_window := rl_window rl |} key limit in
      res :: serve rl' key limit ts
  end.

(** What the rule promises for requests number [j+1], [j+2], ... *)
Fixpoint verdicts (j : Z) (n : nat) (limit : Z) : list (bool * option error) :=
  match n with
  | O => []
  | Datatypes.S n => (bool_decide (j + 1 ≤ limit), None) :: verdicts (j + 1) n limit
  end.

End Run.

(** ** A runtime for the examples *)

Module UTC.

(** Days from 1970-01-01 to the given day of the proleptic Gregorian
    calendar. *)
Definition daysFromCivil (y m d : Z) : Z :=
  let y' := if bool_decide (m ≤ 2) then y - 1 else y in
  let era := y' `div` 400 in
  let yoe := y' - era * 400 in
  let mp := (m + 9) `mod` 12 in
  let doy := (153 * mp + 2) `div` 5 + d - 1 in
  let doe := yoe * 365 + yoe `div` 4 - yoe `div` 100 + doy in
  era * 146097 + doe - 719468.

Definition leap (y : Z) : bool :=
  bool_decide (y `mod` 4 = 0) && (negb (bool_decide (y `mod` 100 = 0))
                                  || bool_decide (y `mod` 400 = 0)).

Definition daysIn (y m : Z) : Z :=
  if bool_decide (m = 2) then (if leap y then 29 else 28)
  else if bool_decide (m = 4 ∨ m = 6 ∨ m = 9 ∨ m = 11) then 30 else 31.

Definition number (l : list ascii) : option Z := Go.digits 0 l.

(** The timestamps that [Upsert] writes, [t.UTC().Format(time.RFC3339)]:
    the form 2006-01-02T15:04:05Z of RFC 3339, nothing else. *)
Definition parse (s : string) : option Time :=
  match Strings.bytes s with
  | [y1; y2; y3; y4; "-"; m1; m2; "-"; d1; d2; "T";
     h1; h2; ":"; n1; n2; ":"; s1; s2; "Z"]%char =>
      y ← number [y1; y2; y3; y4];
      m ← number [m1; m2];
      d ← number [d1; d2];
      h ← number [h1; h2];
      n ← number [n1; n2];
      sc ← number [s1; s2];
      if bool_decide (1 ≤ m ≤ 12) && bool_decide (1 ≤ d ≤ daysIn y m)
         && bool_decide (h < 24) && bool_decide (n < 60) && bool_decide (sc < 60)
      then Some (ofUnix (daysFromCivil y m d * 86400 + h * 3600 + n * 60 + sc))
      else None
  | _ => None
  end.

(** Of JSON, the two texts of an empty list. *)
Definition strings (s : string) : option (list string) :=
  if decide (s = "[]") then Some []
  else if decide (s = "null") then Some []
  else None.

Definition runtime : Runtime :=
  {| time_Parse_RFC3339 := parse; json_Unmarshal_strings := strings |}.

End UTC.

(** ** The fixtures of the middleware tests *)

Module Fixtures.
Import TokenStore.

(** [time.Date(2026, 2, 8, 12, 0, 0, 0, time.UTC)] *)
Definition now : Time := ofUnix 1770552000.
Definition Hour : Duration := 60 * Minute.

(** [newClaims(apiKey, exp, routes)] *)
Definition newClaims (apiKey : string) (exp : Time) (routes : list string)
  : Claims :=
  {| Auth.APIKey := apiKey; Auth.AllowedRoutes := routes; Auth.RateLimit := 0;
     ExpiresAtRFC3339 := ""; Auth.ExpiresAt := Some exp |}.

Definition fv (parseFn : string → option Claims * option error) : fakeVerifier.t :=
  {| fakeVerifier.parseFn := parseFn; fakeVerifier.calls := 0;
     fakeVerifier.lastToken := "" |}.
Definition fs (getFn : string → Token * option error) : fakeTokenStore.t :=
  {| fakeTokenStore.getFn := getFn; fakeTokenStore.calls := 0;
     fakeTokenStore.lastKey := "" |}.
Definition fl (allowFn : string → Z → bool * option error) : fakeLimiter.t :=
  {| fakeLimiter.allowFn := allowFn; fakeLimiter.calls := 0;
     fakeLimiter.lastKey := ""; fakeLimiter.lastLimit := 0 |}.

Definition tokenWithLimit (n : Z) : Token :=
  {| APIKey := ""; RateLimit := n; ExpiresAt := zeroTime; AllowedRoutes := [] |}.

(** The request of the tests, with and without the header. *)
Definition req : Request :=
  {| Authorization := "Bearer token"; Path := "/api/v1/test" |}.
Definition reqNoHeader : Request :=
  {| Authorization := ""; Path := "/api/v1/test" |}.

(** The service of [TestAuthMiddleware_StoreBackendError_503]: valid
    claims, a store that fails with [errors.New("redis unavailable")]. *)
Definition mwStoreBackendError :=
  New (fs (λ _, (zeroToken, Some (errorString "redis unavailable"))))
      (fl (λ _ _, (true, None)))
      (fv (λ _, (Some (newClaims "k1" (now + Hour) ["/api/v1/*"]), None)))
      now.

(** The service of [TestAuthMiddleware_StoreNotFound_401]. *)
Definition mwStoreNotFound :=
  New (fs (λ _, (zeroToken, Some ErrNotFound)))
      (fl (λ _ _, (true, None)))
      (fv (λ _, (Some (newClaims "k1" (now + Hour) ["/api/v1/*"]), None)))
      now.

(** The service of [TestAuthMiddleware_ExpiredToken_401], with the
    token record disabled as well. *)
Definition mwExpiredToken :=
  New (fs (λ _, (tokenWithLimit 0, None)))
      (fl (λ _ _, (true, None)))
      (fv (λ _, (Some (newClaims "k1" (now - Second) ["/api/v1/*"]), None)))
      now.

(** The service of [TestAuthMiddleware_MissingAuthorization_401]. *)
Definition mwMissingAuthorization :=
  New (fs (λ _, (zeroToken, None)))
      (fl (λ _ _, (true, None)))
      (fv (λ _, (Some (newClaims "k" (now + Hour) ["/api/v1/*"]), None)))
      now.

(** An empty, reachable backend, and the counter store and limiter of
    [main] on it, with the default prefix and window. *)
Definition rdcl : Redis.client :=
  {| Redis.db := ∅; Redis.clock := now `div` 1000000; Redis.faults := [];
     Redis.ran := 0 |}.
Definition counterStore : CounterStore.Store := CounterStore.NewStore rdcl "" now.
Definition rateLimit : Service.RateLimit CounterStore.Store :=
  Service.NewRateLimit counterStore.

(** [fakeStore{n: 5}] of the limiter tests, behind a call counter. *)
Definition fakeStore5 : Service.fakeStore.t :=
  {| Service.fakeStore.lastKey := ""; Service.fakeStore.lastWindow := 0;
     Service.fakeStore.n := 5; Service.fakeStore.err := None |}.
Definition rateLimitFake : Service.RateLimit Service.fakeStore.t :=
  Service.NewRateLimitWithOptions fakeStore5 {| Service.Window := Second |}.
Definition rateLimitCounting
  : Service.RateLimit (Service.countingStore.t Service.fakeStore.t) :=
  Service.NewRateLimitWithOptions
    {| Service.countingStore.inner := fakeStore5; Service.countingStore.calls := 0 |}
    {| Service.Window := Second |}.

(** A backend with two token records, one expired a second ago and one
    good for another hour, and the token store of [main] on it. *)
Definition record (apiKey limit expires : string) : Redis.entry :=
  Redis.Entry
    (Redis.VHash (list_to_map [("api_key", apiKey); ("rate_limit", limit);
                               ("expires_at", expires); ("allowed_routes", "[]")]))
    None.
Definition tokenRdcl : Redis.client :=
  {| Redis.db := list_to_map
       [("token:k1", record "k1" "5" "2026-02-08T11:59:59Z");
        ("token:k2", record "k2" "5" "2026-02-08T13:00:00Z")];
     Redis.clock := now `div` 1000000; Redis.faults := []; Redis.ran := 0 |}.
Definition tokenStore : TokenStore.Store := TokenStore.NewStore tokenRdcl "" now.

End Fixtures.

(** ** The rules of the specification, in its own words *)

Module Spec.

(** Path scope: a pattern of one star matches; a pattern with a trailing
    star matches the paths that begin with the pattern less that star;
    any other pattern matches the identical path; the empty path matches
    nothing. *)
Definition scope_rule (path p : string) : Prop :=
  path ≠ "" ∧
  (p = "*"
   ∨ (∃ q, p = q +:+ "*" ∧ ∃ r, path = q +:+ r)
   ∨ ((∀ q, p ≠ q +:+ "*") ∧ path = p)).

(** Bearer extraction: the trimmed header value splits at its first
    space into two tokens, the first equal to Bearer up to case, the
    second, trimmed, not empty; that second token is the result. *)
Definition bearer_rule (v t : string) : Prop :=
  ∃ a b, TrimSpace v = a +:+ " " +:+ b
         ∧ (" "%char ∉ bytes a)
         ∧ EqualFold a "Bearer" = true
         ∧ t = TrimSpace b
         ∧ t ≠ "".

(** The response of a credential rejection: 401 with a challenge. *)
Definition challenged (o : outcome) : Prop :=
  ∃ resp, respond o = Some resp ∧ Code resp = 401 ∧ WWW_Authenticate resp ≠ "".

(** Steps 3 to 5, the checks the pipeline makes on its own: the API key
    is there, the expiry is strictly after now, and the path is in scope
    when the claims carry route patterns. *)
Definition local_checks (c : Claims) (now : Time) (path : string) : Prop :=
  APIKey c ≠ ""
  ∧ (∃ exp, ExpiresAt c = Some exp ∧ now < exp)
  ∧ (AllowedRoutes c = [] ∨ isAllowedPath path (AllowedRoutes c) = true).

(** The claims are expired at [now]: the expiry is missing or not
    strictly after it. *)
Definition expired (c : Claims) (now : Time) : Prop :=
  match ExpiresAt c with
  | None => True
  | Some exp => exp ≤ now
  end.

End Spec.

Import Spec.

(** ** More of the backend: hashes written in a transaction *)

Module RedisTx.
Import Redis.

(** HSET: the given fields are set in the hash under [k], which is
    created when the key is missing; the fields it had otherwise stay,
    and so does its expiry.  The reply is the number of new fields. *)
Definition HSET (k : string) (fields : gmap string string) (c : client)
  : reply Z * gmap string entry :=
  match get c k with
  | None => (Ok (Z.of_nat (size fields)), <[k := Entry (VHash fields) None]> (db c))
  | Some (Entry (VHash h) d) =>
      (Ok (Z.of_nat (size (fields ∖ h))),
       <[k := Entry (VHash (fields ∪ h)) d]> (db c))
  | Some (Entry (VInt _) _) => (Err wrongType, db c)
  end.

(** EXPIREAT, with the time in Unix seconds: a time that is not in the
    future of the server clock deletes the key. *)
Definition EXPIREAT (k : string) (sec : Z) (c : client)
  : reply Z * gmap string entry :=
  match get c k with
  | None => (Ok 0, db c)
  | Some e =>
      if bool_decide (clock c < sec * 1000)
      then (Ok 1, <[k := Entry (val e) (Some (sec * 1000))]> (db c))
      else (Ok 1, delete k (db c))
  end.

(** The transaction of [Upsert], MULTI, HSET, EXPIREAT, EXEC: the server
    runs both commands in a row, the second also when the first failed,
    and the first error is what [Exec] returns. *)
Definition hsetExpireAt (k : string) (fields : gmap string string) (sec : Z)
    (c : client) : reply Z * gmap string entry :=
  let '(r1, d1) := HSET k fields c in
  let '(r2, d2) := EXPIREAT k sec (set_db c d1) in
  (match r1 with Err e => Err e | Ok _ => r2 end, d2).

(** [pipe.Exec(ctx)] on the pipeline holding those two commands. *)
Definition ExecHSetExpireAt (c : client) (k : string)
    (fields : gmap string string) (sec : Z) : reply Z * client :=
  roundtrip c (hsetExpireAt k fields sec).

End RedisTx.

(** ** [Store.Upsert] of the token record store *)

Module TokenWrite.
Import TokenStore.

(** What [Upsert] uses of the Go library to write a record:
    [t.Format(time.RFC3339)] and [json.Marshal] of a [[]string]. *)
Class Formatter := {
  time_Format_RFC3339 : Time → string;
  json_Marshal_strings : list string → option string
}.

(** The fields that [Upsert] writes. *)
Definition fields `{Formatter} (t : Token) (ar : string) : gmap string string :=
  list_to_map [("api_key", APIKey t);
               ("rate_limit", Itoa (RateLimit t));
               ("expires_at", time_Format_RFC3339 (ExpiresAt t));
               ("allowed_routes", ar)].

(** [Store.Upsert]; [go-redis] sends the expiry of [ExpireAt] in whole
    Unix seconds. *)
Definition Upsert `{Formatter} (s : Store) (t : Token) : option error * Store :=
  if decide (APIKey t = "") then (Some (Errorf_w ErrInvalid "empty api_key"), s)
  else if bool_decide (RateLimit t ≤ 0) then
    (Some (Errorf_w ErrInvalid "rate_limit must be > 0"), s)
  else if decide (ExpiresAt t = zeroTime) then
    (Some (Errorf_w ErrInvalid "expires_at is required"), s)
  else if negb (After (ExpiresAt t) (s_now s)) then (Some ErrExpired, s)
  else
    match json_Marshal_strings (AllowedRoutes t) with
    | None => (Some (Errorf_w ErrInvalid "allowed_routes marshal"), s)
    | Some ar =>
        match RedisTx.ExecHSetExpireAt (s_rdcl s) (key s (APIKey t))
                (fields t ar) (Unix (ExpiresAt t)) with
        | (Redis.Err e, c) => (Some e, with_rdcl s c)
        | (Redis.Ok _, c) => (None, with_rdcl s c)
        end
    end.

End TokenWrite.

(** ** [JWTVerifier] of package [auth] *)

Module JWT.

(** What the verifier reads of the [*jwt.Token] that the parser returns. *)
Record Token : Type := { Valid : bool }.

(** The parser of github.com/golang-jwt/jwt, taken as given: from the
    accepted methods, the key function (from the algorithm of the token to
    a key or an error) and the token string, to the token, which may be
    nil, the claims it filled in, and the error. *)
Class Parser (Key : Type) :=
  ParseWithClaims :
    list string → (string → Key + error) → string →
    option Token * Claims * option error.

Record KeySet (Key : Type) : Type := {
  ExpectedAlg : string;
  DefaultKey : option Key
}.
Global Arguments ExpectedAlg {Key} _.
Global Arguments DefaultKey {Key} _.

Record JWTVerifier (Key : Type) : Type := { ks : KeySet Key }.
Global Arguments ks {Key} _.

(** [NewJWTVerifier] *)
Definition NewJWTVerifier {Key : Type} (k : KeySet Key) : JWTVerifier Key :=
  {| ks := k |}.

(** The key function that [Parse] hands to the parser. *)
Definition keyfunc {Key : Type} (v : JWTVerifier Key) (key : Key) (alg : string)
  : Key + error :=
  if decide (alg ≠ ExpectedAlg (ks v))
  then inr (errorString ("unexpected alg: " +:+ alg))
  else inl key.

(** [JWTVerifier.Parse] *)
Definition Parse {Key : Type} `{!Parser Key} (v : JWTVerifier Key)
    (tokenString : string) : option Claims * option error :=
  match DefaultKey (ks v) with
  | None => (None, Some (errorString "no key configured"))
  | Some key =>
      if decide (ExpectedAlg (ks v) = "") then
        (None, Some (errorString "expected algorithm not configured"))
      else
        let '(tok, claims, err) :=
          ParseWithClaims [ExpectedAlg (ks v)] (keyfunc v key) tokenString in
        match err with
        | Some e => (None, Some e)
        | None =>
            match tok with
            | None => (None, Some (errorString "invalid token"))
            | Some tk =>
                if negb (Valid tk) then (None, Some (errorString "invalid token"))
                else if decide (APIKey claims = "") then
                  (None, Some (errorString "missing api_key claim"))
                else (Some claims, None)
            end
        end
  end.

Global Instance JWTVerifier_verifier {Key : Type} `{!Parser Key}
  : verifier (JWTVerifier Key) := λ v tokenString, (Parse v tokenString, v).

End JWT.

(** ** The token generator: [splitCSV] *)

Module TokenGen.

(** [strings.Split(s, sep)] for a one-byte separator, on the bytes: the
    pieces between the separators, one more than there are separators. *)
Fixpoint split (sep : ascii) (l : list ascii) : list (list ascii) :=
  match l with
  | [] => [[]]
  | x :: l' =>
      if decide (x = sep) then [] :: split sep l'
      else
        match split sep l' with
        | p :: ps => (x :: p) :: ps
        | [] => [[x]]
        end
  end.

Definition Split (s : string) (sep : ascii) : list string :=
  str <$> split sep (bytes s).

(** [splitCSV] *)
Definition splitCSV (s : string) : list string :=
  filter (λ p, p ≠ "") (TrimSpace <$> Split s ",").

End TokenGen.

(** ** Package [config]: [ValidateAndNormalize] *)

Module Config.

Record Token : Type := { JWTSecret : string; Algorithm : string }.
Record Application : Type := {
  TargetHost : string;
  Port : Z;
  AppToken : Token
}.
Record ServerTimeouts : Type := {
  ReadHeaderTimeout : Duration;
  ReadTimeout : Duration;
  WriteTimeout : Duration;
  IdleTimeout : Duration
}.
Record Log : Type := { Level : string; Format : string; Colored : bool }.
Record Monitoring : Type := { IP : string; Scheme : string; MonPort : Z }.
Record Redis : Type := { Addr : string }.

Record Config : Type := {
  application : Application;
  serverTimeouts : ServerTimeouts;
  redis : Redis;
  log : Log;
  monitoring : Monitoring
}.

(** Of the Go library, taken as given: [url.Parse], with the scheme and
    the host of the URL or [None] for its error, [strings.ToUpper], and
    the quoting of the verb [%q]. *)
Class Library := {
  url_Parse : string → option (string * string);
  strings_ToUpper : string → string;
  strconv_Quote : string → string
}.

Definition defaultReadHeaderTimeout : Duration := 5 * Second.
Definition defaultReadTimeout : Duration := 30 * Second.
Definition defaultWriteTimeout : Duration := 30 * Second.
Definition defaultIdleTimeout : Duration := 60 * Second.

(** [if d <= 0 { d = def }] *)
Definition orDefault (d def : Duration) : Duration :=
  if bool_decide (d ≤ 0) then def else d.

(** The four assignments at the end of [ValidateAndNormalize]. *)
Definition normalize (c : Config) : Config :=
  let st := serverTimeouts c in
  {| application := application c;
     serverTimeouts :=
       {| ReadHeaderTimeout := orDefault (ReadHeaderTimeout st) defaultReadHeaderTimeout;
          ReadTimeout := orDefault (ReadTimeout st) defaultReadTimeout;
          WriteTimeout := orDefault (WriteTimeout st) defaultWriteTimeout;
          IdleTimeout := orDefault (IdleTimeout st) defaultIdleTimeout |};
     redis := redis c;
     log := log c;
     monitoring := monitoring c |}.

(** [Config.ValidateAndNormalize] on a receiver that is not nil (a nil
    one is refused first): the error, and the configuration as the call
    leaves it. *)
Definition ValidateAndNormalize `{Library} (c : Config) : option error * Config :=
  let app := application c in
  if bool_decide (Port app ≤ 0 ∨ 65535 < Port app) then
    (Some (errorString "application.port must be between 1 and 65535"), c)
  else if decide (TargetHost app = "") then
    (Some (errorString "application.target_host is required"), c)
  else
    match url_Parse (TargetHost app) with
    | None =>
        (Some (errorString "application.target_host must be a valid absolute URL"), c)
    | Some (scheme, host) =>
        if bool_decide (scheme = "" ∨ host = "") then
          (Some (errorString "application.target_host must be a valid absolute URL"), c)
        else if decide (Algorithm (AppToken app) = "") then
          (Some (errorString "application.token.algorithm is required"), c)
        else
          let alg := strings_ToUpper (Algorithm (AppToken app)) in
          if negb (bool_decide (alg = "HS256" ∨ alg = "HS384" ∨ alg = "HS512")) then
            (Some (errorString ("application.token.algorithm "
                                +:+ strconv_Quote (Algorithm (AppToken app))
                                +:+ " is not supported")), c)
          else if decide (JWTSecret (AppToken app) = "") then
            (Some (errorString
                     "application.token.jwt_secret is required for HMAC algorithms"), c)
          else if decide (Addr (redis c) = "") then
            (Some (errorString "redis.addr is required"), c)
          else if bool_decide (MonPort (monitoring c) < 0
                               ∨ 65535 < MonPort (monitoring c)) then
            (Some (errorString "monitoring.port must be between 0 and 65535"), c)
          else (None, normalize c)
    end.

End Config.

(** ** How far a request gets, with the counting doubles *)

Module Stages.

(** The request passes the bearer extraction, the verifier, the local
    checks and the token lookup, which returns [t], a record with a
    positive rate limit: the limiter is asked next. *)
Definition reaches_limiter
    (mf : AuthorizationMiddlewareService fakeTokenStore.t fakeLimiter.t fakeVerifier.t)
    (r : Request) (tok : string) (c : Claims) (t : TokenStore.Token) : Prop :=
  extractBearer (Authorization r) = (tok, true)
  ∧ fakeVerifier.parseFn (m_verifier mf) tok = (Some c, None)
  ∧ local_checks c (m_now mf) (Path r)
  ∧ fakeTokenStore.getFn (m_store mf) (APIKey c) = (t, None)
  ∧ 0 < TokenStore.RateLimit t.

(** The doubles after one call each, with the arguments of the calls. *)
Definition called_once
    (mf : AuthorizationMiddlewareService fakeTokenStore.t fakeLimiter.t fakeVerifier.t)
    (tok key : string) (limit : Z)
  : AuthorizationMiddlewareService fakeTokenStore.t fakeLimiter.t fakeVerifier.t :=
  {| m_store :=
       {| fakeTokenStore.getFn := fakeTokenStore.getFn (m_store mf);
          fakeTokenStore.calls := S (fakeTokenStore.calls (m_store mf));
          fakeTokenStore.lastKey := key |};
     m_limiter :=
       {| fakeLimiter.allowFn := fakeLimiter.allowFn (m_limiter mf);
          fakeLimiter.calls := S (fakeLimiter.calls (m_limiter mf));
          fakeLimiter.lastKey := key;
          fakeLimiter.lastLimit := limit |};
     m_verifier :=
       {| fakeVerifier.parseFn := fakeVerifier.parseFn (m_verifier mf);
          fakeVerifier.calls := S (fakeVerifier.calls (m_verifier mf));
          fakeVerifier.lastToken := tok |};
     m_now := m_now mf |}.

End Stages.

Import Stages.

(** ** The limiter after requests in a row *)

Module Rollover.
Import Service.

(** The limiter as the calls of [Run.serve] leave it. *)
Fixpoint served (rl : RateLimit CounterStore.Store) (key : string) (limit : Z)
    (ts : list Time) : RateLimit CounterStore.Store :=
  match ts with
  | [] => rl
  | t :: ts =>
      served (Allow {| rl_store := Run.at_time t (rl_store rl);
                       rl_window := rl_window rl |} key limit).2 key limit ts
  end.

(** Two limiters on the same backend connection state, prefix and
    window, up to the keyspace, which agrees outside the key [k]. *)
Definition same_but (k : string) (rl rl' : RateLimit CounterStore.Store) : Prop :=
  rl_window rl' = rl_window rl
  ∧ CounterStore.s_prefix (rl_store rl') = CounterStore.s_prefix (rl_store rl)
  ∧ Redis.faults (CounterStore.s_rdcl (rl_store rl'))
    = Redis.faults (CounterStore.s_rdcl (rl_store rl))
  ∧ ∀ k', k' ≠ k →
      Redis.db (CounterStore.s_rdcl (rl_store rl')) !! k'
      = Redis.db (CounterStore.s_rdcl (rl_store rl)) !! k'.

End Rollover.

(** ** More for the examples: writing timestamps and lists *)

Module UTCFormat.

(** The day of the proleptic Gregorian calendar that is [z] days after
    1970-01-01: year, month, day. *)
Definition civilFromDays (z : Z) : Z * Z * Z :=
  let z := z + 719468 in
  let era := z `div` 146097 in
  let doe := z - era * 146097 in
  let yoe := (doe - doe `div` 1460 + doe `div` 36524 - doe `div` 146096) `div` 365 in
  let doy := doe - (365 * yoe + yoe `div` 4 - yoe `div` 100) in
  let mp := (5 * doy + 2) `div` 153 in
  let d := doy - (153 * mp + 2) `div` 5 + 1 in
  let m := if bool_decide (mp < 10) then mp + 3 else mp - 9 in
  let y := yoe + era * 400 in
  (if bool_decide (m ≤ 2) then y + 1 else y, m, d).

(** [n] in decimal with at least [w] digits. *)
Definition pad (w : nat) (n : Z) : string :=
  let s := Itoa n in
  str (replicate (w - String.length s) "0"%char) +:+ s.

(** [t.UTC().Format(time.RFC3339)] for the years 0 to 9999. *)
Definition format (t : Time) : string :=
  let u := Unix t in
  let '(y, m, d) := civilFromDays (u `div` 86400) in
  let r := u `mod` 86400 in
  pad 4 y +:+ "-" +:+ pad 2 m +:+ "-" +:+ pad 2 d +:+ "T"
    +:+ pad 2 (r `div` 3600) +:+ ":" +:+ pad 2 ((r `mod` 3600) `div` 60)
    +:+ ":" +:+ pad 2 (r `mod` 60) +:+ "Z".

(** [json.Marshal] of a list of strings none of which needs an escape. *)
Fixpoint items (l : list string) : string :=
  match l with
  | [] => ""
  | [x] => Auth.quote +:+ x +:+ Auth.quote
  | x :: l => Auth.quote +:+ x +:+ Auth.quote +:+ "," +:+ items l
  end.
Definition marshal (l : list string) : option string :=
  Some ("[" +:+ items l +:+ "]").

Definition formatter : TokenWrite.Formatter :=
  {| TokenWrite.time_Format_RFC3339 := format;
     TokenWrite.json_Marshal_strings := marshal |}.

End UTCFormat.

(** ** The wiring of [main] *)

Module Main.

(** The verifier that [main] makes of the validated configuration: the
    algorithm as the configuration has it, the secret as the key. *)
Definition verifier (cfg : Config.Config) : JWT.JWTVerifier string :=
  JWT.NewJWTVerifier
    {| JWT.ExpectedAlg := Config.Algorithm (Config.AppToken (Config.application cfg));
       JWT.DefaultKey :=
         Some (Config.JWTSecret (Config.AppToken (Config.application cfg))) |}.

(** The two stores, on the one client [rd]. *)
Definition rateStore (rd : Redis.client) (now : Time) : CounterStore.Store :=
  CounterStore.NewStore rd "req_limit:" now.
Definition hndStore (rd : Redis.client) (now : Time) : TokenStore.Store :=
  TokenStore.NewStore rd "token:" now.

End Main.

(** ** More fixtures *)

Module Examples.

(** The services of [TestAuthMiddleware_Success_PassesClaimsInContext],
    [TestAuthMiddleware_TooManyRequests_429] and
    [TestAuthMiddleware_LimiterError_500], and their request. *)
Definition claimsOk : Claims :=
  Fixtures.newClaims "k1" (Fixtures.now + 10 * Minute) ["/api/v1/*"].
Definition mwSuccess :=
  New (Fixtures.fs (λ _, (Fixtures.tokenWithLimit 7, None)))
      (Fixtures.fl (λ _ _, (true, None)))
      (Fixtures.fv (λ _, (Some claimsOk, None)))
      Fixtures.now.
Definition mwTooManyRequests :=
  New (Fixtures.fs (λ _, (Fixtures.tokenWithLimit 5, None)))
      (Fixtures.fl (λ _ _, (false, None)))
      (Fixtures.fv (λ _, (Some claimsOk, None)))
      Fixtures.now.
Definition mwLimiterError :=
  New (Fixtures.fs (λ _, (Fixtures.tokenWithLimit 5, None)))
      (Fixtures.fl (λ _ _, (false, Some (errorString "redis down"))))
      (Fixtures.fv (λ _, (Some claimsOk, None)))
      Fixtures.now.
Definition reqGood : Request :=
  {| Authorization := "Bearer good.jwt.token"; Path := "/api/v1/test" |}.

(** The service and the request of [TestAuthMiddleware_PathNotAllowed_403]. *)
Definition mwPathNotAllowed :=
  New (Fixtures.fs (λ _, (Fixtures.tokenWithLimit 10, None)))
      (Fixtures.fl (λ _ _, (true, None)))
      (Fixtures.fv (λ _, (Some (Fixtures.newClaims "k1" (Fixtures.now + Fixtures.Hour)
                                  ["/api/v1/users/*"]), None)))
      Fixtures.now.
Definition reqProducts : Request :=
  {| Authorization := "Bearer token"; Path := "/api/v1/products/1" |}.

(** A parser for the examples: it knows one token, signed with HS256. *)
Definition parser : JWT.Parser string := λ methods keyfunc tokenString,
  if decide (tokenString = "good.jwt.token") then
    if decide ("HS256" ∈ methods) then
      match keyfunc "HS256" with
      | inl _ => (Some {| JWT.Valid := true |}, claimsOk, None)
      | inr e => (None, claimsOk, Some e)
      end
    else (None, claimsOk, Some (errorString "token signing method is invalid"))
  else (None, Fixtures.newClaims "" 0 [], Some (errorString "token is malformed")).

Definition verifierHS256 : JWT.JWTVerifier string :=
  JWT.NewJWTVerifier {| JWT.ExpectedAlg := "HS256"; JWT.DefaultKey := Some "secret" |}.
Definition verifierNoKey : JWT.JWTVerifier string :=
  JWT.NewJWTVerifier {| JWT.ExpectedAlg := "HS256"; JWT.DefaultKey := None |}.

(** A token record to write: key k3, seven requests a window, good for
    an hour, no routes. *)
Definition token3 : TokenStore.Token :=
  {| TokenStore.APIKey := "k3"; TokenStore.RateLimit := 7;
     TokenStore.ExpiresAt := Fixtures.now + Fixtures.Hour;
     TokenStore.AllowedRoutes := [] |}.

(** The configuration of the tests of [ValidateAndNormalize], and a
    library for it that knows that one URL. *)
Definition config : Config.Config :=
  {| Config.application :=
       {| Config.TargetHost := "http://example.com"; Config.Port := 8080;
          Config.AppToken := {| Config.JWTSecret := "secret";
                                Config.Algorithm := "HS256" |} |};
     Config.serverTimeouts :=
       {| Config.ReadHeaderTimeout := 0; Config.ReadTimeout := 0;
          Config.WriteTimeout := 0; Config.IdleTimeout := 0 |};
     Config.redis := {| Config.Addr := "localhost:6379" |};
     Config.log := {| Config.Level := ""; Config.Format := ""; Config.Colored := false |};
     Config.monitoring := {| Config.IP := ""; Config.Scheme := ""; Config.MonPort := 0 |} |}.
Definition upper (c : ascii) : ascii :=
  let n := Ascii.nat_of_ascii c in
  if bool_decide (97 ≤ n ≤ 122)%nat then Ascii.ascii_of_nat (n - 32) else c.
Definition library : Config.Library :=
  {| Config.url_Parse := λ s,
       if decide (s = "http://example.com") then Some ("http", "example.com")
       else None;
     Config.strings_ToUpper := λ s, str (upper <$> bytes s);
     Config.strconv_Quote := λ s, Auth.quote +:+ s +:+ Auth.quote |}.

(** The store of [TestAllow_StoreError_IsWrapped] and the limiter on it. *)
Definition fakeStoreBoom : Service.fakeStore.t :=
  {| Service.fakeStore.lastKey := ""; Service.fakeStore.lastWindow := 0;
     Service.fakeStore.n := 0; Service.fakeStore.err := Some (errorString "boom") |}.
Definition rateLimitBoom : Service.RateLimit Service.fakeStore.t :=
  Service.NewRateLimitWithOptions fakeStoreBoom {| Service.Window := Second |}.

(** The two stores as [main] makes them, on one backend. *)
Definition mainTokenStore : TokenStore.Store :=
  Main.hndStore Fixtures.tokenRdcl Fixtures.now.
Definition mainCounterStore : CounterStore.Store :=
  Main.rateStore Fixtures.tokenRdcl Fixtures.now.

(** The configuration with the algorithm in small letters. *)
Definition configLower : Config.Config :=
  {| Config.application :=
       {| Config.TargetHost := "http://example.com"; Config.Port := 8080;
          Config.AppToken := {| Config.JWTSecret := "secret";
                                Config.Algorithm := "hs256" |} |};
     Config.serverTimeouts := Config.serverTimeouts config;
     Config.redis := Config.redis config;
     Config.log := Config.log config;
     Config.monitoring := Config.monitoring config |}.

End Examples.

(** * Properties *)

(** ** Byte strings *)

Section string_facts.

Lemma str_bytes s : str (bytes s) = s.
Proof. apply String.string_of_list_ascii_of_string. Qed.

Lemma bytes_str l : bytes (str l) = l.
Proof. apply String.list_ascii_of_string_of_list_ascii. Qed.

Lemma bytes_inj s t : bytes s = bytes t → s = t.
Proof. intros E. rewrite <- (str_bytes s), <- (str_bytes t). by rewrite E. Qed.

Lemma bytes_app s t : bytes (s +:+ t) = bytes s ++ bytes t.
Proof.
  induction s as [|c s IH]; [done|].
  change (c :: bytes (s +:+ t) = c :: (bytes s ++ bytes t)). by rewrite IH.
Qed.

Lemma str_app k l : str (k ++ l) = str k +:+ str l.
Proof. apply bytes_inj. by rewrite bytes_app, !bytes_str. Qed.

Lemma HasPrefix_spec s p : HasPrefix s p = true ↔ ∃ r, s = p +:+ r.
Proof.
  unfold HasPrefix. rewrite bool_decide_eq_true. split.
  - intros [k Hk]. exists (str k). apply bytes_inj.
    by rewrite bytes_app, bytes_str.
  - intros [r ->]. exists (bytes r). apply bytes_app.
Qed.

Lemma HasSuffix_spec s x : HasSuffix s x = true ↔ ∃ q, s = q +:+ x.
Proof.
  unfold HasSuffix. rewrite bool_decide_eq_true. split.
  - intros [k Hk]. exists (str k). apply bytes_inj.
    by rewrite bytes_app, bytes_str.
  - intros [q ->]. exists (bytes q). apply bytes_app.
Qed.

Lemma TrimSuffix_app q x : TrimSuffix (q +:+ x) x = q.
Proof.
  unfold TrimSuffix.
  assert (HasSuffix (q +:+ x) x = true) as -> by (apply HasSuffix_spec; eauto).
  rewrite bytes_app, length_app.
  replace (length (bytes q) + length (bytes x) - length (bytes x))%nat
    with (length (bytes q)) by lia.
  by rewrite take_app_length, str_bytes.
Qed.

Lemma TrimSuffix_other s x : HasSuffix s x = false → TrimSuffix s x = s.
Proof. unfold TrimSuffix. by intros ->. Qed.

Lemma cut_Some c l a b :
  cut c l = Some (a, b) → l = a ++ c :: b ∧ c ∉ a.
Proof.
  revert a b. induction l as [|x l IH]; intros a b; cbn; [done|].
  destruct (decide (x = c)) as [->|Hx].
  - intros [= <- <-]. split; [done|]. apply not_elem_of_nil.
  - destruct (cut c l) as [[a' b']|]; [|done]. cbn. intros [= <- <-].
    destruct (IH a' b' eq_refl) as [-> Hc]. split; [done|].
    rewrite not_elem_of_cons. auto.
Qed.

Lemma cut_app c a b : c ∉ a → cut c (a ++ c :: b) = Some (a, b).
Proof.
  induction a as [|x a IH]; cbn; intros Hc.
  - by rewrite decide_True.
  - apply not_elem_of_cons in Hc as [Hx Hc].
    rewrite decide_False by done. by rewrite IH.
Qed.

Lemma cut_spec c l a b :
  cut c l = Some (a, b) ↔ l = a ++ c :: b ∧ c ∉ a.
Proof.
  split; [apply cut_Some|]. intros [-> Hc]. by apply cut_app.
Qed.

Lemma SplitN2_two v c p0 p1 :
  SplitN2 v c = [p0; p1] ↔ v = p0 +:+ String c p1 ∧ c ∉ bytes p0.
Proof.
  unfold SplitN2. destruct (cut c (bytes v)) as [[a b]|] eqn:Hcut.
  - apply cut_spec in Hcut as [Hv Hc]. split.
    + intros [= <- <-]. rewrite bytes_str. split; [|done].
      apply bytes_inj. rewrite Hv, bytes_app. cbn. by rewrite !bytes_str.
    + intros [-> Hp0]. rewrite bytes_app in Hv. cbn in Hv.
      assert (Some (a, b) = Some (bytes p0, bytes p1)) as [= -> ->].
      { rewrite <- (proj2 (cut_spec c (bytes p0 ++ c :: bytes p1) a b)),
          (proj2 (cut_spec c (bytes p0 ++ c :: bytes p1) (bytes p0) (bytes p1)));
          auto. }
      by rewrite !str_bytes.
  - split; [done|]. intros [-> Hp0].
    rewrite bytes_app in Hcut. cbn in Hcut.
    by rewrite (proj2 (cut_spec c _ (bytes p0) (bytes p1))) in Hcut.
Qed.

End string_facts.

(** ** Path scope (step 5) *)

Section path_scope.

Lemma app_star_nonempty q : q +:+ "*" ≠ "".
Proof. by destruct q. Qed.

Lemma app_star_inj q q' : q +:+ "*" = q' +:+ "*" → q = q'.
Proof.
  intros E. apply bytes_inj. apply (f_equal bytes) in E.
  rewrite !bytes_app in E. by apply app_inj_tail in E as [? _].
Qed.

Lemma matchPattern_spec path p :
  path ≠ "" → matchPattern path p = true ↔ scope_rule path (TrimSpace p).
Proof.
  intros Hpath. unfold matchPattern, scope_rule.
  generalize (TrimSpace p) as p'. intros p'.
  destruct (decide (p' = "")) as [->|Hne].
  { split; [done|]. intros (_ & [?|[(q & Hq & _)|[_ ?]]]); [done| |done].
    by destruct q. }
  destruct (decide (p' = "*")) as [->|Hstar].
  { split; [|done]. intros _. split; [done|]. by left. }
  destruct (HasSuffix p' "*") eqn:Hsuf.
  - apply HasSuffix_spec in Hsuf as [q ->]. rewrite TrimSuffix_app.
    rewrite HasPrefix_spec. split.
    + intros Hr. split; [done|]. right; left. eauto.
    + intros (_ & [?|[(q' & Hq & Hr)|[Hno _]]]); [done| |by destruct (Hno q)].
      by apply app_star_inj in Hq as ->.
  - rewrite bool_decide_eq_true. split.
    + intros ->. split; [done|]. right; right. split; [|done].
      intros q ->. assert (HasSuffix (q +:+ "*") "*" = true)
        by (apply HasSuffix_spec; eauto). congruence.
    + intros (_ & [?|[(q & -> & _)|[_ ?]]]); [done| |done].
      assert (HasSuffix (q +:+ "*") "*" = true)
        by (apply HasSuffix_spec; eauto). congruence.
Qed.

Lemma isAllowedPath_empty patterns : isAllowedPath "" patterns = false.
Proof. done. Qed.

End path_scope.

(** C4, as amended.  Each pattern is first trimmed of surrounding white
    space; a path is allowed exactly when it is not empty and some pattern,
    so trimmed, matches it by the rule: one star matches, a trailing star
    matches by prefix (the pattern less its final star), anything else
    must be the path itself.  The empty path is allowed by no patterns. *)
Theorem C4_path_scope_trimmed (path : string) (patterns : list string) :
  (isAllowedPath path patterns = true
   ↔ ∃ p, p ∈ patterns ∧ scope_rule path (TrimSpace p))
  ∧ isAllowedPath "" patterns = false
  ∧ isAllowedPath "/api/v1/users/1" ["/api/v1/users/*"] = true
  ∧ isAllowedPath "/api/v1/users" ["/api/v1/users/*"] = false
  ∧ isAllowedPath "/api/v1/users" ["/api/v1/users*"] = true.
Proof.
  split; [|by repeat split; vm_compute].
  unfold isAllowedPath. destruct (decide (path = "")) as [->|Hpath].
  - split; [done|]. by intros (p & _ & [? _]).
  - rewrite existsb_exists. split.
    + intros (p & Hin & Hm). exists p. split; [by apply list_elem_of_In|].
      by apply matchPattern_spec.
    + intros (p & Hin & Hm). exists p. split; [by apply list_elem_of_In|].
      by apply matchPattern_spec.
Qed.

(** C4 as it was stated, with the rule applied to the pattern as given,
    fails: the pattern "/a " (a trailing space) is neither a star pattern
    nor the path "/a", and the path "/a" is allowed by it. *)
Lemma C4_untrimmed_counterexample :
  ¬ (isAllowedPath "/a" ["/a "] = true ↔ scope_rule "/a" "/a ").
Proof.
  intros [H _]. destruct (H eq_refl) as (_ & [?|[(q & Hq & _)|[_ ?]]]);
    [done| |done].
  assert (HasSuffix "/a " "*" = true) as Hs
    by (apply HasSuffix_spec; eauto).
  by vm_compute in Hs.
Qed.

(** ** Bearer extraction (step 1) *)

Section bearer.

Lemma extractBearer_spec v t :
  extractBearer v = (t, true) ↔ bearer_rule v t.
Proof.
  unfold extractBearer, bearer_rule.
  generalize (TrimSpace v) as v'. intros v'.
  destruct (decide (v' = "")) as [->|Hne].
  { split; [done|]. intros (a & b & E & _). by destruct a. }
  destruct (SplitN2 v' " ") as [|p0 [|p1 [|p2 ps]]] eqn:Hs;
    try (split; [done|]; intros (a & b & E & Ha & _);
         assert (SplitN2 v' " " = [a; b]) by (by apply SplitN2_two);
         congruence).
  apply SplitN2_two in Hs as [-> Hp0].
  destruct (EqualFold p0 "Bearer") eqn:Hfold; cbn.
  - split.
    + intros [= <- Ht]. apply bool_decide_eq_true in Ht.
      exists p0, p1. done.
    + intros (a & b & E & Ha & Hf & -> & Ht).
      assert (SplitN2 (p0 +:+ String " " p1) " " = [a; b]) as Hab
        by (by apply SplitN2_two).
      rewrite (proj2 (SplitN2_two (p0 +:+ String " " p1) " " p0 p1)) in Hab
        by done.
      injection Hab as <- <-. by rewrite bool_decide_eq_true_2.
  - split; [done|]. intros (a & b & E & Ha & Hf & _).
    assert (SplitN2 (p0 +:+ String " " p1) " " = [a; b]) as Hab
      by (by apply SplitN2_two).
    rewrite (proj2 (SplitN2_two (p0 +:+ String " " p1) " " p0 p1)) in Hab
      by done.
    injection Hab as <- <-. congruence.
Qed.

(** Whatever fails comes back as the empty token and [false]. *)
Lemma extractBearer_refused v t :
  extractBearer v = (t, false) → t = "".
Proof.
  unfold extractBearer. destruct (decide _); [by intros [= <-]|].
  destruct (SplitN2 _ _) as [|p0 [|p1 [|p2 ps]]]; try by intros [= <-].
  destruct (EqualFold p0 "Bearer"); cbn; [|by intros [= <-]].
  intros [= <- Ht]. apply bool_decide_eq_false in Ht.
  by destruct (decide (TrimSpace p1 = "")).
Qed.

Lemma extractBearer_fails_iff v :
  (¬ ∃ t, bearer_rule v t) ↔ extractBearer v = ("", false).
Proof.
  split.
  - intros Hno. destruct (extractBearer v) as [t [|]] eqn:E.
    + destruct Hno. exists t. by apply extractBearer_spec.
    + by rewrite (extractBearer_refused _ _ E).
  - intros E [t Ht]. apply extractBearer_spec in Ht. congruence.
Qed.

End bearer.

(** ** The decision chain *)

Section pipeline.
Context {S L V : Type} `{!tokenStore S, !limiter L, !verifier V}.
Implicit Types (m : AuthorizationMiddlewareService S L V) (r : Request).

Lemma Handler_no_bearer m r :
  extractBearer (Authorization r) = ("", false) →
  Handler m r = (unauthorized "missing bearer token", m).
Proof. unfold Handler. by intros ->. Qed.

Lemma challenged_unauthorized msg : challenged (unauthorized msg).
Proof. eexists. split; [done|]. done. Qed.

End pipeline.

(** C8.  The bearer extraction accepts a header value exactly when the
    value, trimmed, splits at its first space into two tokens of which the
    first is Bearer up to case and the second, trimmed, is not empty, and
    it returns that second token; a value that fails the rule, the absent
    header among them, ends the request with 401 and a challenge header,
    with the service and its three collaborators left as they were: for
    the counting doubles of the tests, no call of the verifier, the store
    or the limiter is counted. *)
Theorem C8_bearer_extraction {S L V : Type}
    `{!tokenStore S, !limiter L, !verifier V}
    (m : AuthorizationMiddlewareService S L V)
    (mf : AuthorizationMiddlewareService fakeTokenStore.t fakeLimiter.t fakeVerifier.t)
    (r : Request) :
  (∀ t, extractBearer (Authorization r) = (t, true)
        ↔ bearer_rule (Authorization r) t)
  ∧ ((¬ ∃ t, bearer_rule (Authorization r) t)
     ↔ extractBearer (Authorization r) = ("", false))
  ∧ extractBearer "" = ("", false)
  ∧ (extractBearer (Authorization r) = ("", false) →
     Handler m r = (unauthorized "missing bearer token", m)
     ∧ challenged (Handler m r).1
     ∧ fakeVerifier.calls (m_verifier (Handler mf r).2)
       = fakeVerifier.calls (m_verifier mf)
     ∧ fakeTokenStore.calls (m_store (Handler mf r).2)
       = fakeTokenStore.calls (m_store mf)
     ∧ fakeLimiter.calls (m_limiter (Handler mf r).2)
       = fakeLimiter.calls (m_limiter mf)).
Proof.
  split; [intros t; apply extractBearer_spec|].
  split; [apply extractBearer_fails_iff|].
  split; [done|].
  intros E. rewrite !Handler_no_bearer by done.
  split; [done|]. split; [apply challenged_unauthorized|done].
Qed.

Section order_of_checks.
Context {S L V : Type} `{!tokenStore S, !limiter L, !verifier V}.
Implicit Types (m : AuthorizationMiddlewareService S L V) (r : Request).

(** Expired claims end the request before the store is asked. *)
Lemma Handler_expired m r tok c v :
  extractBearer (Authorization r) = (tok, true) →
  Parse (m_verifier m) tok = ((Some c, None), v) →
  expired c (m_now m) →
  (Handler m r).2 = set_verifier m v
  ∧ ((Handler m r).1 = unauthorized "missing api_key claim"
     ∨ (Handler m r).1 = unauthorized "token expired")
  ∧ (APIKey c ≠ "" → (Handler m r).1 = unauthorized "token expired").
Proof.
  intros Hb Hp Hexp. unfold Handler. rewrite Hb. cbn. rewrite Hp.
  destruct (decide (APIKey c = "")) as [Hk|Hk]; cbn.
  { split; [done|]. split; [by left|done]. }
  unfold expired in Hexp. destruct (ExpiresAt c) as [exp|]; cbn.
  - unfold After. rewrite bool_decide_eq_false_2 by lia. cbn.
    split; [done|]. split; [by right|done].
  - split; [done|]. split; [by right|done].
Qed.

End order_of_checks.

Section counted_calls.
Implicit Types
  (mf : AuthorizationMiddlewareService fakeTokenStore.t fakeLimiter.t fakeVerifier.t)
  (r : Request).

Local Ltac counted :=
  repeat split; (intros Hcalls; first [by destruct Hcalls | by eauto]).

(** With the counting doubles: which calls a request makes. *)
Lemma Handler_calls mf r :
  let mf' := (Handler mf r).2 in
  (fakeVerifier.calls (m_verifier mf') ≠ fakeVerifier.calls (m_verifier mf) →
     ∃ tok, extractBearer (Authorization r) = (tok, true))
  ∧ (fakeTokenStore.calls (m_store mf') ≠ fakeTokenStore.calls (m_store mf) →
     ∃ tok c, extractBearer (Authorization r) = (tok, true)
       ∧ fakeVerifier.parseFn (m_verifier mf) tok = (Some c, None)
       ∧ local_checks c (m_now mf) (Path r))
  ∧ (fakeLimiter.calls (m_limiter mf') ≠ fakeLimiter.calls (m_limiter mf) →
     ∃ tok c t, extractBearer (Authorization r) = (tok, true)
       ∧ fakeVerifier.parseFn (m_verifier mf) tok = (Some c, None)
       ∧ local_checks c (m_now mf) (Path r)
       ∧ fakeTokenStore.getFn (m_store mf) (APIKey c) = (t, None)
       ∧ 0 < TokenStore.RateLimit t).
Proof.
  unfold Handler.
  destruct (extractBearer (Authorization r)) as [tok [|]]; cbn; [|counted].
  unfold Parse, fakeVerifier.fake_verifier.
  destruct (fakeVerifier.parseFn (m_verifier mf) tok) as [[c|] [e|]] eqn:Hp;
    cbn; try counted.
  destruct (decide (APIKey c = "")) as [Hk|Hk]; cbn; [counted|].
  destruct (ExpiresAt c) as [exp|] eqn:Hexp; cbn; [|counted].
  unfold After. case_bool_decide as Hnow; cbn; [|counted].
  destruct (bool_decide (0 < length (AllowedRoutes c))%nat
            && negb (isAllowedPath (Path r) (AllowedRoutes c))) eqn:Hscope;
    cbn; [counted|].
  assert (local_checks c (m_now mf) (Path r)) as Hlocal.
  { split; [done|]. split; [by eauto|].
    apply andb_false_iff in Hscope as [Hlen|Hin].
    - left. apply bool_decide_eq_false in Hlen.
      destruct (AllowedRoutes c); [done|]. cbn in Hlen. lia.
    - right. by apply negb_false_iff. }
  clear Hexp Hscope.
  unfold resolve, GetToken, fakeTokenStore.fake_tokenStore. cbn.
  destruct (fakeTokenStore.getFn (m_store mf) (APIKey c)) as [t [e|]] eqn:Hg;
    cbn; [counted|].
  case_bool_decide as Hlim; cbn; [counted|].
  assert (0 < TokenStore.RateLimit t) by lia.
  unfold Allow, fakeLimiter.fake_limiter.
  destruct (fakeLimiter.allowFn (m_limiter mf) (APIKey c) (TokenStore.RateLimit t))
    as [[|] [e|]]; cbn; repeat split; intros _; eauto 10.
Qed.

End counted_calls.

(** C2.  When the verified claims carry an expiry that is not strictly
    after now (or none at all), the request ends with a 401 challenge,
    the reason being the expiry whenever the claims name an API key, and
    neither the store nor the limiter is touched, whatever the token
    record holds.  More generally, with the counting doubles: the
    verifier is called only after a bearer was extracted, the store only
    after the claims passed the three local checks as well, the limiter
    only after the store moreover returned a record with a positive rate
    limit. *)
Theorem C2_order_of_checks {S L V : Type}
    `{!tokenStore S, !limiter L, !verifier V}
    (m : AuthorizationMiddlewareService S L V)
    (mf : AuthorizationMiddlewareService fakeTokenStore.t fakeLimiter.t fakeVerifier.t)
    (r : Request) (tok : string) (c cf : Claims) (v : V) :
  (extractBearer (Authorization r) = (tok, true) →
   Parse (m_verifier m) tok = ((Some c, None), v) →
   expired c (m_now m) →
   challenged (Handler m r).1
   ∧ (APIKey c ≠ "" → (Handler m r).1 = unauthorized "token expired")
   ∧ m_store (Handler m r).2 = m_store m
   ∧ m_limiter (Handler m r).2 = m_limiter m)
  ∧ (extractBearer (Authorization r) = (tok, true) →
     fakeVerifier.parseFn (m_verifier mf) tok = (Some cf, None) →
     expired cf (m_now mf) →
     fakeTokenStore.calls (m_store (Handler mf r).2)
     = fakeTokenStore.calls (m_store mf)
     ∧ fakeLimiter.calls (m_limiter (Handler mf r).2)
       = fakeLimiter.calls (m_limiter mf))
  ∧ (fakeVerifier.calls (m_verifier (Handler mf r).2)
       ≠ fakeVerifier.calls (m_verifier mf) →
     ∃ tok, extractBearer (Authorization r) = (tok, true))
  ∧ (fakeTokenStore.calls (m_store (Handler mf r).2)
       ≠ fakeTokenStore.calls (m_store mf) →
     ∃ tok c, extractBearer (Authorization r) = (tok, true)
       ∧ fakeVerifier.parseFn (m_verifier mf) tok = (Some c, None)
       ∧ local_checks c (m_now mf) (Path r))
  ∧ (fakeLimiter.calls (m_limiter (Handler mf r).2)
       ≠ fakeLimiter.calls (m_limiter mf) →
     ∃ tok c t, extractBearer (Authorization r) = (tok, true)
       ∧ fakeVerifier.parseFn (m_verifier mf) tok = (Some c, None)
       ∧ local_checks c (m_now mf) (Path r)
       ∧ fakeTokenStore.getFn (m_store mf) (APIKey c) = (t, None)
       ∧ 0 < TokenStore.RateLimit t).
Proof.
  split; [|split; [|apply Handler_calls]].
  - intros Hb Hp Hexp.
    destruct (Handler_expired m r tok c v Hb Hp Hexp) as (Hm & Ho & Hk).
    rewrite Hm. repeat split; [|done].
    destruct Ho as [-> | ->]; apply challenged_unauthorized.
  - intros Hb Hp Hexp.
    destruct (Handler_expired mf r tok cf
                {| fakeVerifier.parseFn := fakeVerifier.parseFn (m_verifier mf);
                   fakeVerifier.calls := Datatypes.S (fakeVerifier.calls (m_verifier mf));
                   fakeVerifier.lastToken := tok |} Hb) as (Hm & _).
    { unfold Parse, fakeVerifier.fake_verifier. by rewrite Hp. }
    { done. }
    by rewrite Hm.
Qed.

(** The test with the expired claims and, on top, a disabled record: the
    expiry rejection, one call of the verifier, none of the others. *)
Lemma C2_order_of_checks_witness :
  (Handler Fixtures.mwExpiredToken Fixtures.req).1 = unauthorized "token expired"
  ∧ fakeTokenStore.calls (m_store (Handler Fixtures.mwExpiredToken Fixtures.req).2) = 0%nat
  ∧ fakeLimiter.calls (m_limiter (Handler Fixtures.mwExpiredToken Fixtures.req).2) = 0%nat.
Proof.
  pose proof (C2_order_of_checks Fixtures.mwExpiredToken Fixtures.mwExpiredToken
    Fixtures.req "token"
    (Fixtures.newClaims "k1" (Fixtures.now - Second) ["/api/v1/*"])
    (Fixtures.newClaims "k1" (Fixtures.now - Second) ["/api/v1/*"])
    {| fakeVerifier.parseFn := fakeVerifier.parseFn (m_verifier Fixtures.mwExpiredToken);
       fakeVerifier.calls := 1; fakeVerifier.lastToken := "token" |})
    as (H1 & H2 & _).
  destruct H1 as (_ & Ho & _); [by vm_compute | reflexivity | by vm_compute |].
  destruct H2 as (Hs & Hl); [by vm_compute | reflexivity | by vm_compute |].
  split; [by apply Ho|]. by rewrite Hs, Hl.
Defined.

(** The test without the header: 401 with the challenge, no calls. *)
Lemma C8_bearer_extraction_witness :
  Handler Fixtures.mwMissingAuthorization Fixtures.reqNoHeader
  = (unauthorized "missing bearer token", Fixtures.mwMissingAuthorization)
  ∧ fakeVerifier.calls
      (m_verifier (Handler Fixtures.mwMissingAuthorization Fixtures.reqNoHeader).2)
    = 0%nat.
Proof.
  destruct (C8_bearer_extraction Fixtures.mwMissingAuthorization
              Fixtures.mwMissingAuthorization Fixtures.reqNoHeader)
    as (_ & _ & _ & H).
  destruct H as (Hh & _ & Hv & _); [reflexivity|].
  split; [exact Hh | by rewrite Hv].
Defined.

(** ** The store errors in the decision chain (step 6) *)

Section store_errors.
Context {S L V : Type} `{!tokenStore S, !limiter L, !verifier V}.

(** Any error of [GetToken], whatever it is, ends in [unauthorized]. *)
Lemma resolve_store_error (m : AuthorizationMiddlewareService S L V)
    (c : Claims) (t : TokenStore.Token) (e : error) (s : S) :
  GetToken (m_store m) (APIKey c) = ((t, Some e), s) →
  resolve m c = (unauthorized ("unknown token: " +:+ Error e), set_store m s).
Proof. unfold resolve. by intros ->. Qed.

End store_errors.

(** C1, where the code departs from the specification.  In the test of
    the backend failure the store fails with an error that is neither
    NotFound nor Expired, and the handler answers 401 with a challenge,
    as it does for NotFound, where the specification and the test ask for
    503. *)
Lemma C1_backend_error_answers_401 :
  let e := errorString "redis unavailable" in
  Is e ErrNotFound = false
  ∧ Is e ErrExpired = false
  ∧ (Handler Fixtures.mwStoreBackendError Fixtures.req).1
    = unauthorized "unknown token: redis unavailable"
  ∧ (Code <$> respond (Handler Fixtures.mwStoreBackendError Fixtures.req).1)
    = Some 401
  ∧ (Code <$> respond (Handler Fixtures.mwStoreNotFound Fixtures.req).1)
    = Some 401.
Proof. by vm_compute. Qed.

(** ** The rate limiter *)

Section allow.
Import Service.
Context {S : Type} `{!store S}.
Implicit Types (rl : RateLimit S).

Lemma Allow_refuses rl key limit :
  key = "" ∨ limit ≤ 0 →
  ∃ e, Service.Allow rl key limit = ((false, Some e), rl).
Proof.
  unfold Service.Allow. intros [-> | Hl].
  - rewrite decide_True by done. eauto.
  - destruct (decide (key = "")); [by eauto|].
    rewrite bool_decide_eq_true_2 by done. eauto.
Qed.

Lemma Allow_decides rl key limit n err s :
  key ≠ "" → 0 < limit →
  Incr (rl_store rl) key (rl_window rl) = ((n, err), s) →
  Service.Allow rl key limit
  = ((match err with
      | Some e => (false, Some (Wrap e "rate limit: failed to increment counter"))
      | None => (bool_decide (n ≤ limit), None)
      end),
     {| rl_store := s; rl_window := rl_window rl |}).
Proof.
  intros Hk Hl Hi. unfold Service.Allow.
  rewrite decide_False by done. rewrite bool_decide_eq_false_2 by lia.
  rewrite Hi. by destruct err.
Qed.

End allow.

(** C9.  With an empty key or a limit that is not positive, [Allow]
    returns [false] with an error and the limiter, its store included, is
    as before; a store that counts the calls of [Incr] counts none. *)
Theorem C9_allow_refuses_without_store {S : Type} `{!Service.store S}
    (rl : Service.RateLimit S)
    (rlc : Service.RateLimit (Service.countingStore.t S))
    (key : string) (limit : Z) :
  key = "" ∨ limit ≤ 0 →
  (∃ e, Service.Allow rl key limit = ((false, Some e), rl))
  ∧ (Service.Allow rlc key limit).1.1 = false
  ∧ Service.countingStore.calls (Service.rl_store (Service.Allow rlc key limit).2)
    = Service.countingStore.calls (Service.rl_store rlc).
Proof.
  intros Hrefuse. split; [by apply Allow_refuses|].
  destruct (Allow_refuses rlc key limit Hrefuse) as [e ->]. done.
Qed.

(** ** The counter script and [Incr] *)

Section counter.
Import Redis.
Implicit Types (c : client) (k : string).

Lemma get_set_db_insert c k e :
  live (clock c) e = true → get (set_db c (<[k := e]> (db c))) k = Some e.
Proof.
  intros Hl. unfold get, set_db. cbn [db clock].
  rewrite lookup_insert_eq. cbn [mbind option_bind]. by rewrite Hl.
Qed.

(** The script on a key that is not live: the count is 1 and the
    deadline is set. *)
Lemma incrScript_fresh k ttl c :
  get c k = None → 0 < ttl →
  incrScript k ttl c
  = (Ok 1, <[k := Entry (VInt 1) (Some (clock c + ttl))]> (db c)).
Proof.
  intros Hg Httl. unfold incrScript, INCR. rewrite Hg. cbn.
  unfold PEXPIRE. rewrite get_set_db_insert by done.
  rewrite !bool_decide_eq_true_2 by done. cbn. by rewrite insert_insert_eq.
Qed.

(** The script on a live counter: one more, the deadline as it was
    unless the new count is 1. *)
Lemma incrScript_live k ttl c n d :
  get c k = Some (Entry (VInt n) d) → n < Go.maxInt64 → 0 < ttl →
  incrScript k ttl c
  = (Ok (n + 1),
     <[k := Entry (VInt (n + 1))
              (if bool_decide (n + 1 = 1) then Some (clock c + ttl) else d)]>
       (db c)).
Proof.
  intros Hg Hn Httl. unfold incrScript, INCR. rewrite Hg.
  rewrite bool_decide_eq_true_2 by done.
  case_bool_decide as H1; [|done]. cbn.
  unfold PEXPIRE. rewrite get_set_db_insert.
  - rewrite bool_decide_eq_true_2 by done. cbn. by rewrite insert_insert_eq.
  - unfold get in Hg. destruct (db c !! k) as [e|]; [|done]. cbn in Hg.
    destruct (live (clock c) e) eqn:Hl; [|done]. by injection Hg as ->.
Qed.

(** What a successful run of the script leaves behind. *)
Lemma incrScript_ok k ttl c v d :
  0 < ttl → incrScript k ttl c = (Ok v, d) →
  v = count c k + 1
  ∧ d = <[k := Entry (VInt v)
                 (if bool_decide (v = 1) then Some (clock c + ttl)
                  else expiry c k)]> (db c).
Proof.
  intros Httl. unfold count, expiry.
  destruct (get c k) as [[[n|h] dl]|] eqn:Hg.
  - destruct (decide (n < Go.maxInt64)) as [Hn|Hn].
    + rewrite (incrScript_live k ttl c n dl) by done. by intros [= <- <-].
    + unfold incrScript, INCR. rewrite Hg. by rewrite bool_decide_eq_false_2.
  - unfold incrScript, INCR. by rewrite Hg.
  - rewrite incrScript_fresh by done. by intros [= <- <-].
Qed.

Lemma roundtrip_ok {A} c (cmd : client → reply A * gmap string entry) a c' :
  roundtrip c cmd = (Ok a, c') →
  cmd c = (Ok a, db c') ∧ clock c' = clock c ∧ ran c' = Datatypes.S (ran c)
  ∧ faults c' = tail (faults c).
Proof.
  unfold roundtrip. destruct (faults c) as [|[|] fs]; [|done|];
    destruct (cmd c) as [r d]; by intros [= -> <-].
Qed.

Lemma roundtrip_reachable {A} c (cmd : client → reply A * gmap string entry) :
  faults c = [] →
  roundtrip c cmd
  = ((cmd c).1,
     {| db := (cmd c).2; clock := clock c; faults := []; ran := Datatypes.S (ran c) |}).
Proof. unfold roundtrip. intros ->. by destruct (cmd c). Qed.

Lemma roundtrip_next {A} c (cmd : client → reply A * gmap string entry) :
  reachable c = true →
  roundtrip c cmd
  = ((cmd c).1,
     {| db := (cmd c).2; clock := clock c; faults := tail (faults c);
        ran := Datatypes.S (ran c) |}).
Proof.
  unfold roundtrip, reachable. destruct (faults c) as [|[|] fs]; [|done|];
    by destruct (cmd c).
Qed.

End counter.

Section incr.
Import CounterStore.
Implicit Types (s : Store) (key : string) (window : Duration).

Lemma ttl_positive window : 0 < window → 0 < Milliseconds window + 1000.
Proof.
  intros Hw. unfold Milliseconds.
  pose proof (Z.quot_pos window 1000000). lia.
Qed.

Lemma Incr_ok s key window v s' :
  0 < window → Incr s key window = ((v, None), s') →
  Redis.roundtrip (s_rdcl s)
    (Redis.incrScript (counterKey s key window) (Milliseconds window + 1000))
  = (Redis.Ok v, s_rdcl s')
  ∧ s_prefix s' = s_prefix s ∧ s_now s' = s_now s.
Proof.
  intros Hw. unfold Incr. rewrite bool_decide_eq_false_2 by lia.
  unfold Redis.RunIncrScript.
  destruct (Redis.roundtrip _ _) as [[a|e] c]; [|done].
  by intros [= <- <-].
Qed.

End incr.

(** A call of [Incr] that fails leaves the keyspace as it was. *)
Lemma Incr_error (s s' : CounterStore.Store) (key : string)
    (window : Duration) (v : Z) (e : error) :
  CounterStore.Incr s key window = ((v, Some e), s') →
  v = 0 ∧ Redis.db (CounterStore.s_rdcl s') = Redis.db (CounterStore.s_rdcl s).
Proof.
  unfold CounterStore.Incr. case_bool_decide; [by intros [= <- _ <-]|].
  unfold Redis.RunIncrScript, Redis.roundtrip.
  destruct (Redis.faults _) as [|[|] fs]; cbn; [|by intros [= <- _ <-]|];
    (destruct (Redis.incrScript _ _ _) as [[a|e0] d] eqn:Hs; [done|];
     intros [= <- _ <-]; cbn; split; [done|];
     unfold Redis.incrScript in Hs;
     destruct (Redis.INCR _ _) as [[n|e1] d1] eqn:Hi;
       [by destruct (bool_decide (n = 1))|];
     injection Hs as _ <-; unfold Redis.INCR in Hi;
     destruct (Redis.get _ _) as [[[n|h] dl]|]; [|by injection Hi|done];
     case_bool_decide; [done|by injection Hi]).
Qed.

(** What a call of [Incr] that returns a count leaves in the backend. *)
Lemma Incr_leaves (s s' : CounterStore.Store) (key : string)
    (window : Duration) (v : Z) :
  0 < window →
  CounterStore.Incr s key window = ((v, None), s') →
  let k := CounterStore.counterKey s key window in
  let c := CounterStore.s_rdcl s in
  let c' := CounterStore.s_rdcl s' in
  let e := Redis.Entry (Redis.VInt v)
             (if bool_decide (v = 1)
              then Some (Redis.clock c + (Milliseconds window + 1000))
              else Redis.expiry c k) in
  Redis.ran c' = Datatypes.S (Redis.ran c)
  ∧ v = Redis.count c k + 1
  ∧ Redis.db c' = <[k := e]> (Redis.db c)
  ∧ Redis.get c' k = Some e.
Proof.
  intros Hw Hi k c c' e.
  destruct (Incr_ok s key window v s' Hw Hi) as (Hr & _ & _).
  apply roundtrip_ok in Hr as (Hs & Hclock & Hran & _).
  fold k c c' in Hs, Hclock, Hran.
  apply incrScript_ok in Hs as [Hv Hd]; [|by apply ttl_positive].
  fold e in Hd. repeat split; try done.
  unfold Redis.get at 1. rewrite Hd, lookup_insert_eq. cbn.
  unfold Redis.live, e. cbn. case_bool_decide as H1.
  - rewrite Hclock, bool_decide_eq_true_2; [done|].
    pose proof (ttl_positive window Hw). lia.
  - unfold Redis.expiry, Redis.get.
    destruct (Redis.db c !! k) as [e0|]; [|done]. cbn.
    destruct (Redis.live (Redis.clock c) e0) eqn:Hl; [|done]. cbn.
    unfold Redis.live in Hl. rewrite Hclock.
    destruct (Redis.deadline e0); by rewrite ?Hl.
Qed.

(** C5.  A call of [Incr] with a positive window that returns a count has
    had the server run exactly one command, the script, whose whole
    effect is: the count returned is the count before plus one, it is
    what the counter now holds, no other key has changed, the deadline of
    the counter is the server clock plus [window + 1000ms] (the window in
    whole milliseconds) when the count returned is 1, and the deadline it
    had before otherwise.  A call that fails changes no key. *)
Theorem C5_incr_one_step (s s' : CounterStore.Store) (key : string)
    (window : Duration) (v : Z) (e : error) :
  0 < window →
  let k := CounterStore.counterKey s key window in
  let c := CounterStore.s_rdcl s in
  let c' := CounterStore.s_rdcl s' in
  (CounterStore.Incr s key window = ((v, None), s') →
   Redis.ran c' = Datatypes.S (Redis.ran c)
   ∧ v = Redis.count c k + 1
   ∧ Redis.count c' k = v
   ∧ (∀ k', k' ≠ k → Redis.db c' !! k' = Redis.db c !! k')
   ∧ (v = 1 → Redis.expiry c' k = Some (Redis.clock c + (Milliseconds window + 1000)))
   ∧ (v ≠ 1 → Redis.expiry c' k = Redis.expiry c k)
   ∧ (window `mod` 1000000 = 0 →
      (Milliseconds window + 1000) * 1000000 = window + 1000 * 1000000))
  ∧ (CounterStore.Incr s key window = ((v, Some e), s') →
     Redis.db c' = Redis.db c).
Proof.
  intros Hw k c c'. split; [|intros Hi; by apply Incr_error in Hi as [_ ?]].
  intros Hi.
  destruct (Incr_leaves s s' key window v Hw Hi) as (Hran & Hv & Hd & Hget).
  fold k c c' in Hran, Hv, Hd, Hget.
  split; [done|]. split; [done|].
  split; [unfold Redis.count; by rewrite Hget|].
  split; [intros k' Hk'; by rewrite Hd, lookup_insert_ne|].
  split; [intros ->; unfold Redis.expiry; by rewrite Hget|].
  split.
  - intros H1. unfold Redis.expiry at 1. rewrite Hget. cbn.
    by rewrite bool_decide_eq_false_2.
  - intros Hm. unfold Milliseconds.
    rewrite Z.quot_div_nonneg by lia.
    pose proof (Z.div_mod window 1000000). lia.
Qed.

(** ** The window of a counter key *)

Section window.
Import CounterStore.
Implicit Types (s : Store) (key : string) (window : Duration) (t : Time).

Lemma SecondsInt64_whole sec : SecondsInt64 (sec * Second) = sec.
Proof. unfold SecondsInt64, Second. by rewrite Z.quot_mul. Qed.

Lemma Unix_ofUnix x : Unix (ofUnix x) = x.
Proof. unfold Unix, ofUnix. by rewrite Z.div_mul. Qed.

(** For a whole number of seconds and any clock, the window start is the
    Unix time divided by the window with the quotient cut towards zero,
    times the window. *)
Lemma windowStart_trunc t sec :
  0 < sec →
  Unix (windowStart t (sec * Second)) = Unix t `quot` sec * sec.
Proof.
  intros Hsec. unfold windowStart. rewrite SecondsInt64_whole.
  rewrite bool_decide_eq_false_2 by lia. by rewrite Unix_ofUnix.
Qed.

(** From the epoch on the quotient cut towards zero is the floor. *)
Lemma Unix_quot_floor t sec :
  0 < sec → 0 ≤ t → Unix t `quot` sec = Unix t `div` sec.
Proof.
  intros Hsec Ht. apply Z.quot_div_nonneg; [|done].
  unfold Unix. apply Z.div_pos; lia.
Qed.

(** The key tells the window: the prefix and the key being the same, two
    counter keys agree exactly when the window starts agree. *)
Lemma counterKey_eq_iff s1 s2 key window :
  s_prefix s1 = s_prefix s2 →
  counterKey s1 key window = counterKey s2 key window
  ↔ Unix (windowStart (s_now s1) window) = Unix (windowStart (s_now s2) window).
Proof.
  intros Hp. unfold counterKey, Itoa. rewrite Hp. split.
  - intros E. do 3 apply String.app_inj in E. by apply pretty_Z_inj in E.
  - by intros ->.
Qed.

(** Within a window the deadline set by its first request is not passed:
    two instants not before the epoch with the same window start are
    less than [window + 1000ms] apart on the millisecond clock. *)
Lemma window_span t1 t window :
  0 < window → 0 ≤ t1 → 0 ≤ t →
  Unix (windowStart t1 window) = Unix (windowStart t window) →
  t `div` 1000000 ≤ t1 `div` 1000000 + (Milliseconds window + 1000).
Proof.
  intros Hw Ht1 Ht. unfold windowStart, SecondsInt64, Milliseconds.
  rewrite (Z.quot_div_nonneg window 1000000) by lia.
  rewrite (Z.quot_div_nonneg window 1000000000) by lia.
  assert (0 ≤ window `div` 1000000000) as Hsec by (apply Z.div_pos; lia).
  case_bool_decide as Hs.
  - unfold Unix. intros E. Z.div_mod_to_equations. lia.
  - rewrite !Unix_ofUnix.
    assert (0 ≤ Unix t1 ∧ 0 ≤ Unix t) as [Hu1 Hu]
      by (unfold Unix; split; apply Z.div_pos; lia).
    rewrite !Z.quot_div_nonneg by lia.
    set (sec := window `div` 1000000000) in *.
    pose proof (Z.mul_div_le (Unix t1) sec ltac:(lia)) as Hlo.
    pose proof (Z.mul_succ_div_gt (Unix t) sec ltac:(lia)) as Hhi.
    rewrite (Z.mul_comm sec) in Hlo.
    rewrite Z.mul_succ_r, (Z.mul_comm sec) in Hhi.
    intros E. rewrite <- E in Hhi.
    set (ws := Unix t1 `div` sec * sec) in *. clearbody ws.
    unfold Unix in *. subst sec.
    Z.div_mod_to_equations. lia.
Qed.

End window.

(** C6, as amended.  For a window of a positive whole number of seconds
    and any clock, the counter key is the prefix, the key, a colon and the
    Unix time divided by the window, the quotient cut towards zero as Go's
    integer division does, times the window; it is under that key that a
    successful [Incr] leaves the count; and two calls with the same prefix
    and key derive the same storage key exactly when those quotients
    agree.  For a clock not before the Unix epoch the quotient is the
    floor, so that two such calls derive the same key exactly when their
    clock times fall in the same window. *)
Theorem C6_window_key (s1 s2 s' : CounterStore.Store) (key : string)
    (window : Duration) (sec v : Z) :
  window = sec * Second → 0 < sec →
  CounterStore.s_prefix s1 = CounterStore.s_prefix s2 →
  let u (s : CounterStore.Store) := Unix (CounterStore.s_now s) in
  let trunc_key (s : CounterStore.Store) :=
    CounterStore.s_prefix s +:+ key +:+ ":" +:+ Itoa (u s `quot` sec * sec) in
  let floor_key (s : CounterStore.Store) :=
    CounterStore.s_prefix s +:+ key +:+ ":" +:+ Itoa (u s `div` sec * sec) in
  CounterStore.counterKey s1 key window = trunc_key s1
  ∧ (CounterStore.Incr s1 key window = ((v, None), s') →
     Redis.count (CounterStore.s_rdcl s') (trunc_key s1) = v)
  ∧ (u s1 `quot` sec = u s2 `quot` sec
     ↔ CounterStore.counterKey s1 key window = CounterStore.counterKey s2 key window)
  ∧ (0 ≤ CounterStore.s_now s1 →
     CounterStore.counterKey s1 key window = floor_key s1
     ∧ (CounterStore.Incr s1 key window = ((v, None), s') →
        Redis.count (CounterStore.s_rdcl s') (floor_key s1) = v)
     ∧ (0 ≤ CounterStore.s_now s2 →
        (u s1 `div` sec = u s2 `div` sec
         ↔ CounterStore.counterKey s1 key window
           = CounterStore.counterKey s2 key window))).
Proof.
  intros -> Hsec Hp u trunc_key floor_key.
  assert (CounterStore.counterKey s1 key (sec * Second) = trunc_key s1) as Hkey.
  { unfold CounterStore.counterKey, trunc_key, u. by rewrite windowStart_trunc. }
  assert (CounterStore.Incr s1 key (sec * Second) = ((v, None), s') →
          Redis.count (CounterStore.s_rdcl s') (trunc_key s1) = v) as Hcount.
  { intros Hi. rewrite <- Hkey.
    assert (0 < sec * Second) as Hw by (unfold Second; lia).
    destruct (Incr_leaves s1 s' key (sec * Second) v Hw Hi) as (_ & _ & _ & Hget).
    unfold Redis.count. by rewrite Hget. }
  assert (u s1 `quot` sec = u s2 `quot` sec
          ↔ CounterStore.counterKey s1 key (sec * Second)
            = CounterStore.counterKey s2 key (sec * Second)) as Hiff.
  { rewrite counterKey_eq_iff by done. rewrite !windowStart_trunc by done.
    unfold u. split; [by intros ->|]. intros E. by apply Z.mul_cancel_r in E; [|lia]. }
  split; [done|]. split; [done|]. split; [done|].
  intros H1.
  assert (trunc_key s1 = floor_key s1) as Hfloor
    by (unfold trunc_key, floor_key, u; by rewrite Unix_quot_floor).
  rewrite <- Hfloor. split; [done|]. split; [done|].
  intros H2. unfold u in *.
  rewrite <- (Unix_quot_floor (CounterStore.s_now s1) sec) by done.
  by rewrite <- (Unix_quot_floor (CounterStore.s_now s2) sec) by done.
Qed.

(** C6 as it was stated, with the floor, fails before the epoch.  Ninety
    seconds before it and with a window of a minute the floor is -120 and
    the key ends in -60; and thirty seconds before and thirty seconds
    after the epoch, which the floor puts in different windows, derive
    the same key. *)
Lemma C6_floor_counterexample :
  let s := CounterStore.NewStore Fixtures.rdcl "" (ofUnix (-90)) in
  let before := CounterStore.NewStore Fixtures.rdcl "" (ofUnix (-30)) in
  let after := CounterStore.NewStore Fixtures.rdcl "" (ofUnix 30) in
  CounterStore.counterKey s "k" Minute
  ≠ CounterStore.s_prefix s +:+ "k" +:+ ":"
      +:+ Itoa (Unix (CounterStore.s_now s) `div` 60 * 60)
  ∧ CounterStore.counterKey s "k" Minute = "rate_count:k:-60"
  ∧ Unix (CounterStore.s_now before) `div` 60 ≠ Unix (CounterStore.s_now after) `div` 60
  ∧ CounterStore.counterKey before "k" Minute = CounterStore.counterKey after "k" Minute.
Proof. split; [by vm_compute|]. split; [by vm_compute|]. split; by vm_compute. Qed.

(** ** Requests within one window *)

Section one_window.
Import CounterStore Service Run.
Implicit Types (s : Store) (rl : RateLimit Store) (key k : string)
  (window : Duration) (t : Time) (ts : list Time).

Lemma counterKey_at_time s s' t key window :
  s_prefix s = s_prefix s' →
  counterKey (at_time t s) key window = counterKey (at_time t s') key window.
Proof. intros Hp. unfold counterKey, at_time. cbn. by rewrite Hp. Qed.

(** The first request of a window creates the counter. *)
Lemma Incr_fresh s t key window :
  0 < window → Redis.faults (s_rdcl s) = [] →
  Redis.get (s_rdcl (at_time t s)) (counterKey (at_time t s) key window) = None →
  CounterStore.Incr (at_time t s) key window
  = ((1, None),
     stepped s t (counterKey (at_time t s) key window)
       (Redis.Entry (Redis.VInt 1)
          (Some (t `div` 1000000 + (Milliseconds window + 1000))))).
Proof.
  intros Hw Hf Hg. unfold CounterStore.Incr.
  rewrite bool_decide_eq_false_2 by lia.
  unfold Redis.RunIncrScript. rewrite roundtrip_reachable by done.
  rewrite incrScript_fresh by (done || by apply ttl_positive). done.
Qed.

(** A later request finds the counter and adds one. *)
Lemma Incr_live s t key window j d :
  0 < window → Redis.faults (s_rdcl s) = [] →
  Redis.db (s_rdcl s) !! counterKey (at_time t s) key window
  = Some (Redis.Entry (Redis.VInt j) (Some d)) →
  t `div` 1000000 ≤ d → 1 ≤ j < maxInt64 →
  CounterStore.Incr (at_time t s) key window
  = ((j + 1, None),
     stepped s t (counterKey (at_time t s) key window)
       (Redis.Entry (Redis.VInt (j + 1)) (Some d))).
Proof.
  intros Hw Hf Hdb Hd Hj. unfold CounterStore.Incr.
  rewrite bool_decide_eq_false_2 by lia.
  unfold Redis.RunIncrScript. rewrite roundtrip_reachable by done.
  rewrite (incrScript_live _ _ _ j (Some d)).
  - rewrite bool_decide_eq_false_2 by lia. done.
  - unfold Redis.get. cbn. rewrite Hdb. cbn. unfold Redis.live. cbn.
    by rewrite bool_decide_eq_true_2.
  - lia.
  - by apply ttl_positive.
Qed.

Lemma serve_counting ts : ∀ rl key limit k j d,
  key ≠ "" → 0 < limit → 0 < rl_window rl →
  Redis.faults (s_rdcl (rl_store rl)) = [] →
  Redis.db (s_rdcl (rl_store rl)) !! k
  = Some (Redis.Entry (Redis.VInt j) (Some d)) →
  1 ≤ j → j + Z.of_nat (length ts) ≤ maxInt64 →
  (∀ t, t ∈ ts →
     counterKey (at_time t (rl_store rl)) key (rl_window rl) = k
     ∧ t `div` 1000000 ≤ d) →
  serve rl key limit ts = verdicts j (length ts) limit.
Proof.
  induction ts as [|t ts IH]; intros rl key limit k j d Hkey Hlim Hw Hf Hdb Hj Hmax Hts;
    [done|].
  destruct (Hts t) as [Hk Hd]; [left|].
  cbn [serve length verdicts].
  erewrite Allow_decides; [| done | done | ].
  2:{ cbn [rl_store rl_window]. apply Incr_live with (j := j) (d := d);
        [done | done | by rewrite Hk | done | cbn [length] in Hmax; lia]. }
  cbn. f_equal. rewrite Hk.
  apply IH with (k := k) (d := d); cbn; try done.
  - by rewrite lookup_insert_eq.
  - lia.
  - cbn [length] in Hmax. lia.
  - intros t' Ht'. destruct (Hts t') as [Hk' Hd']; [by right|].
    split; [|done]. rewrite <- Hk'. by apply counterKey_at_time.
Qed.

(** From the first request of a window on: request number [i] is
    allowed exactly when [i] is at most the limit. *)
Lemma serve_window rl key limit k t1 ts :
  key ≠ "" → 0 < limit → 0 < rl_window rl →
  Redis.faults (s_rdcl (rl_store rl)) = [] →
  Z.of_nat (length (t1 :: ts)) ≤ maxInt64 →
  (∀ t, t ∈ t1 :: ts →
     0 ≤ t ∧ counterKey (at_time t (rl_store rl)) key (rl_window rl) = k) →
  Redis.get (s_rdcl (at_time t1 (rl_store rl))) k = None →
  serve rl key limit (t1 :: ts) = verdicts 0 (length (t1 :: ts)) limit.
Proof.
  intros Hkey Hlim Hw Hf Hmax Hts Hg.
  destruct (Hts t1) as [Ht1 Hk1]; [left|].
  cbn [serve length verdicts].
  erewrite Allow_decides; [| done | done | ].
  2:{ cbn [rl_store rl_window]. apply Incr_fresh; [done | done | by rewrite Hk1]. }
  cbn. f_equal. rewrite Hk1.
  apply serve_counting
    with (k := k) (d := t1 `div` 1000000 + (Milliseconds (rl_window rl) + 1000));
    cbn; try done.
  - by rewrite lookup_insert_eq.
  - cbn [length] in Hmax. lia.
  - intros t Ht. destruct (Hts t) as [Ht0 Hk]; [by right|]. split.
    + rewrite <- Hk. by apply counterKey_at_time.
    + apply window_span; try done.
      apply (counterKey_eq_iff (at_time t1 (rl_store rl)) (at_time t (rl_store rl))
               key (rl_window rl)); [done|]. by rewrite Hk1, Hk.
Qed.

Lemma verdicts_lookup n : ∀ j limit (i : nat),
  (i < n)%nat →
  verdicts j n limit !! i = Some (bool_decide (j + Z.of_nat i + 1 ≤ limit), None).
Proof.
  induction n as [|n IH]; intros j limit i Hi; [lia|].
  destruct i as [|i]; cbn.
  - by rewrite Z.add_0_r.
  - rewrite IH by lia. do 3 f_equal. apply bool_decide_ext. lia.
Qed.

End one_window.

(** C3.  For a key that is not empty and a positive limit, [Allow] says
    yes exactly when the store returned a count, without error, that is
    at most the limit.  Hence on the counter store: of the requests of
    one window, made on a reachable backend at instants not before the
    epoch, starting when the window's counter does not exist, request
    number [i + 1] is allowed exactly when [i + 1] is at most the limit:
    the first [limit] are allowed and all later ones denied.  (The window
    is one whose whole seconds the code computes exactly.) *)
Theorem C3_allow_iff_within_limit {S : Type} `{!Service.store S}
    (rl : Service.RateLimit S) (rlw : Service.RateLimit CounterStore.Store)
    (key k : string) (limit n : Z) (err : option error) (s : S)
    (t1 : Time) (ts : list Time) (i : nat) :
  key ≠ "" → 0 < limit →
  (Service.Incr (Service.rl_store rl) key (Service.rl_window rl) = ((n, err), s) →
   ((Service.Allow rl key limit).1.1 = true ↔ err = None ∧ n ≤ limit))
  ∧ (0 < Service.rl_window rlw →
     exactSeconds (Service.rl_window rlw) →
     Redis.faults (CounterStore.s_rdcl (Service.rl_store rlw)) = [] →
     Z.of_nat (length (t1 :: ts)) ≤ maxInt64 →
     Forall (λ t, 0 ≤ t
                  ∧ CounterStore.counterKey (Run.at_time t (Service.rl_store rlw))
                      key (Service.rl_window rlw) = k) (t1 :: ts) →
     Redis.get (CounterStore.s_rdcl (Run.at_time t1 (Service.rl_store rlw))) k = None →
     (i < length (t1 :: ts))%nat →
     Run.serve rlw key limit (t1 :: ts) !! i
     = Some (bool_decide (Z.of_nat i + 1 ≤ limit), None)).
Proof.
  intros Hkey Hlim. split.
  - intros Hi. rewrite (Allow_decides rl key limit n err s) by done.
    destruct err as [e|]; cbn.
    + split; [done|]. by intros [? _].
    + rewrite bool_decide_eq_true. split; [by intros ?|by intros [_ ?]].
  - intros Hw _ Hf Hmax Hts Hg Hlen.
    rewrite (serve_window rlw key limit k t1 ts); try done.
    + by rewrite verdicts_lookup.
    + intros t Ht. by apply (proj1 (Forall_forall _ _) Hts).
Qed.

(** Three requests in the minute of the fixtures with a limit of two:
    allowed, allowed, denied. *)
Lemma C3_allow_iff_within_limit_witness :
  (Service.Allow Fixtures.rateLimitFake "k" 5).1.1 = true
  ∧ Run.serve Fixtures.rateLimit "k" 2
      [Fixtures.now; Fixtures.now + Second; Fixtures.now + 59 * Second] !! 2%nat
    = Some (false, None).
Proof.
  destruct (C3_allow_iff_within_limit Fixtures.rateLimitFake Fixtures.rateLimit
              "k" "rate_count:k:1770552000" 5 5 None
              {| Service.fakeStore.lastKey := "k";
                 Service.fakeStore.lastWindow := Second;
                 Service.fakeStore.n := 5; Service.fakeStore.err := None |}
              Fixtures.now [Fixtures.now + Second; Fixtures.now + 59 * Second] 2)
    as [H1 H2]; [done | lia |].
  split.
  - apply H1; [reflexivity|]. split; [done|lia].
  - apply (C3_allow_iff_within_limit Fixtures.rateLimitFake Fixtures.rateLimit
              "k" "rate_count:k:1770552000" 2 5 None
              {| Service.fakeStore.lastKey := "k";
                 Service.fakeStore.lastWindow := Second;
                 Service.fakeStore.n := 5; Service.fakeStore.err := None |}
              Fixtures.now [Fixtures.now + Second; Fixtures.now + 59 * Second] 2);
      [done | lia | by vm_compute | by left; vm_compute | reflexivity
      | by vm_compute | repeat constructor; by vm_compute | reflexivity
      | cbn; lia].
Defined.

(** The limiter tests with an empty key: refused, the store not called. *)
Lemma C9_allow_refuses_without_store_witness :
  (Service.Allow Fixtures.rateLimitCounting "" 10).1.1 = false
  ∧ Service.countingStore.calls
      (Service.rl_store (Service.Allow Fixtures.rateLimitCounting "" 10).2) = 0%nat.
Proof.
  destruct (C9_allow_refuses_without_store Fixtures.rateLimitFake
              Fixtures.rateLimitCounting "" 10) as (_ & Hr & Hc); [by left|].
  split; [exact Hr | exact Hc].
Defined.

(** The first request of a minute on the empty backend: the count is 1
    and the deadline is 61 seconds after the clock. *)
Lemma C5_incr_one_step_witness :
  (CounterStore.Incr Fixtures.counterStore "k" Minute).1 = (1, None)
  ∧ Redis.expiry
      (CounterStore.s_rdcl (CounterStore.Incr Fixtures.counterStore "k" Minute).2)
      "rate_count:k:1770552000"
    = Some (Redis.clock Fixtures.rdcl + 61000).
Proof.
  split; [by vm_compute|].
  destruct (C5_incr_one_step Fixtures.counterStore
              (CounterStore.Incr Fixtures.counterStore "k" Minute).2 "k" Minute 1
              ErrNotFound) as [Hok _]; [by vm_compute|].
  destruct Hok as (_ & _ & _ & _ & H1 & _); [by vm_compute|].
  by apply H1.
Defined.

(** Two clocks 59 seconds apart in the same minute: the same key. *)
Lemma C6_window_key_witness :
  CounterStore.counterKey Fixtures.counterStore "k" Minute = "rate_count:k:1770552000"
  ∧ CounterStore.counterKey (Run.at_time (Fixtures.now + 59 * Second) Fixtures.counterStore)
      "k" Minute = "rate_count:k:1770552000".
Proof.
  destruct (C6_window_key Fixtures.counterStore
              (Run.at_time (Fixtures.now + 59 * Second) Fixtures.counterStore)
              (CounterStore.Incr Fixtures.counterStore "k" Minute).2
              "k" Minute 60 1) as (Hk & _ & Hiff & _);
    [reflexivity | lia | reflexivity |].
  split; [by rewrite Hk|]. rewrite <- (proj1 Hiff); [by rewrite Hk|by vm_compute].
Defined.

(** ** The token record store *)

Section token_store.
Import TokenStore.
Context `{Runtime}.
Implicit Types (s : Store) (apiKey : string) (m : gmap string string) (t : Token).

(** A record that decodes has a rate limit of at least one. *)
Lemma decodeToken_positive apiKey m t :
  decodeToken apiKey m = (t, None) → 1 ≤ RateLimit t.
Proof.
  unfold decodeToken.
  destruct (decide (field m "rate_limit" = "")); [done|].
  destruct (Atoi _) as [rl|]; [|done].
  case_bool_decide as Hrl; [done|].
  destruct (decide (field m "expires_at" = "")); [done|].
  destruct (time_Parse_RFC3339 _) as [exp|]; [|done].
  destruct (decide (field m "allowed_routes" = "")).
  - intros [= <-]. cbn. lia.
  - destruct (json_Unmarshal_strings _); [|done]. intros [= <-]. cbn. lia.
Qed.

(** What [GetToken] returns without error is a decoded record that has
    not expired. *)
Lemma GetToken_returns s apiKey t s' :
  GetToken s apiKey = ((t, None), s') →
  1 ≤ RateLimit t ∧ s_now s < ExpiresAt t.
Proof.
  unfold GetToken. destruct (decide (apiKey = "")); [done|].
  destruct (Redis.HGetAll _ _) as [[m|e] c]; [|done].
  case_bool_decide; [done|].
  destruct (decodeToken apiKey m) as [t' [e|]] eqn:Hd; [done|].
  destruct (After (ExpiresAt t') (s_now s)) eqn:Ha; cbn; [|done].
  intros [= <- _]. split; [by eapply decodeToken_positive|].
  by apply bool_decide_eq_true in Ha.
Qed.

Lemma GetToken_expired s apiKey m dl t :
  apiKey ≠ "" →
  Redis.reachable (s_rdcl s) = true →
  Redis.get (s_rdcl s) (key s apiKey) = Some (Redis.Entry (Redis.VHash m) dl) →
  m ≠ ∅ →
  decodeToken apiKey m = (t, None) →
  ExpiresAt t ≤ s_now s →
  GetToken s apiKey
  = ((zeroToken, Some ErrExpired),
     with_rdcl s
       (Redis.Del (Redis.HGetAll (s_rdcl s) (key s apiKey)).2 (key s apiKey)).2).
Proof.
  intros Hk Hr Hg Hm Hd Hexp. unfold GetToken.
  rewrite decide_False by done.
  unfold Redis.HGetAll at 1 2. rewrite roundtrip_next by done.
  unfold Redis.HGETALL at 1. rewrite Hg. cbn [fst snd].
  rewrite bool_decide_eq_false_2 by (by rewrite map_size_empty_iff).
  rewrite Hd. unfold After. rewrite bool_decide_eq_false_2 by lia. done.
Qed.

Lemma Del_reachable c k :
  Redis.reachable c = true → Redis.db (Redis.Del c k).2 !! k = None.
Proof.
  intros Hr. unfold Redis.Del. rewrite roundtrip_next by done. cbn.
  unfold Redis.DEL. destruct (Redis.get c k); cbn; apply lookup_delete_eq.
Qed.

End token_store.

(** C7.  A stored record that decodes to a token whose expiry is not
    strictly after now: [GetToken] returns the Expired error with the
    empty token, not the record; after the read it sends one DEL for the
    record, whose outcome it ignores, so the record is gone whenever that
    command reaches the server.  And whatever [GetToken] returns without
    error has an expiry strictly after now. *)
Theorem C7_expired_record `{Runtime} (s : TokenStore.Store) (apiKey : string)
    (m : gmap string string) (dl : option Z) (t : TokenStore.Token) :
  apiKey ≠ "" →
  Redis.reachable (TokenStore.s_rdcl s) = true →
  Redis.get (TokenStore.s_rdcl s) (TokenStore.key s apiKey)
  = Some (Redis.Entry (Redis.VHash m) dl) →
  m ≠ ∅ →
  TokenStore.decodeToken apiKey m = (t, None) →
  TokenStore.ExpiresAt t ≤ TokenStore.s_now s →
  let k := TokenStore.key s apiKey in
  let read := (Redis.HGetAll (TokenStore.s_rdcl s) k).2 in
  let res := TokenStore.GetToken s apiKey in
  res.1 = (TokenStore.zeroToken, Some ErrExpired)
  ∧ res.1.1 ≠ t
  ∧ TokenStore.s_rdcl res.2 = (Redis.Del read k).2
  ∧ (Redis.reachable read = true →
     Redis.db (TokenStore.s_rdcl res.2) !! k = None)
  ∧ (∀ t' s', TokenStore.GetToken s apiKey = ((t', None), s') →
              TokenStore.s_now s < TokenStore.ExpiresAt t').
Proof.
  intros Hk Hr Hg Hm Hd Hexp k read res.
  unfold res. rewrite (GetToken_expired s apiKey m dl t) by done.
  cbn [fst snd]. split; [done|]. split.
  { intros <-. apply decodeToken_positive in Hd. by cbn in Hd. }
  split; [done|]. split.
  - intros Hread. cbn. by apply Del_reachable.
  - by intros t' s' [=].
Qed.

(** C10.  A token that the token record store returns without error has
    a rate limit of at least one, since decoding refuses a missing, an
    unparseable and a non-positive stored limit; so a pipeline on this
    store never ends a request with the rejection of step 7. *)
Theorem C10_store_tokens_enabled `{Runtime} {L V : Type}
    `{!limiter L, !verifier V} :
  (∀ apiKey m t, TokenStore.decodeToken apiKey m = (t, None) →
                 1 ≤ TokenStore.RateLimit t)
  ∧ (∀ s apiKey t s', TokenStore.GetToken s apiKey = ((t, None), s') →
                      1 ≤ TokenStore.RateLimit t)
  ∧ (∀ (m : AuthorizationMiddlewareService TokenStore.Store L V) (r : Request),
       (Handler m r).1 ≠ unauthorized "token disabled").
Proof.
  split; [apply decodeToken_positive|].
  split; [intros s apiKey t s' Hg; by apply GetToken_returns in Hg as [? _]|].
  intros m r. unfold Handler.
  destruct (extractBearer _) as [tok [|]]; cbn; [|done].
  destruct (Parse _ _) as [[[c|] [e|]] v]; cbn; try done.
  destruct (decide (APIKey c = "")); [done|].
  destruct (ExpiresAt c) as [exp|]; [|done].
  destruct (negb (After exp (m_now m))); [done|].
  destruct (_ && _); [done|].
  unfold resolve. cbn.
  destruct (GetToken _ _) as [[t [e|]] s'] eqn:Hg; cbn; [done|].
  apply GetToken_returns in Hg as [Hpos _].
  rewrite bool_decide_eq_false_2 by lia.
  destruct (Allow _ _ _) as [[[|] [e|]] l']; done.
Qed.

(** The record of the fixtures that expired a second ago: the Expired
    error, and the record is deleted. *)
Lemma C7_expired_record_witness :
  (@TokenStore.GetToken UTC.runtime Fixtures.tokenStore "k1").1
  = (TokenStore.zeroToken, Some ErrExpired)
  ∧ Redis.db (TokenStore.s_rdcl
                (@TokenStore.GetToken UTC.runtime Fixtures.tokenStore "k1").2)
      !! "token:k1" = None.
Proof.
  destruct (@C7_expired_record UTC.runtime Fixtures.tokenStore "k1"
              (list_to_map [("api_key", "k1"); ("rate_limit", "5");
                            ("expires_at", "2026-02-08T11:59:59Z");
                            ("allowed_routes", "[]")])
              None
              {| TokenStore.APIKey := "k1"; TokenStore.RateLimit := 5;
                 TokenStore.ExpiresAt := Fixtures.now - Second;
                 TokenStore.AllowedRoutes := [] |})
    as (Hres & _ & _ & Hdel & _);
    [done | reflexivity | by vm_compute | by vm_compute | by vm_compute
    | by vm_compute |].
  split; [exact Hres|]. by apply Hdel.
Defined.

(** The record of the fixtures that is good for another hour comes back
    with its rate limit of five. *)
Lemma C10_store_tokens_enabled_witness :
  1 ≤ TokenStore.RateLimit
        (@TokenStore.GetToken UTC.runtime Fixtures.tokenStore "k2").1.1.
Proof.
  destruct (@C10_store_tokens_enabled UTC.runtime fakeLimiter.t fakeVerifier.t _ _)
    as (_ & Hget & _).
  apply (Hget Fixtures.tokenStore "k2" _
           (@TokenStore.GetToken UTC.runtime Fixtures.tokenStore "k2").2).
  by vm_compute.
Defined.

(** * Further properties of the code *)

(** ** White space *)

Section trim.
Implicit Types (encs : list (list ascii)) (l : list ascii).

Lemma strip_leading_None encs l :
  strip_leading encs l = None ↔ ∀ e, e ∈ encs → ¬ e `prefix_of` l.
Proof.
  unfold strip_leading. rewrite fmap_None, head_None. split.
  - intros Hf e He Hp.
    assert (e ∈ filter (λ e, e `prefix_of` l) encs) as Hin
      by (apply list_elem_of_filter; done).
    rewrite Hf in Hin. by apply not_elem_of_nil in Hin.
  - intros Hno. apply elem_of_nil_inv. intros e He.
    apply list_elem_of_filter in He as [Hp He]. by apply (Hno e).
Qed.

Lemma strip_leading_Some encs l l' :
  strip_leading encs l = Some l' →
  ∃ e, e ∈ encs ∧ l = e ++ l'.
Proof.
  unfold strip_leading. intros Hs. apply fmap_Some in Hs as (e & Hh & ->).
  assert (e ∈ filter (λ e, e `prefix_of` l) encs) as He.
  { destruct (filter _ encs) as [|x xs]; [done|]. injection Hh as ->. left. }
  apply list_elem_of_filter in He as [[k ->] He]. exists e. split; [done|].
  by rewrite drop_app_length.
Qed.

Lemma trim_leading_suffix n encs l : trim_leading n encs l `suffix_of` l.
Proof.
  revert l. induction n as [|n IH]; intros l; cbn; [done|].
  destruct (strip_leading encs l) as [l'|] eqn:Hs; [|done].
  apply strip_leading_Some in Hs as (e & _ & ->).
  etrans; [apply IH|]. by apply suffix_app_r.
Qed.

Lemma trim_leading_stops n encs l :
  (∀ e, e ∈ encs → e ≠ []) → (length l ≤ n)%nat →
  strip_leading encs (trim_leading n encs l) = None.
Proof.
  intros Hne. revert l. induction n as [|n IH]; intros l Hlen; cbn.
  - destruct l; [|cbn in Hlen; lia]. apply strip_leading_None.
    intros e He [k Hk]. symmetry in Hk. apply app_eq_nil in Hk as [-> _].
    by apply (Hne []).
  - destruct (strip_leading encs l) as [l'|] eqn:Hs; [|done].
    apply IH. apply strip_leading_Some in Hs as (e & He & ->).
    specialize (Hne e He). destruct e; [done|].
    rewrite length_app in Hlen. cbn in Hlen. lia.
Qed.

Lemma trim_leading_id n encs l :
  strip_leading encs l = None → trim_leading n encs l = l.
Proof. intros Hs. destruct n; cbn; [done|]. by rewrite Hs. Qed.

Lemma strip_leading_prefix encs l l2 :
  strip_leading encs l = None → l2 `prefix_of` l → strip_leading encs l2 = None.
Proof.
  rewrite !strip_leading_None. intros Hno Hp e He Hpe.
  apply (Hno e He). by etrans.
Qed.

Lemma space_encodings_nonempty e : e ∈ space_encodings → e ≠ [].
Proof.
  revert e. apply Forall_forall.
  by apply (bool_decide_unpack (Forall (λ e, e ≠ []) space_encodings)).
Qed.

Lemma space_encodings_rev_nonempty e :
  e ∈ reverse <$> space_encodings → e ≠ [].
Proof.
  intros He. apply list_elem_of_fmap in He as (e' & -> & He').
  apply space_encodings_nonempty in He'. intros Hr. destruct He'.
  by rewrite <- (reverse_involutive e'), Hr.
Qed.

(** What [TrimLeftSpace] returns begins with no white-space rune, and
    what [TrimRightSpace] returns ends with none. *)
Lemma TrimLeftSpace_stops l : strip_leading space_encodings (TrimLeftSpace l) = None.
Proof. apply trim_leading_stops; [apply space_encodings_nonempty|done]. Qed.

Lemma TrimRightSpace_stops l :
  strip_leading (reverse <$> space_encodings) (reverse (TrimRightSpace l)) = None.
Proof.
  unfold TrimRightSpace. rewrite reverse_involutive.
  apply trim_leading_stops; [apply space_encodings_rev_nonempty|].
  by rewrite length_reverse.
Qed.

Lemma TrimRightSpace_prefix l : TrimRightSpace l `prefix_of` l.
Proof.
  unfold TrimRightSpace. apply (proj2 (prefix_suffix_reverse _ _)).
  rewrite reverse_involutive. apply trim_leading_suffix.
Qed.

Lemma TrimLeftSpace_suffix l : TrimLeftSpace l `suffix_of` l.
Proof. apply trim_leading_suffix. Qed.

(** A string without white space at either end is left as it is. *)
Lemma TrimSpace_fixed l :
  strip_leading space_encodings l = None →
  strip_leading (reverse <$> space_encodings) (reverse l) = None →
  TrimSpace (str l) = str l.
Proof.
  intros Hl Hr. unfold TrimSpace. rewrite bytes_str.
  unfold TrimLeftSpace. rewrite trim_leading_id by done.
  unfold TrimRightSpace. rewrite trim_leading_id by done.
  by rewrite reverse_involutive.
Qed.

Lemma TrimSpace_idempotent s : TrimSpace (TrimSpace s) = TrimSpace s.
Proof.
  unfold TrimSpace at 2 3. apply TrimSpace_fixed.
  - eapply strip_leading_prefix; [apply TrimLeftSpace_stops|].
    apply TrimRightSpace_prefix.
  - apply TrimRightSpace_stops.
Qed.

(** The trimmed string is a piece of the string: every byte of it is a
    byte of the string. *)
Lemma TrimSpace_bytes s c : c ∈ bytes (TrimSpace s) → c ∈ bytes s.
Proof.
  unfold TrimSpace. rewrite bytes_str. intros Hc.
  destruct (TrimRightSpace_prefix (TrimLeftSpace (bytes s))) as [k Hk].
  destruct (TrimLeftSpace_suffix (bytes s)) as [k' Hk'].
  rewrite Hk', Hk. set_solver.
Qed.

End trim.

(** ** The bearer token and the patterns of the token generator *)

(** X1.  Whatever [extractBearer] accepts is a token that is not empty
    and has no white space left at either end; whatever it refuses comes
    with the empty token; and white space around the header value makes
    no difference. *)
Theorem X1_extractBearer_token (v t : string) (ok : bool) :
  extractBearer v = (t, ok) →
  (ok = true → t ≠ "" ∧ TrimSpace t = t)
  ∧ (ok = false → t = "")
  ∧ extractBearer (TrimSpace v) = (t, ok).
Proof.
  intros E. split; [|split].
  - intros ->. apply extractBearer_spec in E as (a & b & _ & _ & _ & -> & Hne).
    split; [done|]. apply TrimSpace_idempotent.
  - intros ->. by apply extractBearer_refused in E.
  - rewrite <- E. unfold extractBearer. by rewrite TrimSpace_idempotent.
Qed.

(** The header of the tests with blanks around and inside. *)
Lemma X1_extractBearer_token_witness :
  TrimSpace "xxx" = "xxx"
  ∧ extractBearer (TrimSpace "  Bearer   xxx  ") = ("xxx", true).
Proof.
  destruct (X1_extractBearer_token "  Bearer   xxx  " "xxx" true)
    as (H1 & _ & H3); [by vm_compute|].
  split; [by apply H1 | exact H3].
Defined.

Section split_csv.
Import TokenGen.

Lemma split_no_sep sep l : Forall (λ p, sep ∉ p) (split sep l).
Proof.
  induction l as [|x l IH]; cbn.
  - constructor; [apply not_elem_of_nil|constructor].
  - destruct (decide (x = sep)) as [->|Hx].
    + constructor; [apply not_elem_of_nil|done].
    + destruct (split sep l) as [|p ps].
      { constructor; [|constructor]. rewrite not_elem_of_cons.
        split; [done|apply not_elem_of_nil]. }
      inversion IH as [|? ? Hp Hps]; subst. constructor; [|done].
      rewrite not_elem_of_cons. auto.
Qed.

Lemma splitCSV_elem s p :
  p ∈ splitCSV s ↔ p ≠ "" ∧ ∃ q, q ∈ Split s "," ∧ p = TrimSpace q.
Proof.
  unfold splitCSV. rewrite list_elem_of_filter, list_elem_of_fmap.
  split; [intros [? (q & -> & ?)]|intros [? (q & ? & ->)]]; eauto.
Qed.

(** A path is allowed by a list of patterns exactly when it is not empty
    and one of the patterns, trimmed, matches it. *)
Lemma isAllowedPath_spec path patterns :
  isAllowedPath path patterns = true
  ↔ ∃ p, p ∈ patterns ∧ scope_rule path (TrimSpace p).
Proof.
  unfold isAllowedPath. destruct (decide (path = "")) as [->|Hpath].
  - split; [done|]. by intros (p & _ & [? _]).
  - rewrite existsb_exists.
    split; intros (p & Hin & Hm); exists p;
      (split; [by apply list_elem_of_In|by apply matchPattern_spec]).
Qed.

End split_csv.

(** X2.  Every route that [splitCSV] returns is not empty, has no white
    space at either end and holds no comma; so the path matcher, which
    trims each pattern first, takes these routes as they are: a path is
    allowed by them exactly when it is not empty and one of them matches
    it by the rule of the star. *)
Theorem X2_splitCSV_routes (s path : string) :
  (∀ p, p ∈ TokenGen.splitCSV s →
        p ≠ "" ∧ TrimSpace p = p ∧ (","%char ∉ bytes p))
  ∧ (isAllowedPath path (TokenGen.splitCSV s) = true
     ↔ ∃ p, p ∈ TokenGen.splitCSV s ∧ scope_rule path p).
Proof.
  assert (∀ p, p ∈ TokenGen.splitCSV s →
               p ≠ "" ∧ TrimSpace p = p ∧ (","%char ∉ bytes p)) as Hshape.
  { intros p Hp. apply splitCSV_elem in Hp as (Hne & q & Hq & ->).
    split; [done|]. split; [apply TrimSpace_idempotent|].
    intros Hc. apply TrimSpace_bytes in Hc.
    unfold TokenGen.Split in Hq. apply list_elem_of_fmap in Hq as (l & -> & Hl).
    rewrite bytes_str in Hc.
    by apply (proj1 (Forall_forall _ _) (split_no_sep _ _) l Hl). }
  split; [done|].
  rewrite isAllowedPath_spec. split; intros (p & Hp & Hr); exists p; (split; [done|]);
    destruct (Hshape p Hp) as (_ & Ht & _); by rewrite Ht in *.
Qed.

(** The default routes of the token generator. *)
Lemma X2_splitCSV_routes_witness :
  TokenGen.splitCSV "/api/v1/test, /api/v1/test2 ,"
  = ["/api/v1/test"; "/api/v1/test2"]
  ∧ TrimSpace "/api/v1/test2" = "/api/v1/test2".
Proof.
  assert (TokenGen.splitCSV "/api/v1/test, /api/v1/test2 ,"
          = ["/api/v1/test"; "/api/v1/test2"]) as E by (by vm_compute).
  split; [exact E|].
  destruct (X2_splitCSV_routes "/api/v1/test, /api/v1/test2 ," "/") as [Hs _].
  rewrite E in Hs. apply (Hs "/api/v1/test2"). right. left.
Defined.

(** ** The decision chain with the counting doubles, stage by stage *)

Section decisions.
Implicit Types
  (mf : AuthorizationMiddlewareService fakeTokenStore.t fakeLimiter.t fakeVerifier.t)
  (r : Request) (c : Claims).

(** The three local checks as the handler computes them. *)
Lemma local_checks_iff c now path :
  local_checks c now path
  ↔ APIKey c ≠ ""
    ∧ (∃ exp, ExpiresAt c = Some exp ∧ After exp now = true)
    ∧ bool_decide (0 < length (AllowedRoutes c))%nat
      && negb (isAllowedPath path (AllowedRoutes c)) = false.
Proof.
  unfold local_checks, After. split.
  - intros (Hk & (exp & He & Hn) & Hr). split; [done|]. split.
    + exists exp. by rewrite bool_decide_eq_true.
    + destruct Hr as [-> | ->]; [|by rewrite andb_false_r].
      by rewrite bool_decide_eq_false_2 by (cbn; lia).
  - intros (Hk & (exp & He & Hn) & Hr). split; [done|]. split.
    + exists exp. by rewrite bool_decide_eq_true in Hn.
    + apply andb_false_iff in Hr as [Hlen|Hin].
      * left. apply bool_decide_eq_false in Hlen.
        destruct (AllowedRoutes c); [done|]. cbn in Hlen. lia.
      * right. by apply negb_false_iff.
Qed.

(** A request that passes the bearer extraction, the verifier and the
    local checks goes on to the token lookup. *)
Lemma Handler_resolves mf r tok c :
  extractBearer (Authorization r) = (tok, true) →
  fakeVerifier.parseFn (m_verifier mf) tok = (Some c, None) →
  local_checks c (m_now mf) (Path r) →
  Handler mf r
  = resolve (set_verifier mf
               {| fakeVerifier.parseFn := fakeVerifier.parseFn (m_verifier mf);
                  fakeVerifier.calls := S (fakeVerifier.calls (m_verifier mf));
                  fakeVerifier.lastToken := tok |}) c.
Proof.
  intros Hb Hp Hl. apply local_checks_iff in Hl as (Hk & (exp & He & Hn) & Hr).
  unfold Handler. rewrite Hb. cbn.
  unfold Parse, fakeVerifier.fake_verifier. rewrite Hp.
  rewrite decide_False by done. rewrite He. cbn [m_now set_verifier].
  rewrite Hn. cbn [negb]. by rewrite Hr.
Qed.

(** Conversely, a request that reaches the token lookup has passed them. *)
Lemma Handler_reaches_store mf r :
  (∃ tok c, extractBearer (Authorization r) = (tok, true)
     ∧ fakeVerifier.parseFn (m_verifier mf) tok = (Some c, None)
     ∧ local_checks c (m_now mf) (Path r))
  ∨ ((Handler mf r).2
     = (if (extractBearer (Authorization r)).2
        then set_verifier mf
               {| fakeVerifier.parseFn := fakeVerifier.parseFn (m_verifier mf);
                  fakeVerifier.calls := S (fakeVerifier.calls (m_verifier mf));
                  fakeVerifier.lastToken := (extractBearer (Authorization r)).1 |}
        else mf)
     ∧ (∀ c, (Handler mf r).1 ≠ next c)
     ∧ (Handler mf r).1 ≠ httpError "Too Many Requests" 429
     ∧ (Handler mf r).1 ≠ httpError "Rate limiter error" 500).
Proof.
  unfold Handler.
  destruct (extractBearer (Authorization r)) as [tok [|]] eqn:Hb; cbn;
    [|by right].
  unfold Parse, fakeVerifier.fake_verifier.
  destruct (fakeVerifier.parseFn (m_verifier mf) tok) as [[c|] [e|]] eqn:Hp;
    cbn; try by right.
  destruct (decide (APIKey c = "")) as [Hk|Hk]; cbn; [by right|].
  destruct (ExpiresAt c) as [exp|] eqn:Hexp; cbn; [|by right].
  destruct (After exp (m_now mf)) eqn:Hn; cbn; [|by right].
  destruct (bool_decide (0 < length (AllowedRoutes c))%nat
            && negb (isAllowedPath (Path r) (AllowedRoutes c))) eqn:Hscope;
    cbn; [by right|].
  left. exists tok, c. split; [done|]. split; [done|].
  apply local_checks_iff. eauto.
Qed.

End decisions.

Section limiter_stage.
Implicit Types
  (mf : AuthorizationMiddlewareService fakeTokenStore.t fakeLimiter.t fakeVerifier.t)
  (r : Request) (c : Claims) (t : TokenStore.Token).

(** A request that reaches the limiter ends as the limiter says. *)
Lemma Handler_at_limiter mf r tok c t :
  reaches_limiter mf r tok c t →
  Handler mf r
  = (match fakeLimiter.allowFn (m_limiter mf) (APIKey c) (TokenStore.RateLimit t) with
     | (_, Some _) => httpError "Rate limiter error" 500
     | (false, None) => httpError "Too Many Requests" 429
     | (true, None) => next c
     end,
     called_once mf tok (APIKey c) (TokenStore.RateLimit t)).
Proof.
  intros (Hb & Hp & Hl & Hg & Hpos). rewrite (Handler_resolves mf r tok c) by done.
  unfold resolve, GetToken, fakeTokenStore.fake_tokenStore. cbn. rewrite Hg.
  rewrite bool_decide_eq_false_2 by lia.
  unfold Allow, fakeLimiter.fake_limiter.
  by destruct (fakeLimiter.allowFn _ _ _) as [[|] [e|]].
Qed.

(** A request that ends as the limiter stage ends has reached it. *)
Lemma Handler_limiter_outcome mf r :
  (∃ c, (Handler mf r).1 = next c)
  ∨ (Handler mf r).1 = httpError "Too Many Requests" 429
  ∨ (Handler mf r).1 = httpError "Rate limiter error" 500 →
  ∃ tok c t, reaches_limiter mf r tok c t.
Proof.
  intros Ho.
  destruct (Handler_reaches_store mf r)
    as [(tok & c & Hb & Hp & Hl)|(_ & Hnext & H429 & H500)].
  2:{ destruct Ho as [[c Hc]|[?|?]]; [by destruct (Hnext c)|done|done]. }
  rewrite (Handler_resolves mf r tok c) in Ho by done.
  unfold resolve, GetToken, fakeTokenStore.fake_tokenStore in Ho. cbn in Ho.
  destruct (fakeTokenStore.getFn (m_store mf) (APIKey c)) as [t [e|]] eqn:Hg;
    cbn in Ho; [by destruct Ho as [[? ?]|[?|?]]|].
  case_bool_decide as Hlim; cbn in Ho; [by destruct Ho as [[? ?]|[?|?]]|].
  exists tok, c, t. unfold reaches_limiter. split_and!; try done. lia.
Qed.

End limiter_stage.

(** X3.  With the counting doubles, a request is handed on to the next
    handler exactly when a bearer is extracted, the verifier returns
    claims that pass the local checks, the store returns a record with a
    positive rate limit and the limiter says yes without error; the claims
    handed on are the verifier's, each collaborator has then been called
    once, and the limiter was asked with the API key of the claims and the
    rate limit of the stored record. *)
Theorem X3_accepted_iff
    (mf : AuthorizationMiddlewareService fakeTokenStore.t fakeLimiter.t fakeVerifier.t)
    (r : Request) (c : Claims) :
  (Handler mf r).1 = next c
  ↔ ∃ tok t, reaches_limiter mf r tok c t
      ∧ fakeLimiter.allowFn (m_limiter mf) (APIKey c) (TokenStore.RateLimit t)
        = (true, None)
      ∧ (Handler mf r).2 = called_once mf tok (APIKey c) (TokenStore.RateLimit t).
Proof.
  split.
  - intros Ho. destruct (Handler_limiter_outcome mf r) as (tok & c' & t & Hr);
      [left; eauto|].
    rewrite (Handler_at_limiter mf r tok c' t Hr) in Ho |- *. cbn in Ho |- *.
    destruct (fakeLimiter.allowFn _ _ _) as [[|] [e|]] eqn:Ha; try done.
    injection Ho as ->. exists tok, t. by rewrite Ha.
  - intros (tok & t & Hr & Ha & _).
    rewrite (Handler_at_limiter mf r tok c t Hr). by rewrite Ha.
Qed.

(** X4.  With the counting doubles, 429 is the answer exactly when the
    request reached the limiter and the limiter said no without error,
    and 500 exactly when it reached the limiter and the limiter returned
    an error, whatever verdict came with the error: a failure of the
    limiter is never reported as a denial. *)
Theorem X4_limiter_verdicts
    (mf : AuthorizationMiddlewareService fakeTokenStore.t fakeLimiter.t fakeVerifier.t)
    (r : Request) :
  ((Handler mf r).1 = httpError "Too Many Requests" 429
   ↔ ∃ tok c t, reaches_limiter mf r tok c t
       ∧ fakeLimiter.allowFn (m_limiter mf) (APIKey c) (TokenStore.RateLimit t)
         = (false, None))
  ∧ ((Handler mf r).1 = httpError "Rate limiter error" 500
     ↔ ∃ tok c t b e, reaches_limiter mf r tok c t
         ∧ fakeLimiter.allowFn (m_limiter mf) (APIKey c) (TokenStore.RateLimit t)
           = (b, Some e)).
Proof.
  split; split.
  - intros Ho. destruct (Handler_limiter_outcome mf r) as (tok & c & t & Hr);
      [right; left; done|].
    rewrite (Handler_at_limiter mf r tok c t Hr) in Ho. cbn in Ho.
    destruct (fakeLimiter.allowFn _ _ _) as [[|] [e|]] eqn:Ha; try done.
    exists tok, c, t. by rewrite Ha.
  - intros (tok & c & t & Hr & Ha).
    rewrite (Handler_at_limiter mf r tok c t Hr). by rewrite Ha.
  - intros Ho. destruct (Handler_limiter_outcome mf r) as (tok & c & t & Hr);
      [right; right; done|].
    rewrite (Handler_at_limiter mf r tok c t Hr) in Ho. cbn in Ho.
    destruct (fakeLimiter.allowFn _ _ _) as [b [e|]] eqn:Ha;
      [|by destruct b].
    exists tok, c, t, b, e. by rewrite Ha.
  - intros (tok & c & t & b & e & Hr & Ha).
    rewrite (Handler_at_limiter mf r tok c t Hr). rewrite Ha. by destruct b.
Qed.

Section resolve_outcomes.
Context {S L V : Type} `{!tokenStore S, !limiter L, !verifier V}.

(** From the token lookup on, a request ends in 401, 429, 500 or the
    hand-over. *)
Lemma resolve_outcome_shape (m : AuthorizationMiddlewareService S L V) (c : Claims) :
  (∃ msg, (resolve m c).1 = unauthorized msg)
  ∨ (resolve m c).1 = httpError "Too Many Requests" 429
  ∨ (resolve m c).1 = httpError "Rate limiter error" 500
  ∨ (resolve m c).1 = next c.
Proof.
  unfold resolve.
  destruct (GetToken (m_store m) (APIKey c)) as [[t [e|]] s']; cbn; [by eauto|].
  case_bool_decide; cbn; [by eauto|].
  destruct (Allow _ _ _) as [[[|] [e|]] l']; cbn; eauto 10.
Qed.

Lemma resolve_not_forbidden (m : AuthorizationMiddlewareService S L V) (c : Claims) :
  (resolve m c).1 ≠ httpError "Forbidden" 403.
Proof.
  by destruct (resolve_outcome_shape m c) as [[msg ->]|[->|[->| ->]]].
Qed.

End resolve_outcomes.

(** X5.  With the counting doubles, 403 is the answer exactly when a
    bearer is extracted, the verifier returns claims with an API key and
    an expiry strictly after now, and the claims carry route patterns
    none of which allows the path; claims without patterns are never
    refused for the path, whatever the path is. *)
Theorem X5_forbidden_iff
    (mf : AuthorizationMiddlewareService fakeTokenStore.t fakeLimiter.t fakeVerifier.t)
    (r : Request) :
  (Handler mf r).1 = httpError "Forbidden" 403
  ↔ ∃ tok c exp, extractBearer (Authorization r) = (tok, true)
      ∧ fakeVerifier.parseFn (m_verifier mf) tok = (Some c, None)
      ∧ APIKey c ≠ ""
      ∧ ExpiresAt c = Some exp ∧ m_now mf < exp
      ∧ AllowedRoutes c ≠ []
      ∧ isAllowedPath (Path r) (AllowedRoutes c) = false.
Proof.
  unfold Handler.
  destruct (extractBearer (Authorization r)) as [tok [|]] eqn:Hb; cbn -[resolve];
    [|split; [done|by intros (? & ? & ? & [=] & _)]].
  unfold Parse, fakeVerifier.fake_verifier.
  destruct (fakeVerifier.parseFn (m_verifier mf) tok) as [c0 e0] eqn:Hp. cbn -[resolve].
  split.
  - destruct e0 as [e|]; [done|]. destruct c0 as [c|]; [|done].
    destruct (decide (APIKey c = "")) as [Hk|Hk]; [done|].
    destruct (ExpiresAt c) as [exp|] eqn:Hexp; [|done].
    unfold After. case_bool_decide as Hnow; cbn -[resolve]; [|done].
    destruct (bool_decide (0 < length (AllowedRoutes c))%nat) eqn:Hlen;
      cbn -[resolve].
    + destruct (isAllowedPath (Path r) (AllowedRoutes c)) eqn:Hin; cbn -[resolve].
      * intros Ho. by apply resolve_not_forbidden in Ho.
      * intros _. exists tok, c, exp. split_and!; try done.
        apply bool_decide_eq_true in Hlen. intros Hnil. rewrite Hnil in Hlen.
        cbn in Hlen. lia.
    + intros Ho. by apply resolve_not_forbidden in Ho.
  - intros (tok' & c & exp & [= <-] & Hp' & Hk & Hexp & Hnow & Hr & Hin).
    rewrite Hp in Hp'. injection Hp' as -> ->.
    rewrite decide_False by done. rewrite Hexp. unfold After.
    rewrite bool_decide_eq_true_2 by done. cbn. rewrite Hin.
    rewrite bool_decide_eq_true_2; [done|].
    destruct (AllowedRoutes c); [done|]. cbn. lia.
Qed.

Section outcomes.
Context {S L V : Type} `{!tokenStore S, !limiter L, !verifier V}.

(** How a request can end. *)
Lemma Handler_outcome_shape (m : AuthorizationMiddlewareService S L V) (r : Request) :
  (∃ msg, (Handler m r).1 = unauthorized msg)
  ∨ (Handler m r).1 = httpError "Forbidden" 403
  ∨ (Handler m r).1 = httpError "Too Many Requests" 429
  ∨ (Handler m r).1 = httpError "Rate limiter error" 500
  ∨ (∃ c, (Handler m r).1 = next c)
  ∨ (Handler m r).1 = panic.
Proof.
  unfold Handler.
  destruct (extractBearer (Authorization r)) as [tok [|]]; cbn -[resolve];
    [|by eauto].
  destruct (Parse _ _) as [[[c|] [e|]] v]; cbn -[resolve]; try by eauto 10.
  destruct (decide (APIKey c = "")); [by eauto|].
  destruct (ExpiresAt c) as [exp|]; [|by eauto].
  destruct (negb (After exp (m_now m))); [by eauto|].
  destruct (_ && _); [by eauto|].
  destruct (resolve_outcome_shape (set_verifier m v) c)
    as [[msg Ho]|[Ho|[Ho|Ho]]]; rewrite Ho; eauto 10.
Qed.

End outcomes.

(** X6.  Whatever the collaborators are, a response that the middleware
    writes itself has status 401, 403, 429 or 500, and it carries the
    WWW-Authenticate challenge exactly when the status is 401. *)
Theorem X6_challenge_iff_401 {S L V : Type}
    `{!tokenStore S, !limiter L, !verifier V}
    (m : AuthorizationMiddlewareService S L V) (r : Request) (resp : Response) :
  respond (Handler m r).1 = Some resp →
  (Code resp = 401 ∨ Code resp = 403 ∨ Code resp = 429 ∨ Code resp = 500)
  ∧ (WWW_Authenticate resp ≠ "" ↔ Code resp = 401).
Proof.
  destruct (Handler_outcome_shape m r)
    as [[msg Ho]|[Ho|[Ho|[Ho|[[c Ho]|Ho]]]]]; rewrite Ho; cbn; try done;
    intros [= <-]; cbn; split; auto; split; done.
Qed.

(** A rejection of the tests: the challenge comes with the 401. *)
Lemma X6_challenge_iff_401_witness :
  Code (http_Error ("Bearer realm=" +:+ Auth.quote +:+ "api" +:+ Auth.quote)
          "Unauthorized" 401) = 401.
Proof.
  destruct (X6_challenge_iff_401 Fixtures.mwStoreNotFound Fixtures.req
              (http_Error ("Bearer realm=" +:+ Auth.quote +:+ "api" +:+ Auth.quote)
                 "Unauthorized" 401)) as [_ Hiff]; [reflexivity|].
  by apply Hiff.
Defined.

(** ** The verifier *)

Section jwt_verifier.
Context {Key : Type} `{!JWT.Parser Key}.
Implicit Types (v : JWT.JWTVerifier Key).

(** [Parse] returns claims or an error, never both and never neither,
    and the claims it returns name an API key. *)
Lemma JWT_Parse_result v tokenString :
  (∃ e, JWT.Parse v tokenString = (None, Some e))
  ∨ (∃ c, JWT.Parse v tokenString = (Some c, None) ∧ APIKey c ≠ "").
Proof.
  unfold JWT.Parse. destruct (JWT.DefaultKey (JWT.ks v)) as [key|]; [|by eauto].
  destruct (decide (JWT.ExpectedAlg (JWT.ks v) = "")); [by eauto|].
  destruct (JWT.ParseWithClaims _ _ _) as [[[tk|] c] [e|]]; try by eauto.
  destruct (negb (JWT.Valid tk)); [by eauto|].
  destruct (decide (APIKey c = "")); by eauto.
Qed.

End jwt_verifier.

(** X7.  The key function of the verifier gives the key for the
    configured algorithm alone.  With a key and an algorithm configured,
    what [Parse] returns is decided by what the parser returns for the
    configured algorithm as the only accepted method, that key function
    and the token string: the error of the parser if there is one, else
    the claims the parser filled in when the token is there and valid and
    the claims name an API key, else an error of its own; two parsers that
    agree on that one call give the same result.  Without a key or without
    an algorithm it fails whatever the parser is; the claims it returns without error name an
    API key, and it never returns neither claims nor error.  So with this
    verifier the middleware never meets nil claims and never answers for a
    missing API key claim. *)
Theorem X7_jwt_verifier {Key S L : Type}
    `{!JWT.Parser Key, !tokenStore S, !limiter L}
    (v : JWT.JWTVerifier Key) (tokenString : string) :
  (∀ key alg k, JWT.keyfunc v key alg = inl k
                ↔ alg = JWT.ExpectedAlg (JWT.ks v) ∧ k = key)
  ∧ (∀ key, JWT.DefaultKey (JWT.ks v) = Some key →
            JWT.ExpectedAlg (JWT.ks v) ≠ "" →
       (∀ tok claims err,
          JWT.ParseWithClaims [JWT.ExpectedAlg (JWT.ks v)] (JWT.keyfunc v key)
            tokenString = (tok, claims, err) →
          (∀ e, err = Some e → JWT.Parse v tokenString = (None, Some e))
          ∧ (err = None →
             (JWT.Parse v tokenString = (Some claims, None)
              ↔ (∃ tk, tok = Some tk ∧ JWT.Valid tk = true) ∧ APIKey claims ≠ "")
             ∧ (JWT.Parse v tokenString ≠ (Some claims, None) →
                ∃ e, JWT.Parse v tokenString = (None, Some e))))
       ∧ (∀ (P P' : JWT.Parser Key),
            @JWT.ParseWithClaims Key P [JWT.ExpectedAlg (JWT.ks v)]
              (JWT.keyfunc v key) tokenString
            = @JWT.ParseWithClaims Key P' [JWT.ExpectedAlg (JWT.ks v)]
                (JWT.keyfunc v key) tokenString →
            @JWT.Parse Key P v tokenString = @JWT.Parse Key P' v tokenString))
  ∧ (JWT.DefaultKey (JWT.ks v) = None ∨ JWT.ExpectedAlg (JWT.ks v) = "" →
     ∀ (P : JWT.Parser Key), ∃ e, @JWT.Parse Key P v tokenString = (None, Some e))
  ∧ (∀ c e, JWT.Parse v tokenString = (c, e) →
            (c = None ∧ e ≠ None) ∨ (∃ c', c = Some c' ∧ APIKey c' ≠ "" ∧ e = None))
  ∧ (∀ (m : AuthorizationMiddlewareService S L (JWT.JWTVerifier Key)) (r : Request),
       (Handler m r).1 ≠ panic
       ∧ (Handler m r).1 ≠ unauthorized "missing api_key claim").
Proof.
  split; [|split; [|split; [|split]]].
  - intros key alg k. unfold JWT.keyfunc.
    destruct (decide (alg ≠ _)) as [Hne|Heq].
    + split; [done|]. by intros [? _].
    + apply dec_stable in Heq. split; [by intros [= <-]|by intros [_ ->]].
  - intros key Hkey Halg. split.
    + intros tok claims err Hcall. unfold JWT.Parse.
      rewrite Hkey, decide_False by done. rewrite Hcall. split.
      * by intros e ->.
      * intros ->. destruct tok as [tk|].
        -- destruct (JWT.Valid tk) eqn:Hvalid; cbn.
           ++ destruct (decide (APIKey claims = "")) as [Hk|Hk].
              ** split; [|by eauto]. split; [done|]. by intros [_ ?].
              ** split; [|done]. split; [|done]. intros _. split; [by eauto|done].
           ++ split; [|by eauto]. split; [done|].
              intros [(tk' & [= <-] & Hv) _]. congruence.
        -- split; [|by eauto]. split; [done|]. by intros [(tk' & [=] & _) _].
    + intros P P' Hagree. unfold JWT.Parse.
      rewrite Hkey. destruct (decide (JWT.ExpectedAlg (JWT.ks v) = "")); [done|].
      revert Hagree.
      generalize (@JWT.ParseWithClaims Key P [JWT.ExpectedAlg (JWT.ks v)]
                    (JWT.keyfunc v key) tokenString).
      generalize (@JWT.ParseWithClaims Key P' [JWT.ExpectedAlg (JWT.ks v)]
                    (JWT.keyfunc v key) tokenString).
      by intros res' res ->.
  - intros Hcfg P. unfold JWT.Parse.
    destruct (JWT.DefaultKey (JWT.ks v)) as [key|]; [|by eauto].
    destruct Hcfg as [?|Halg]; [done|]. rewrite decide_True by done. by eauto.
  - intros c e Hp.
    destruct (JWT_Parse_result v tokenString) as [[e' He]|(c' & Hc & Hk)];
      rewrite Hp in *; simplify_eq; [by left|right; eauto].
  - intros m r. unfold Handler.
    destruct (extractBearer (Authorization r)) as [tok [|]]; cbn -[resolve];
      [|done].
    unfold Parse, JWT.JWTVerifier_verifier.
    destruct (JWT_Parse_result (m_verifier m) tok) as [[e He]|(c & Hc & Hk)].
    + rewrite He. cbn -[resolve]. done.
    + rewrite Hc. cbn -[resolve]. rewrite decide_False by done.
      destruct (ExpiresAt c) as [exp|]; [|done].
      destruct (negb (After exp (m_now m))); [done|].
      destruct (_ && _); [done|].
      destruct (resolve_outcome_shape
                  (set_verifier m (m_verifier m)) c) as [[msg Ho]|[Ho|[Ho|Ho]]];
        rewrite Ho; try done.
      split; [done|]. intros [= ->].
      revert Ho. unfold resolve.
      destruct (GetToken _ _) as [[t [e|]] s']; cbn; [done|].
      case_bool_decide; cbn; [done|].
      by destruct (Allow _ _ _) as [[[|] [e|]] l'].
Qed.

(** ** The rate limiter and its window *)

Section limiter_window.
Import Service.

Lemma Is_refl (e : error) : Is e e = true.
Proof. destruct e; cbn; by rewrite bool_decide_eq_true_2. Qed.

(** An error is not the error that it wraps. *)
Lemma wrapError_ne (e : error) (msg : string) : wrapError msg e ≠ e.
Proof.
  revert msg. induction e as [| | |m0|m e IH]; intros msg; try done.
  intros [= _ E]. by apply (IH m).
Qed.

Lemma NewRateLimitWithOptions_window {S : Type} (s : S) (opts : Options) :
  0 < rl_window (NewRateLimitWithOptions s opts).
Proof.
  unfold NewRateLimitWithOptions. cbn. case_bool_decide; [|lia].
  unfold Minute, Second. lia.
Qed.

Lemma Allow_window {S : Type} `{!store S} (rl : RateLimit S) key limit :
  rl_window (Service.Allow rl key limit).2 = rl_window rl.
Proof.
  unfold Service.Allow. destruct (decide (key = "")); [done|].
  case_bool_decide; [done|].
  destruct (Incr _ _ _) as [[cnt [e|]] s]; done.
Qed.

(** The errors of the counter store behind a limiter with a positive
    window are those of the backend. *)
Lemma Incr_backend_error (s s' : CounterStore.Store) key window v e :
  0 < window →
  CounterStore.Incr s key window = ((v, Some e), s') →
  e = Redis.connRefused ∨ e = Redis.wrongType ∨ e = Redis.incrOverflow.
Proof.
  intros Hw. unfold CounterStore.Incr. rewrite bool_decide_eq_false_2 by lia.
  unfold Redis.RunIncrScript, Redis.roundtrip.
  destruct (Redis.faults _) as [|[|] fs]; cbn; [|by intros [= _ <- _]; auto|];
    (destruct (Redis.incrScript _ _ _) as [[a|e0] d] eqn:Hs; [done|];
     intros [= _ <- _];
     unfold Redis.incrScript in Hs;
     destruct (Redis.INCR _ _) as [[n|e1] d1] eqn:Hi;
       [by destruct (bool_decide (n = 1))|];
     injection Hs as <- _; unfold Redis.INCR in Hi;
     destruct (Redis.get _ _) as [[[n|h] dl]|]; [|injection Hi as <- _; auto|done];
     case_bool_decide; [done|injection Hi as <- _; auto]).
Qed.

End limiter_window.

(** X8.  A limiter made by the constructor has a positive window: the
    one of the options when that is positive, one minute otherwise, and
    [Allow] never changes it.  So on the counter store the refusal of a
    window that is not positive never shows: an error of [Allow] for a
    key that is not empty and a positive limit wraps an error of the
    backend. *)
Theorem X8_limiter_window {S : Type} `{!Service.store S}
    (s : S) (cs : CounterStore.Store) (opts : Service.Options)
    (key : string) (limit : Z) :
  let rl := Service.NewRateLimitWithOptions s opts in
  let rlc := Service.NewRateLimitWithOptions cs opts in
  0 < Service.rl_window rl
  ∧ (0 < Service.Window opts → Service.rl_window rl = Service.Window opts)
  ∧ (Service.Window opts ≤ 0 → Service.rl_window rl = Minute)
  ∧ Service.rl_window (Service.NewRateLimit s) = Minute
  ∧ Service.rl_window (Service.Allow rl key limit).2 = Service.rl_window rl
  ∧ (key ≠ "" → 0 < limit →
     ∀ b e, (Service.Allow rlc key limit).1 = (b, Some e) →
       b = false
       ∧ ∃ cause, e = Wrap cause "rate limit: failed to increment counter"
           ∧ (cause = Redis.connRefused ∨ cause = Redis.wrongType
              ∨ cause = Redis.incrOverflow)).
Proof.
  intros rl rlc. split; [apply NewRateLimitWithOptions_window|].
  split; [intros Hw; unfold rl, Service.NewRateLimitWithOptions; cbn;
          by rewrite bool_decide_eq_false_2 by lia|].
  split; [intros Hw; unfold rl, Service.NewRateLimitWithOptions; cbn;
          by rewrite bool_decide_eq_true_2|].
  split; [done|]. split; [apply Allow_window|].
  intros Hk Hl b e.
  destruct (Service.Incr (Service.rl_store rlc) key (Service.rl_window rlc))
    as [[n err] s'] eqn:Hi.
  rewrite (Allow_decides rlc key limit n err s') by done. cbn.
  destruct err as [cause|]; [|done]. intros [= <- <-]. split; [done|].
  exists cause. split; [done|].
  eapply Incr_backend_error; [|exact Hi]. apply NewRateLimitWithOptions_window.
Qed.

(** X9.  For a key that is not empty and a positive limit, [Allow] calls
    [Incr] exactly once, with the key as given and the window of the
    limiter, whatever the outcome. *)
Theorem X9_allow_calls_incr_once
    (rlf : Service.RateLimit Service.fakeStore.t)
    (rlc : Service.RateLimit (Service.countingStore.t Service.fakeStore.t))
    (key : string) (limit : Z) :
  key ≠ "" → 0 < limit →
  Service.fakeStore.lastKey (Service.rl_store (Service.Allow rlf key limit).2) = key
  ∧ Service.fakeStore.lastWindow (Service.rl_store (Service.Allow rlf key limit).2)
    = Service.rl_window rlf
  ∧ Service.countingStore.calls (Service.rl_store (Service.Allow rlc key limit).2)
    = Datatypes.S (Service.countingStore.calls (Service.rl_store rlc)).
Proof.
  intros Hk Hl. unfold Service.Allow.
  rewrite !decide_False by done. rewrite !bool_decide_eq_false_2 by lia.
  unfold Service.Incr, Service.countingStore.counting_store,
    Service.fakeStore.fake_store. cbn.
  destruct (Service.fakeStore.err _) as [e|];
    destruct (Service.fakeStore.err _) as [e'|]; done.
Qed.

(** X10.  When the store fails, [Allow] says no and returns an error that
    wraps the error of the store, which [errors.Is] finds in it, under a
    message of its own that ends with the message of the store. *)
Theorem X10_allow_wraps_store_error {S : Type} `{!Service.store S}
    (rl : Service.RateLimit S) (key : string) (limit n : Z) (root : error) (s : S) :
  key ≠ "" → 0 < limit →
  Service.Incr (Service.rl_store rl) key (Service.rl_window rl) = ((n, Some root), s) →
  ∃ err, (Service.Allow rl key limit).1 = (false, Some err)
    ∧ Is err root = true
    ∧ err ≠ root
    ∧ Error err = "rate limit: failed to increment counter: " +:+ Error root.
Proof.
  intros Hk Hl Hi. rewrite (Allow_decides rl key limit n (Some root) s) by done.
  eexists. split; [done|]. split; [|split; [|done]].
  - cbn. rewrite Is_refl. apply orb_true_r.
  - apply wrapError_ne.
Qed.

(** ** Counter keys *)

Section counter_keys.
Import CounterStore.

Lemma pretty_N_char_not_colon x : pretty_N_char x ≠ ":"%char.
Proof. unfold pretty_N_char. by repeat case_match. Qed.

Lemma pretty_N_go_no_colon (x : N) (s : string) :
  (":"%char ∉ bytes s) → ":"%char ∉ bytes (pretty_N_go x s).
Proof.
  revert s. induction (N.lt_wf_0 x) as [x _ IH]; intros s Hs.
  assert (x = 0 ∨ 0 < x)%N as [->|Hx] by lia.
  - by rewrite pretty_N_go_0.
  - rewrite pretty_N_go_step by done. apply IH; [by apply N.div_lt|].
    cbn. rewrite not_elem_of_cons. split; [|done].
    intros E. by apply (pretty_N_char_not_colon (x `mod` 10)%N).
Qed.

Lemma pretty_N_no_colon (x : N) : ":"%char ∉ bytes (pretty x).
Proof.
  unfold pretty, pretty_N. case_decide.
  - cbn. rewrite not_elem_of_cons. split; [done|apply not_elem_of_nil].
  - apply pretty_N_go_no_colon. apply not_elem_of_nil.
Qed.

(** A decimal numeral holds no colon. *)
Lemma Itoa_no_colon (n : Z) : ":"%char ∉ bytes (Itoa n).
Proof.
  unfold Itoa, pretty, pretty_Z. destruct n as [|p|p].
  - cbn. rewrite not_elem_of_cons. split; [done|apply not_elem_of_nil].
  - apply pretty_N_no_colon.
  - rewrite bytes_app. cbn. rewrite not_elem_of_cons. split; [done|].
    apply pretty_N_no_colon.
Qed.

(** The numeral after the last colon tells the key before it. *)
Lemma colon_split (k1 k2 d1 d2 : string) :
  k1 +:+ ":" +:+ d1 = k2 +:+ ":" +:+ d2 →
  (":"%char ∉ bytes d1) → (":"%char ∉ bytes d2) →
  k1 = k2 ∧ d1 = d2.
Proof.
  intros E H1 H2. apply (f_equal bytes) in E. rewrite !bytes_app in E.
  apply (f_equal reverse) in E. rewrite !reverse_app in E. cbn in E.
  change (reverse (bytes ":")) with [":"%char] in E.
  rewrite <- !app_assoc in E. cbn in E.
  assert (Some (reverse (bytes d1), reverse (bytes k1))
          = Some (reverse (bytes d2), reverse (bytes k2))) as Hcut.
  { rewrite <- (cut_app ":" (reverse (bytes d1)) (reverse (bytes k1)))
      by (by rewrite elem_of_reverse).
    rewrite <- (cut_app ":" (reverse (bytes d2)) (reverse (bytes k2)))
      by (by rewrite elem_of_reverse).
    by rewrite E. }
  injection Hcut as Hd Hk.
  split; apply bytes_inj; by apply (inj reverse).
Qed.

Lemma counterKey_inj s1 s2 key1 key2 w1 w2 :
  s_prefix s1 = s_prefix s2 →
  counterKey s1 key1 w1 = counterKey s2 key2 w2 →
  key1 = key2
  ∧ Unix (windowStart (s_now s1) w1) = Unix (windowStart (s_now s2) w2).
Proof.
  intros Hp. unfold counterKey. rewrite Hp. intros E.
  apply String.app_inj in E.
  apply colon_split in E as [-> Hd]; [|apply Itoa_no_colon..].
  split; [done|]. by apply pretty_Z_inj in Hd.
Qed.

End counter_keys.

(** X11.  Under one prefix, the counter keys of two different API keys
    are never the same, whatever the clocks and the windows; so a call of
    [Incr] for one key leaves the counters of every other key, in every
    window, as they were. *)
Theorem X11_counters_do_not_share (s s' s2 : CounterStore.Store)
    (key key2 : string) (window window2 : Duration) (v : Z) :
  CounterStore.s_prefix s = CounterStore.s_prefix s2 →
  key ≠ key2 →
  CounterStore.counterKey s key window ≠ CounterStore.counterKey s2 key2 window2
  ∧ (0 < window →
     CounterStore.Incr s key window = ((v, None), s') →
     Redis.db (CounterStore.s_rdcl s') !! CounterStore.counterKey s2 key2 window2
     = Redis.db (CounterStore.s_rdcl s) !! CounterStore.counterKey s2 key2 window2).
Proof.
  intros Hp Hne.
  assert (CounterStore.counterKey s key window
          ≠ CounterStore.counterKey s2 key2 window2) as Hk.
  { intros E. by apply counterKey_inj in E as [? _]. }
  split; [done|]. intros Hw Hi.
  destruct (Incr_leaves s s' key window v Hw Hi) as (_ & _ & Hd & _).
  rewrite Hd. by rewrite lookup_insert_ne.
Qed.

(** Two API keys in the same minute. *)
Lemma X11_counters_do_not_share_witness :
  CounterStore.counterKey Fixtures.counterStore "k" Minute
  ≠ CounterStore.counterKey Fixtures.counterStore "k2" Minute.
Proof.
  by destruct (X11_counters_do_not_share Fixtures.counterStore
                 Fixtures.counterStore Fixtures.counterStore "k" "k2"
                 Minute Minute 1 eq_refl ltac:(done)) as [Hne _].
Defined.

(** ** The window that is counted *)

Section counted_window.
Import CounterStore.

Lemma windowStart_whole t sec :
  0 < sec → 0 ≤ t →
  windowStart t (sec * Second) = ofUnix (Unix t `div` sec * sec).
Proof.
  intros Hsec Ht. unfold windowStart. rewrite SecondsInt64_whole.
  rewrite bool_decide_eq_false_2 by lia.
  rewrite Z.quot_div_nonneg; [done| |done].
  unfold Unix. apply Z.div_pos; lia.
Qed.

Lemma windowStart_bounds t sec :
  0 < sec → 0 ≤ t →
  0 ≤ windowStart t (sec * Second)
  ∧ windowStart t (sec * Second) ≤ t < windowStart t (sec * Second) + sec * Second.
Proof.
  intros Hsec Ht. rewrite windowStart_whole by done. unfold ofUnix, Unix, Second.
  assert (0 ≤ t `div` 1000000000) as Hu by (apply Z.div_pos; lia).
  pose proof (Z.mul_div_le (t `div` 1000000000) sec Hsec) as Hlo.
  pose proof (Z.mul_succ_div_gt (t `div` 1000000000) sec Hsec) as Hhi.
  assert (0 ≤ (t `div` 1000000000) `div` sec) as Hq by (apply Z.div_pos; lia).
  set (q := (t `div` 1000000000) `div` sec) in *.
  pose proof (Z.mul_div_le t 1000000000 ltac:(lia)) as Hlo'.
  pose proof (Z.mul_succ_div_gt t 1000000000 ltac:(lia)) as Hhi'.
  set (u := t `div` 1000000000) in *. nia.
Qed.

Lemma windowStart_within t t' sec :
  0 < sec → 0 ≤ t →
  windowStart t (sec * Second) ≤ t' < windowStart t (sec * Second) + sec * Second →
  windowStart t' (sec * Second) = windowStart t (sec * Second).
Proof.
  intros Hsec Ht Ht'.
  destruct (windowStart_bounds t sec Hsec Ht) as (Hws & _).
  assert (0 ≤ t') as Ht0 by lia.
  rewrite windowStart_whole in Ht', Hws by done.
  rewrite !windowStart_whole by done. f_equal. f_equal.
  unfold ofUnix, Unix, Second in *.
  assert (0 ≤ t `div` 1000000000) as Hu by (apply Z.div_pos; lia).
  set (q := (t `div` 1000000000) `div` sec) in *.
  symmetry. apply (Z.div_unique_pos _ _ _ (t' `div` 1000000000 - sec * q)); [|lia].
  pose proof (Z.mul_div_le t' 1000000000 ltac:(lia)) as Hlo'.
  pose proof (Z.mul_succ_div_gt t' 1000000000 ltac:(lia)) as Hhi'.
  set (u' := t' `div` 1000000000) in *. nia.
Qed.

End counted_window.

(** X12.  For a positive window that is a whole number of seconds or
    shorter than 2^24 seconds, where the conversion of the code to whole
    seconds is exact, the window that is counted is the configured window
    rounded down to whole seconds, and one second when the configured
    window is shorter than that: the counter key of a call is the key it
    would have with that window. *)
Theorem X12_counted_window_is_whole_seconds (s : CounterStore.Store)
    (key : string) (window : Duration) :
  0 < window → exactSeconds window →
  CounterStore.counterKey s key window
  = CounterStore.counterKey s key (Z.max 1 (window `quot` Second) * Second).
Proof.
  intros Hw _. unfold CounterStore.counterKey. do 4 f_equal.
  unfold CounterStore.windowStart. rewrite SecondsInt64_whole.
  unfold SecondsInt64, Second.
  assert (0 ≤ window `quot` 1000000000) by (apply Z.quot_pos; lia).
  rewrite (bool_decide_eq_false_2 (Z.max _ _ ≤ 0)) by lia.
  case_bool_decide as Hs.
  - assert (window `quot` 1000000000 = 0) as -> by lia.
    rewrite Unix_ofUnix. change (Z.max 1 0) with 1.
    by rewrite Z.quot_1_r, Z.mul_1_r.
  - by rewrite Z.max_r by lia.
Qed.

(** A window of half a second is counted as a window of one second. *)
Lemma X12_counted_window_is_whole_seconds_witness :
  CounterStore.counterKey Fixtures.counterStore "k" 500000000
  = CounterStore.counterKey Fixtures.counterStore "k" Second.
Proof.
  apply (X12_counted_window_is_whole_seconds Fixtures.counterStore "k" 500000000);
    [lia | right; by vm_compute].
Defined.

(** X13.  For a window of a positive whole number of seconds and a clock
    not before the epoch, the start of the window is a multiple of the
    window, not before the epoch and not after the clock, which is less
    than one window past it; and the instants with that same window start
    are exactly those from the start up to, not including, the start of
    the next window. *)
Theorem X13_window_geometry (t t' : Time) (sec : Z) :
  0 < sec → 0 ≤ t →
  let window := sec * Second in
  let ws := CounterStore.windowStart t window in
  0 ≤ ws ∧ ws ≤ t < ws + window
  ∧ ws `mod` window = 0
  ∧ (ws ≤ t' < ws + window ↔ 0 ≤ t' ∧ CounterStore.windowStart t' window = ws).
Proof.
  intros Hsec Ht window ws. subst ws window.
  destruct (windowStart_bounds t sec Hsec Ht) as (Hws & Hb).
  split; [done|]. split; [done|]. split.
  - rewrite windowStart_whole by done. unfold ofUnix, Second.
    apply Z.mod_divide; [lia|].
    exists (Unix t `div` sec). ring.
  - split.
    + intros Ht'. split; [lia|]. by apply windowStart_within.
    + intros [Ht0 E]. rewrite <- E.
      by destruct (windowStart_bounds t' sec Hsec Ht0) as (_ & ?).
Qed.

(** The minute of the fixtures. *)
Lemma X13_window_geometry_witness :
  CounterStore.windowStart Fixtures.now Minute ≤ Fixtures.now + 59 * Second
  < CounterStore.windowStart Fixtures.now Minute + Minute.
Proof.
  destruct (X13_window_geometry (Fixtures.now + 59 * Second)
              (Fixtures.now + 59 * Second) 60) as (_ & Hb & _);
    [lia | by vm_compute |].
  exact Hb.
Defined.

(** ** From one window to the next *)

Section rollover.
Import CounterStore Service Run Rollover.
Implicit Types (rl : RateLimit Store) (key k : string) (ts : list Time).

Lemma serve_app ts1 : ∀ rl key limit ts2,
  serve rl key limit (ts1 ++ ts2)
  = serve rl key limit ts1 ++ serve (served rl key limit ts1) key limit ts2.
Proof.
  induction ts1 as [|t ts1 IH]; intros rl key limit ts2; [done|].
  cbn [app serve served].
  destruct (Service.Allow _ key limit) as [res rl']. cbn. by rewrite IH.
Qed.

Lemma same_but_refl k rl : same_but k rl rl.
Proof. by repeat split. Qed.

Lemma same_but_stepped k rl rl' t e :
  Redis.faults (s_rdcl (rl_store rl)) = [] →
  same_but k {| rl_store := stepped (rl_store rl) t k e; rl_window := rl_window rl |} rl' →
  same_but k rl rl'.
Proof.
  intros Hf (Hw & Hp & Hfl & Hdb). split; [done|]. split; [done|].
  split; [by rewrite Hfl, Hf|]. intros k' Hk'. rewrite Hdb by done. cbn.
  by rewrite lookup_insert_ne.
Qed.

Lemma served_counting ts : ∀ rl key limit k j d,
  key ≠ "" → 0 < limit → 0 < rl_window rl →
  Redis.faults (s_rdcl (rl_store rl)) = [] →
  Redis.db (s_rdcl (rl_store rl)) !! k
  = Some (Redis.Entry (Redis.VInt j) (Some d)) →
  1 ≤ j → j + Z.of_nat (length ts) ≤ maxInt64 →
  (∀ t, t ∈ ts →
     counterKey (at_time t (rl_store rl)) key (rl_window rl) = k
     ∧ t `div` 1000000 ≤ d) →
  same_but k rl (served rl key limit ts).
Proof.
  induction ts as [|t ts IH]; intros rl key limit k j d Hkey Hlim Hw Hf Hdb Hj Hmax Hts;
    [apply same_but_refl|].
  destruct (Hts t) as [Hk Hd]; [left|].
  cbn [served length].
  erewrite Allow_decides; [| done | done | ].
  2:{ cbn [rl_store rl_window]. apply Incr_live with (j := j) (d := d);
        [done | done | by rewrite Hk | done | cbn [length] in Hmax; lia]. }
  cbn [snd rl_window]. rewrite Hk.
  eapply same_but_stepped; [done|].
  apply IH with (j := j + 1) (d := d); cbn; try done.
  - by rewrite lookup_insert_eq.
  - lia.
  - cbn [length] in Hmax. lia.
  - intros t' Ht'. destruct (Hts t') as [Hk' Hd']; [by right|].
    split; [|done]. rewrite <- Hk'. by apply counterKey_at_time.
Qed.

Lemma served_window rl key limit k t1 ts :
  key ≠ "" → 0 < limit → 0 < rl_window rl →
  Redis.faults (s_rdcl (rl_store rl)) = [] →
  Z.of_nat (length (t1 :: ts)) ≤ maxInt64 →
  (∀ t, t ∈ t1 :: ts →
     0 ≤ t ∧ counterKey (at_time t (rl_store rl)) key (rl_window rl) = k) →
  Redis.get (s_rdcl (at_time t1 (rl_store rl))) k = None →
  same_but k rl (served rl key limit (t1 :: ts)).
Proof.
  intros Hkey Hlim Hw Hf Hmax Hts Hg.
  destruct (Hts t1) as [Ht1 Hk1]; [left|].
  cbn [served length].
  erewrite Allow_decides; [| done | done | ].
  2:{ cbn [rl_store rl_window]. apply Incr_fresh; [done | done | by rewrite Hk1]. }
  cbn [snd rl_window]. rewrite Hk1.
  eapply same_but_stepped; [done|].
  apply served_counting
    with (j := 1) (d := t1 `div` 1000000 + (Milliseconds (rl_window rl) + 1000));
    cbn; try done.
  - by rewrite lookup_insert_eq.
  - cbn [length] in Hmax. lia.
  - intros t Ht. destruct (Hts t) as [Ht0 Hk]; [by right|]. split.
    + rewrite <- Hk. by apply counterKey_at_time.
    + apply window_span; try done.
      apply (counterKey_eq_iff (at_time t1 (rl_store rl)) (at_time t (rl_store rl))
               key (rl_window rl)); [done|]. by rewrite Hk1, Hk.
Qed.

End rollover.

(** X14.  The count starts again with each window: of requests for one
    key, first some in one window and then some in another, both windows
    starting without a counter, the first [limit] of each window are
    allowed and the rest of that window denied, so that up to twice the
    limit pass in a row across the boundary.  (Reachable backend, one
    clock not before the epoch, a window whose whole seconds the code
    computes exactly.) *)
Theorem X14_count_restarts_per_window
    (rl : Service.RateLimit CounterStore.Store) (key k1 k2 : string) (limit : Z)
    (t1 t2 : Time) (ts1 ts2 : list Time) :
  key ≠ "" → 0 < limit → 0 < Service.rl_window rl →
  exactSeconds (Service.rl_window rl) →
  Redis.faults (CounterStore.s_rdcl (Service.rl_store rl)) = [] →
  Z.of_nat (length (t1 :: ts1)) ≤ maxInt64 →
  Z.of_nat (length (t2 :: ts2)) ≤ maxInt64 →
  Forall (λ t, 0 ≤ t
               ∧ CounterStore.counterKey (Run.at_time t (Service.rl_store rl))
                   key (Service.rl_window rl) = k1) (t1 :: ts1) →
  Forall (λ t, 0 ≤ t
               ∧ CounterStore.counterKey (Run.at_time t (Service.rl_store rl))
                   key (Service.rl_window rl) = k2) (t2 :: ts2) →
  k1 ≠ k2 →
  Redis.get (CounterStore.s_rdcl (Run.at_time t1 (Service.rl_store rl))) k1 = None →
  Redis.db (CounterStore.s_rdcl (Service.rl_store rl)) !! k2 = None →
  Run.serve rl key limit ((t1 :: ts1) ++ (t2 :: ts2))
  = Run.verdicts 0 (length (t1 :: ts1)) limit
    ++ Run.verdicts 0 (length (t2 :: ts2)) limit.
Proof.
  intros Hkey Hlim Hw _ Hf Hm1 Hm2 Hts1 Hts2 Hne Hg1 Hg2.
  rewrite serve_app.
  rewrite (serve_window rl key limit k1 t1 ts1); try done;
    [|intros t Ht; by apply (proj1 (Forall_forall _ _) Hts1)].
  f_equal.
  destruct (served_window rl key limit k1 t1 ts1) as (Hw' & Hp' & Hf' & Hdb');
    try done; [intros t Ht; by apply (proj1 (Forall_forall _ _) Hts1)|].
  apply (serve_window _ key limit k2 t2 ts2); try done.
  - by rewrite Hw'.
  - by rewrite Hf'.
  - intros t Ht. destruct (proj1 (Forall_forall _ _) Hts2 t Ht) as [Ht0 Hk].
    split; [done|]. rewrite Hw', <- Hk. by apply counterKey_at_time.
  - unfold Redis.get, Run.at_time. cbn [CounterStore.s_rdcl Redis.db Redis.clock].
    rewrite (Hdb' k2) by done. by rewrite Hg2.
Qed.

(** Two requests at the end of a minute and two at the start of the next,
    with a limit of two: all four are allowed. *)
Lemma X14_count_restarts_per_window_witness :
  Run.serve Fixtures.rateLimit "k" 2
    [Fixtures.now + 58 * Second; Fixtures.now + 59 * Second;
     Fixtures.now + 60 * Second; Fixtures.now + 61 * Second]
  = [(true, None); (true, None); (true, None); (true, None)].
Proof.
  apply (X14_count_restarts_per_window Fixtures.rateLimit "k"
           "rate_count:k:1770552000" "rate_count:k:1770552060" 2
           (Fixtures.now + 58 * Second) (Fixtures.now + 60 * Second)
           [Fixtures.now + 59 * Second] [Fixtures.now + 61 * Second]);
    [done | lia | by vm_compute | by left; vm_compute | reflexivity
    | by vm_compute | by vm_compute
    | repeat constructor; by vm_compute | repeat constructor; by vm_compute
    | done | reflexivity | reflexivity].
Defined.

(** ** Numerals written and read back *)

Section numerals.

Lemma digit_pretty_N_char (d : N) :
  (d < 10)%N → digit (pretty_N_char d) = Some (Z.of_N d).
Proof.
  intros Hd.
  assert (d = 0 ∨ d = 1 ∨ d = 2 ∨ d = 3 ∨ d = 4 ∨ d = 5 ∨ d = 6 ∨ d = 7
          ∨ d = 8 ∨ d = 9)%N as Hcases by lia.
  repeat (destruct Hcases as [->|Hcases]; [by vm_compute|]). by subst.
Qed.

(** The digits that are written for [x] in front of [s] read as [x]. *)
Lemma digits_pretty_N_go (x : N) : ∀ (s : string),
  digits 0 (bytes (pretty_N_go x s)) = digits (Z.of_N x) (bytes s).
Proof.
  induction (N.lt_wf_0 x) as [x _ IH]; intros s.
  assert (x = 0 ∨ 0 < x)%N as [->|Hx] by lia.
  - by rewrite pretty_N_go_0.
  - rewrite pretty_N_go_step by done.
    rewrite (IH (x `div` 10)%N) by (by apply N.div_lt).
    cbn [bytes String.list_ascii_of_string digits].
    change (String.list_ascii_of_string s) with (bytes s).
    rewrite digit_pretty_N_char by (by apply N.mod_lt). cbn.
    f_equal. rewrite (N.div_mod x 10) at 3 by done. lia.
Qed.

Lemma digits_first acc c l n :
  digits acc (c :: l) = Some n → c ≠ "-"%char ∧ c ≠ "+"%char.
Proof.
  cbn. destruct (digit c) as [d|] eqn:Hd; [|done]. intros _.
  unfold digit in Hd. case_bool_decide as Hc; [|done].
  split; intros ->; vm_compute in Hc; lia.
Qed.

(** [Atoi] reads back what [Itoa] writes of a positive [int]. *)
Lemma Atoi_Itoa (n : Z) : 0 < n ≤ maxInt64 → Atoi (Itoa n) = Some n.
Proof.
  intros Hn. destruct n as [|p|p]; [lia| |lia].
  unfold Itoa, pretty, pretty_Z, pretty, pretty_positive, pretty, pretty_N.
  rewrite decide_False by done.
  pose proof (digits_pretty_N_go (N.pos p) "") as Hd.
  cbn [bytes String.list_ascii_of_string digits] in Hd.
  change (Z.of_N (N.pos p)) with (Z.pos p) in Hd.
  unfold Atoi. destruct (bytes (pretty_N_go (N.pos p) "")) as [|c l] eqn:Hl.
  { by cbn in Hd. }
  destruct (digits_first 0 c l (Z.pos p) Hd) as [Hm Hpl].
  rewrite !decide_False by done. rewrite Hd. cbn.
  rewrite bool_decide_eq_true_2; [done|]. unfold minInt64. lia.
Qed.

End numerals.

(** ** Writing token records *)

Section upsert.
Import TokenStore TokenWrite.
Context `{Formatter}.
Implicit Types (s : Store) (t : Token).

(** What a call of [Upsert] that succeeds has checked and done. *)
Lemma Upsert_ok s t s' :
  Upsert s t = (None, s') →
  APIKey t ≠ "" ∧ 0 < RateLimit t ∧ ExpiresAt t ≠ zeroTime
  ∧ s_now s < ExpiresAt t
  ∧ ∃ ar n, json_Marshal_strings (AllowedRoutes t) = Some ar
      ∧ RedisTx.ExecHSetExpireAt (s_rdcl s) (key s (APIKey t)) (fields t ar)
          (Unix (ExpiresAt t)) = (Redis.Ok n, s_rdcl s')
      ∧ s_prefix s' = s_prefix s ∧ s_now s' = s_now s.
Proof.
  unfold Upsert. destruct (decide (APIKey t = "")); [done|].
  case_bool_decide as Hrl; [done|].
  destruct (decide (ExpiresAt t = zeroTime)); [done|].
  unfold After. case_bool_decide as Hnow; cbn; [|done].
  destruct (json_Marshal_strings _) as [ar|]; [|done].
  destruct (RedisTx.ExecHSetExpireAt _ _ _ _) as [[cnt|e] c] eqn:Hx; [|done].
  intros [= <-]. split_and!; try done; [lia|]. by exists ar, cnt.
Qed.

(** A token that [Upsert] refuses leaves the store as it was. *)
Lemma Upsert_refused s t :
  APIKey t = "" ∨ RateLimit t ≤ 0 ∨ ExpiresAt t = zeroTime
  ∨ ExpiresAt t ≤ s_now s →
  ∃ e, Upsert s t = (Some e, s) ∧ (Is e ErrInvalid = true ∨ e = ErrExpired).
Proof.
  intros Hbad. unfold Upsert.
  destruct (decide (APIKey t = "")); [by eauto|].
  case_bool_decide as Hrl; [by eauto|].
  destruct (decide (ExpiresAt t = zeroTime)); [by eauto|].
  unfold After. case_bool_decide as Hnow; cbn; [|by eauto].
  destruct Hbad as [?|[?|[?|?]]]; try done; lia.
Qed.

End upsert.

(** X15.  [Upsert] refuses a token without API key, with a rate limit
    that is not positive, without expiry or with an expiry that is not
    strictly after now, with an error of the Invalid or Expired kind, and
    then sends nothing to the backend: the store is as before.  A token
    it accepts has an API key, a positive rate limit and an expiry
    strictly after now. *)
Theorem X15_upsert_validates `{TokenWrite.Formatter}
    (s s' : TokenStore.Store) (t : TokenStore.Token) :
  (TokenStore.APIKey t = "" ∨ TokenStore.RateLimit t ≤ 0
   ∨ TokenStore.ExpiresAt t = TokenStore.zeroTime
   ∨ TokenStore.ExpiresAt t ≤ TokenStore.s_now s →
   ∃ e, TokenWrite.Upsert s t = (Some e, s)
     ∧ (Is e ErrInvalid = true ∨ e = ErrExpired))
  ∧ (TokenWrite.Upsert s t = (None, s') →
     TokenStore.APIKey t ≠ "" ∧ 0 < TokenStore.RateLimit t
     ∧ TokenStore.s_now s < TokenStore.ExpiresAt t).
Proof.
  split; [apply Upsert_refused|].
  intros Hu. by apply Upsert_ok in Hu as (? & ? & _ & ? & _).
Qed.

Section round_trip.
Import TokenStore TokenWrite.
Context `{Runtime} `{Formatter}.
Implicit Types (s : Store) (t : Token) (c : Redis.client).

(** The transaction, when it succeeds before the expiry second: the hash
    under the key holds the fields written, over those it had, and its
    deadline is the expiry second. *)
Lemma hsetExpireAt_ok c k f sec n d :
  RedisTx.hsetExpireAt k f sec c = (Redis.Ok n, d) →
  Redis.clock c < sec * 1000 →
  ∃ h0, d = <[k := Redis.Entry (Redis.VHash (f ∪ h0)) (Some (sec * 1000))]> (Redis.db c).
Proof.
  intros Hx Hc. unfold RedisTx.hsetExpireAt, RedisTx.HSET in Hx.
  destruct (Redis.get c k) as [[[cnt|h] dl]|] eqn:Hg.
  - by destruct (RedisTx.EXPIREAT _ _ _).
  - unfold RedisTx.EXPIREAT in Hx. rewrite get_set_db_insert in Hx.
    + rewrite bool_decide_eq_true_2 in Hx by done. injection Hx as _ <-.
      exists h. cbn. by rewrite insert_insert_eq.
    + unfold Redis.get in Hg. destruct (Redis.db c !! k) as [e|]; [|done].
      cbn in Hg. destruct (Redis.live (Redis.clock c) e) eqn:Hl; [|done].
      by injection Hg as ->.
  - unfold RedisTx.EXPIREAT in Hx. rewrite get_set_db_insert in Hx by done.
    rewrite bool_decide_eq_true_2 in Hx by done. injection Hx as _ <-.
    exists ∅. cbn. by rewrite insert_insert_eq, (right_id_L ∅ (∪)).
Qed.

Lemma fields_lookup t ar h0 :
  field (fields t ar ∪ h0) "api_key" = APIKey t
  ∧ field (fields t ar ∪ h0) "rate_limit" = Itoa (RateLimit t)
  ∧ field (fields t ar ∪ h0) "expires_at" = time_Format_RFC3339 (ExpiresAt t)
  ∧ field (fields t ar ∪ h0) "allowed_routes" = ar.
Proof.
  unfold field, fields. cbn [list_to_map foldr fst snd].
  split_and!; (erewrite lookup_union_Some_l; [done|]); by simplify_map_eq.
Qed.

Lemma Itoa_nonempty n : Itoa n ≠ "".
Proof.
  intros E. destruct n as [|p|p]; [done| |done].
  unfold Itoa, pretty, pretty_Z, pretty, pretty_positive, pretty, pretty_N in E.
  rewrite decide_False in E by done.
  pose proof (digits_pretty_N_go (N.pos p) "") as Hd. rewrite E in Hd. done.
Qed.

(** The record that [Upsert] has written decodes to the token, with the
    expiry cut to whole seconds. *)
Lemma decodeToken_fields t ar h0 :
  APIKey t ≠ "" → 0 < RateLimit t ≤ maxInt64 →
  time_Format_RFC3339 (ExpiresAt t) ≠ "" →
  time_Parse_RFC3339 (time_Format_RFC3339 (ExpiresAt t))
  = Some (ofUnix (Unix (ExpiresAt t))) →
  ar ≠ "" → json_Unmarshal_strings ar = Some (AllowedRoutes t) →
  decodeToken (APIKey t) (fields t ar ∪ h0)
  = ({| APIKey := APIKey t; RateLimit := RateLimit t;
        ExpiresAt := ofUnix (Unix (ExpiresAt t));
        AllowedRoutes := AllowedRoutes t |}, None).
Proof.
  intros Hk Hrl Hf Hp Har Hu. unfold decodeToken.
  destruct (fields_lookup t ar h0) as (-> & -> & -> & ->).
  rewrite (decide_False (P := Itoa _ = "")) by apply Itoa_nonempty.
  rewrite Atoi_Itoa by done. rewrite bool_decide_eq_false_2 by lia.
  rewrite (decide_False (P := time_Format_RFC3339 _ = "")) by done.
  rewrite Hp. rewrite (decide_False (P := ar = "")) by done. rewrite Hu.
  by rewrite decide_False by done.
Qed.

End round_trip.

(** X16.  A token written by [Upsert] is read back by [GetToken]: the
    same API key, rate limit and routes, and the expiry cut to whole
    seconds, as the timestamp format has it; and the backend holds the
    record with a deadline at that expiry second.  (The timestamp and the
    routes, as written, are read back by the library; the rate limit fits
    an [int]; the server clock is before the expiry second, which is
    still after now; the read reaches the server.) *)
Theorem X16_upsert_then_get `{Runtime} `{TokenWrite.Formatter}
    (s s' : TokenStore.Store) (t : TokenStore.Token) (ar : string) :
  TokenWrite.Upsert s t = (None, s') →
  TokenStore.RateLimit t ≤ maxInt64 →
  TokenWrite.json_Marshal_strings (TokenStore.AllowedRoutes t) = Some ar →
  ar ≠ "" →
  json_Unmarshal_strings ar = Some (TokenStore.AllowedRoutes t) →
  TokenWrite.time_Format_RFC3339 (TokenStore.ExpiresAt t) ≠ "" →
  time_Parse_RFC3339 (TokenWrite.time_Format_RFC3339 (TokenStore.ExpiresAt t))
  = Some (ofUnix (Unix (TokenStore.ExpiresAt t))) →
  Redis.clock (TokenStore.s_rdcl s) < Unix (TokenStore.ExpiresAt t) * 1000 →
  Redis.reachable (TokenStore.s_rdcl s') = true →
  TokenStore.s_now s < ofUnix (Unix (TokenStore.ExpiresAt t)) →
  (TokenStore.GetToken s' (TokenStore.APIKey t)).1
  = ({| TokenStore.APIKey := TokenStore.APIKey t;
        TokenStore.RateLimit := TokenStore.RateLimit t;
        TokenStore.ExpiresAt := ofUnix (Unix (TokenStore.ExpiresAt t));
        TokenStore.AllowedRoutes := TokenStore.AllowedRoutes t |}, None)
  ∧ Redis.expiry (TokenStore.s_rdcl s') (TokenStore.key s (TokenStore.APIKey t))
    = Some (Unix (TokenStore.ExpiresAt t) * 1000).
Proof.
  intros Hu Hmax Hm Har Hun Hf Hp Hclock Hreach Hnow.
  apply Upsert_ok in Hu
    as (Hk & Hrl & _ & _ & ar' & cnt & Hm' & Hx & Hpre & Hnow').
  rewrite Hm in Hm'. injection Hm' as <-.
  unfold RedisTx.ExecHSetExpireAt in Hx.
  apply roundtrip_ok in Hx as (Hx & Hc' & _ & _).
  apply hsetExpireAt_ok in Hx as [h0 Hd]; [|done].
  set (k := TokenStore.key s (TokenStore.APIKey t)) in *.
  set (e := Redis.Entry (Redis.VHash (TokenWrite.fields t ar ∪ h0))
              (Some (Unix (TokenStore.ExpiresAt t) * 1000))) in *.
  assert (Redis.get (TokenStore.s_rdcl s') k = Some e) as Hget.
  { unfold Redis.get. rewrite Hd, lookup_insert_eq. cbn.
    unfold Redis.live, e. cbn. by rewrite Hc', bool_decide_eq_true_2 by lia. }
  split; [|unfold Redis.expiry; by rewrite Hget].
  unfold TokenStore.GetToken. rewrite decide_False by done.
  assert (TokenStore.key s' (TokenStore.APIKey t) = k) as ->
    by (unfold k, TokenStore.key; by rewrite Hpre).
  unfold Redis.HGetAll. rewrite roundtrip_next by done.
  unfold Redis.HGETALL. rewrite Hget. cbn [fst snd e].
  rewrite bool_decide_eq_false_2.
  2:{ rewrite map_size_empty_iff. intros Hempty.
      destruct (fields_lookup t ar h0) as (Hapi & _).
      unfold TokenStore.field in Hapi. rewrite Hempty, lookup_empty in Hapi.
      cbn in Hapi. congruence. }
  rewrite decodeToken_fields by (done || lia).
  unfold After. cbn [TokenStore.ExpiresAt]. rewrite Hnow'.
  by rewrite bool_decide_eq_true_2.
Qed.

(** The token of the examples, written to the backend of the fixtures
    and read back. *)
Lemma X16_upsert_then_get_witness :
  (@TokenStore.GetToken UTC.runtime
     (@TokenWrite.Upsert UTCFormat.formatter Fixtures.tokenStore Examples.token3).2
     "k3").1
  = (Examples.token3, None).
Proof.
  destruct (@X16_upsert_then_get UTC.runtime UTCFormat.formatter
              Fixtures.tokenStore
              (@TokenWrite.Upsert UTCFormat.formatter Fixtures.tokenStore
                 Examples.token3).2
              Examples.token3 "[]") as [Hget _];
    [by vm_compute | by vm_compute | reflexivity | done | reflexivity
    | by vm_compute | by vm_compute | by vm_compute | reflexivity
    | by vm_compute |].
  exact Hget.
Defined.

(** A token without API key. *)
Lemma X15_upsert_validates_witness :
  ∃ e, @TokenWrite.Upsert UTCFormat.formatter Fixtures.tokenStore
         TokenStore.zeroToken = (Some e, Fixtures.tokenStore).
Proof.
  destruct (@X15_upsert_validates UTCFormat.formatter Fixtures.tokenStore
              Fixtures.tokenStore TokenStore.zeroToken) as [Hbad _].
  destruct Hbad as (e & He & _); [by left|]. by exists e.
Defined.

(** ** Witnesses for the pipeline and the limiter *)

(** The request of the success test is handed on. *)
Lemma X3_accepted_iff_witness :
  (Handler Examples.mwSuccess Examples.reqGood).1 = next Examples.claimsOk.
Proof.
  apply (X3_accepted_iff Examples.mwSuccess Examples.reqGood Examples.claimsOk).
  exists "good.jwt.token", (Fixtures.tokenWithLimit 7).
  split; [|split; reflexivity].
  split; [reflexivity|]. split; [reflexivity|].
  split; [|split; [reflexivity|done]].
  split; [done|].
  split; [eexists; split; [reflexivity|by vm_compute]|right; by vm_compute].
Defined.

(** The request of the 429 test. *)
Lemma X4_limiter_verdicts_witness :
  (Handler Examples.mwTooManyRequests Examples.reqGood).1
  = httpError "Too Many Requests" 429.
Proof.
  destruct (X4_limiter_verdicts Examples.mwTooManyRequests Examples.reqGood)
    as [[_ H429] _].
  apply H429.
  exists "good.jwt.token", Examples.claimsOk, (Fixtures.tokenWithLimit 5).
  split; [|reflexivity].
  split; [reflexivity|]. split; [reflexivity|].
  split; [|split; [reflexivity|done]].
  split; [done|].
  split; [eexists; split; [reflexivity|by vm_compute]|right; by vm_compute].
Defined.

(** The request of the 403 test. *)
Lemma X5_forbidden_iff_witness :
  (Handler Examples.mwPathNotAllowed Examples.reqProducts).1
  = httpError "Forbidden" 403.
Proof.
  apply (X5_forbidden_iff Examples.mwPathNotAllowed Examples.reqProducts).
  exists "token",
    (Fixtures.newClaims "k1" (Fixtures.now + Fixtures.Hour) ["/api/v1/users/*"]),
    (Fixtures.now + Fixtures.Hour).
  split; [reflexivity|]. split; [reflexivity|]. split; [done|].
  split; [reflexivity|]. split; [by vm_compute|]. split; [done|by vm_compute].
Defined.

(** A verifier without key. *)
Lemma X7_jwt_verifier_witness :
  ∃ e, @JWT.Parse string Examples.parser Examples.verifierNoKey "good.jwt.token"
       = (None, Some e).
Proof.
  destruct (@X7_jwt_verifier string fakeTokenStore.t fakeLimiter.t
              Examples.parser _ _ Examples.verifierNoKey "good.jwt.token")
    as (_ & _ & Hcfg & _).
  apply (Hcfg (or_introl eq_refl) Examples.parser).
Defined.

(** No window in the options: one minute. *)
Lemma X8_limiter_window_witness :
  Service.rl_window
    (Service.NewRateLimitWithOptions Fixtures.counterStore {| Service.Window := 0 |})
  = Minute.
Proof.
  destruct (X8_limiter_window Fixtures.counterStore Fixtures.counterStore
              {| Service.Window := 0 |} "k" 5) as (_ & _ & Hmin & _).
  apply Hmin. cbn. lia.
Defined.

(** The limiter of the tests, asked once. *)
Lemma X9_allow_calls_incr_once_witness :
  Service.fakeStore.lastKey
    (Service.rl_store (Service.Allow Fixtures.rateLimitFake "k" 5).2) = "k"
  ∧ Service.countingStore.calls
      (Service.rl_store (Service.Allow Fixtures.rateLimitCounting "k" 5).2) = 1%nat.
Proof.
  destruct (X9_allow_calls_incr_once Fixtures.rateLimitFake
              Fixtures.rateLimitCounting "k" 5) as (Hk & _ & Hc); [done|lia|].
  split; [exact Hk|exact Hc].
Defined.

(** The store of the tests that fails with boom. *)
Lemma X10_allow_wraps_store_error_witness :
  ∃ err, (Service.Allow Examples.rateLimitBoom "k" 10).1 = (false, Some err)
    ∧ Is err (errorString "boom") = true.
Proof.
  destruct (X10_allow_wraps_store_error Examples.rateLimitBoom "k" 10 0
              (errorString "boom")
              (Service.Incr (Service.rl_store Examples.rateLimitBoom) "k"
                 (Service.rl_window Examples.rateLimitBoom)).2)
    as (err & Ha & His & _); [done|lia|reflexivity|].
  exists err. by split.
Defined.

(** ** Reading and deleting token records *)

Section token_reads.
Import TokenStore.
Context `{Runtime}.
Implicit Types (s : Store) (apiKey : string) (c : Redis.client).

(** A round trip changes the keyspace as the command does, or not at
    all. *)
Lemma roundtrip_db {A} c (cmd : Redis.client → Redis.reply A * gmap string Redis.entry) :
  Redis.db (Redis.roundtrip c cmd).2 = (cmd c).2
  ∨ Redis.db (Redis.roundtrip c cmd).2 = Redis.db c.
Proof.
  unfold Redis.roundtrip. destruct (Redis.faults c) as [|[|] fs]; cbn; auto;
    destruct (cmd c); cbn; auto.
Qed.

Lemma HGetAll_db c k : Redis.db (Redis.HGetAll c k).2 = Redis.db c.
Proof.
  unfold Redis.HGetAll.
  destruct (roundtrip_db c (Redis.HGETALL k)) as [-> | ->]; [|done].
  unfold Redis.HGETALL. by destruct (Redis.get c k) as [[[cnt|h] dl]|].
Qed.

Lemma Del_db c k :
  Redis.db (Redis.Del c k).2 = delete k (Redis.db c)
  ∨ Redis.db (Redis.Del c k).2 = Redis.db c.
Proof.
  unfold Redis.Del.
  destruct (roundtrip_db c (Redis.DEL k)) as [-> | ->]; [left|by right].
  unfold Redis.DEL. by destruct (Redis.get c k).
Qed.

Lemma Del_ok c k n c' :
  Redis.Del c k = (Redis.Ok n, c') →
  Redis.db c' = delete k (Redis.db c) ∧ Redis.clock c' = Redis.clock c.
Proof.
  unfold Redis.Del. intros Hr. apply roundtrip_ok in Hr as (Hd & Hc & _).
  split; [|done]. unfold Redis.DEL in Hd.
  destruct (Redis.get c k); by injection Hd as _ <-.
Qed.

(** The API key of a decoded record: the stored one, or the requested
    one when none is stored. *)
Lemma decodeToken_key apiKey m t :
  decodeToken apiKey m = (t, None) →
  APIKey t = (if decide (field m "api_key" = "") then apiKey else field m "api_key").
Proof.
  unfold decodeToken.
  destruct (decide (field m "rate_limit" = "")); [done|].
  destruct (Atoi _) as [rl|]; [|done].
  case_bool_decide as Hrl; [done|].
  destruct (decide (field m "expires_at" = "")); [done|].
  destruct (time_Parse_RFC3339 _) as [exp|]; [|done].
  destruct (decide (field m "allowed_routes" = "")).
  - by intros [= <-].
  - destruct (json_Unmarshal_strings _); [|done]. by intros [= <-].
Qed.

Lemma decodeToken_error apiKey m t e :
  decodeToken apiKey m = (t, Some e) → t = zeroToken ∧ Is e ErrInvalid = true.
Proof.
  unfold decodeToken.
  destruct (decide (field m "rate_limit" = "")); [by intros [= <- <-]|].
  destruct (Atoi _) as [rl|]; [|by intros [= <- <-]].
  case_bool_decide as Hrl; [by intros [= <- <-]|].
  destruct (decide (field m "expires_at" = "")); [by intros [= <- <-]|].
  destruct (time_Parse_RFC3339 _) as [exp|]; [|by intros [= <- <-]].
  destruct (decide (field m "allowed_routes" = "")); [done|].
  destruct (json_Unmarshal_strings _); [done|by intros [= <- <-]].
Qed.

(** With no live record under the key, [GetToken] answers NotFound. *)
Lemma GetToken_missing s apiKey :
  apiKey ≠ "" → Redis.reachable (s_rdcl s) = true →
  Redis.get (s_rdcl s) (key s apiKey) = None →
  (GetToken s apiKey).1 = (zeroToken, Some ErrNotFound).
Proof.
  intros Hk Hr Hg. unfold GetToken. rewrite decide_False by done.
  unfold Redis.HGetAll. rewrite roundtrip_next by done.
  unfold Redis.HGETALL. by rewrite Hg.
Qed.

(** What [GetToken] leaves of the store. *)
Lemma GetToken_store s apiKey :
  s_prefix (GetToken s apiKey).2 = s_prefix s
  ∧ s_now (GetToken s apiKey).2 = s_now s
  ∧ (Redis.db (s_rdcl (GetToken s apiKey).2) = Redis.db (s_rdcl s)
     ∨ (GetToken s apiKey).1 = (zeroToken, Some ErrExpired)
       ∧ Redis.db (s_rdcl (GetToken s apiKey).2)
         = delete (key s apiKey) (Redis.db (s_rdcl s))).
Proof.
  unfold GetToken. destruct (decide (apiKey = "")); [by auto|].
  pose proof (HGetAll_db (s_rdcl s) (key s apiKey)) as Hdb.
  destruct (Redis.HGetAll _ _) as [[m|e] c]; cbn in Hdb; [|by auto].
  case_bool_decide; [by auto|].
  destruct (decodeToken apiKey m) as [t [e|]]; [by auto|].
  destruct (After _ _); cbn; [by auto|].
  split; [done|]. split; [done|].
  destruct (Del_db c (key s apiKey)) as [Hd|Hd]; rewrite Hd, Hdb; auto.
Qed.

End token_reads.

(** X17.  A key under which the backend holds no live record, missing or
    past its deadline in the backend, reads as NotFound, and the read
    changes nothing in the keyspace; an empty API key is refused as
    invalid without a command being sent. *)
Theorem X17_get_token_not_found `{Runtime} (s : TokenStore.Store) (apiKey : string) :
  (apiKey ≠ "" → Redis.reachable (TokenStore.s_rdcl s) = true →
   Redis.get (TokenStore.s_rdcl s) (TokenStore.key s apiKey) = None →
   (TokenStore.GetToken s apiKey).1 = (TokenStore.zeroToken, Some ErrNotFound)
   ∧ Redis.db (TokenStore.s_rdcl (TokenStore.GetToken s apiKey).2)
     = Redis.db (TokenStore.s_rdcl s))
  ∧ (∃ e, TokenStore.GetToken s "" = ((TokenStore.zeroToken, Some e), s)
          ∧ Is e ErrInvalid = true).
Proof.
  split.
  - intros Hk Hr Hg. pose proof (GetToken_missing s apiKey Hk Hr Hg) as Hres.
    split; [done|].
    destruct (GetToken_store s apiKey) as (_ & _ & [Hd|[Hx _]]); [done|].
    rewrite Hres in Hx. done.
  - eexists. split; [reflexivity|]. cbn.
    rewrite (bool_decide_eq_true_2 (ErrInvalid = ErrInvalid)) by done.
    apply orb_true_r.
Qed.

(** A key that the backend of the fixtures does not hold. *)
Lemma X17_get_token_not_found_witness :
  (@TokenStore.GetToken UTC.runtime Fixtures.tokenStore "k9").1
  = (TokenStore.zeroToken, Some ErrNotFound).
Proof.
  destruct (@X17_get_token_not_found UTC.runtime Fixtures.tokenStore "k9")
    as [Hmiss _].
  destruct Hmiss as [Hres _]; [done|reflexivity|by vm_compute|]. exact Hres.
Defined.

(** X18.  [Delete] that returns no error has removed the record, whether
    or not there was one, and nothing else; [GetToken] for that key
    then answers NotFound. *)
Theorem X18_delete_then_get `{Runtime} (s s' : TokenStore.Store) (apiKey : string) :
  TokenStore.Delete s apiKey = (None, s') →
  Redis.db (TokenStore.s_rdcl s')
  = delete (TokenStore.key s apiKey) (Redis.db (TokenStore.s_rdcl s))
  ∧ (Redis.reachable (TokenStore.s_rdcl s') = true →
     (TokenStore.GetToken s' apiKey).1 = (TokenStore.zeroToken, Some ErrNotFound)).
Proof.
  unfold TokenStore.Delete. destruct (decide (apiKey = "")) as [|Hk]; [done|].
  destruct (Redis.Del _ _) as [[cnt|e] c] eqn:Hdel; [|done].
  intros [= <-]. apply Del_ok in Hdel as [Hd Hc]. cbn. split; [done|].
  intros Hr. apply GetToken_missing; [done|done|].
  unfold Redis.get. cbn. unfold TokenStore.key at 1. cbn.
  fold (TokenStore.key s apiKey). by rewrite Hd, lookup_delete_eq.
Qed.

(** The good record of the fixtures, deleted and read. *)
Lemma X18_delete_then_get_witness :
  (@TokenStore.GetToken UTC.runtime
     (TokenStore.Delete Fixtures.tokenStore "k2").2 "k2").1
  = (TokenStore.zeroToken, Some ErrNotFound).
Proof.
  destruct (@X18_delete_then_get UTC.runtime Fixtures.tokenStore
              (TokenStore.Delete Fixtures.tokenStore "k2").2 "k2")
    as [_ Hget]; [reflexivity|].
  by apply Hget.
Defined.

(** X19.  [GetToken] never writes: it leaves the prefix and every other
    key alone, and the keyspace after it is the one before, or, only when
    it answers Expired, the one before without the record of the key.
    With an error it returns the empty token; without, a token that names
    an API key: the stored one, or the requested one when the record
    stores none. *)
Theorem X19_get_token_footprint `{Runtime} (s : TokenStore.Store) (apiKey : string) :
  let res := TokenStore.GetToken s apiKey in
  TokenStore.s_prefix res.2 = TokenStore.s_prefix s
  ∧ (∀ k, k ≠ TokenStore.key s apiKey →
          Redis.db (TokenStore.s_rdcl res.2) !! k = Redis.db (TokenStore.s_rdcl s) !! k)
  ∧ (Redis.db (TokenStore.s_rdcl res.2) = Redis.db (TokenStore.s_rdcl s)
     ∨ res.1 = (TokenStore.zeroToken, Some ErrExpired)
       ∧ Redis.db (TokenStore.s_rdcl res.2)
         = delete (TokenStore.key s apiKey) (Redis.db (TokenStore.s_rdcl s)))
  ∧ (∀ e, res.1.2 = Some e → res.1.1 = TokenStore.zeroToken)
  ∧ (res.1.2 = None →
     TokenStore.APIKey res.1.1 ≠ ""
     ∧ ∃ m dl, Redis.get (TokenStore.s_rdcl s) (TokenStore.key s apiKey)
               = Some (Redis.Entry (Redis.VHash m) dl)
          ∧ TokenStore.APIKey res.1.1
            = (if decide (TokenStore.field m "api_key" = "") then apiKey
               else TokenStore.field m "api_key")).
Proof.
  intros res. destruct (GetToken_store s apiKey) as (Hp & _ & Hd). fold res in Hp, Hd.
  split; [done|]. split.
  { intros k Hk. destruct Hd as [->|[_ ->]]; [done|]. by rewrite lookup_delete_ne. }
  split; [done|]. unfold res, TokenStore.GetToken.
  destruct (decide (apiKey = "")) as [|Hk]; [done|].
  unfold Redis.HGetAll, Redis.roundtrip.
  destruct (Redis.faults _) as [|[|] fs]; [|done|].
  all: unfold Redis.HGETALL;
    destruct (Redis.get _ _) as [[[cnt|m] dl]|]; cbn; try done;
    case_bool_decide; [done|];
    destruct (TokenStore.decodeToken apiKey m) as [t [e|]] eqn:Hdec; [done|];
    destruct (After _ _); cbn; [|done];
    (split; [done|]); intros _;
    apply decodeToken_key in Hdec; rewrite Hdec;
    (split; [by case_decide|]); by exists m, dl.
Qed.

(** ** The keys of the two stores *)

Section namespaces.

Lemma key_ne_counterKey (ts : TokenStore.Store) (cs : CounterStore.Store)
    apiKey key window :
  HasPrefix (TokenStore.s_prefix ts) (CounterStore.s_prefix cs) = false →
  HasPrefix (CounterStore.s_prefix cs) (TokenStore.s_prefix ts) = false →
  TokenStore.key ts apiKey ≠ CounterStore.counterKey cs key window.
Proof.
  intros H1 H2 E. unfold TokenStore.key, CounterStore.counterKey in E.
  apply (f_equal bytes) in E. rewrite !bytes_app in E.
  apply bool_decide_eq_false in H1, H2.
  destruct (prefix_weak_total (bytes (TokenStore.s_prefix ts))
              (bytes (CounterStore.s_prefix cs))
              (bytes (TokenStore.s_prefix ts) ++ bytes apiKey)) as [Hp|Hp];
    [by eexists|rewrite E; by eexists|done|done].
Qed.

End namespaces.

(** X20.  With prefixes neither of which begins with the other, as
    "token:" and "req_limit:" of [main], no token record key is a counter
    key; so on a shared backend counting a request leaves every token
    record as it is, and reading a token, also an expired one that is
    deleted, leaves every counter as it is. *)
Theorem X20_stores_do_not_share `{Runtime}
    (ts : TokenStore.Store) (cs cs' : CounterStore.Store)
    (apiKey key : string) (window : Duration) (v : Z) :
  HasPrefix (TokenStore.s_prefix ts) (CounterStore.s_prefix cs) = false →
  HasPrefix (CounterStore.s_prefix cs) (TokenStore.s_prefix ts) = false →
  TokenStore.key ts apiKey ≠ CounterStore.counterKey cs key window
  ∧ (0 < window → CounterStore.Incr cs key window = ((v, None), cs') →
     Redis.db (CounterStore.s_rdcl cs') !! TokenStore.key ts apiKey
     = Redis.db (CounterStore.s_rdcl cs) !! TokenStore.key ts apiKey)
  ∧ Redis.db (TokenStore.s_rdcl (TokenStore.GetToken ts apiKey).2)
      !! CounterStore.counterKey cs key window
    = Redis.db (TokenStore.s_rdcl ts) !! CounterStore.counterKey cs key window.
Proof.
  intros H1 H2.
  pose proof (key_ne_counterKey ts cs apiKey key window H1 H2) as Hne.
  split; [done|]. split.
  - intros Hw Hi. destruct (Incr_leaves cs cs' key window v Hw Hi) as (_ & _ & Hd & _).
    rewrite Hd. by rewrite lookup_insert_ne.
  - destruct (GetToken_store ts apiKey) as (_ & _ & [->|[_ ->]]); [done|].
    by rewrite lookup_delete_ne.
Qed.

(** Counting a request for k2 leaves the token record of k2. *)
Lemma X20_stores_do_not_share_witness :
  Redis.db (CounterStore.s_rdcl
              (CounterStore.Incr Examples.mainCounterStore "k2" Minute).2)
    !! "token:k2"
  = Redis.db Fixtures.tokenRdcl !! "token:k2".
Proof.
  destruct (@X20_stores_do_not_share UTC.runtime Examples.mainTokenStore
              Examples.mainCounterStore
              (CounterStore.Incr Examples.mainCounterStore "k2" Minute).2
              "k2" "k2" Minute 1) as (_ & Hincr & _); [reflexivity|reflexivity|].
  apply Hincr; [by vm_compute|by vm_compute].
Defined.

(** ** The configuration *)

Section config.
Import Config.
Context `{Library}.

Lemma orDefault_positive d def : 0 < def → 0 < orDefault d def.
Proof. unfold orDefault. case_bool_decide; lia. Qed.

Lemma orDefault_keeps d def : 0 < d → orDefault d def = d.
Proof. unfold orDefault. intros Hd. by rewrite bool_decide_eq_false_2 by lia. Qed.

Lemma normalize_idempotent c : normalize (normalize c) = normalize c.
Proof.
  unfold normalize. cbn. f_equal. f_equal;
    apply orDefault_keeps, orDefault_positive; by vm_compute.
Qed.

(** What an accepted configuration has passed. *)
Lemma ValidateAndNormalize_ok c c' :
  ValidateAndNormalize c = (None, c') →
  c' = normalize c
  ∧ 1 ≤ Port (application c) ≤ 65535
  ∧ TargetHost (application c) ≠ ""
  ∧ (∃ scheme host, url_Parse (TargetHost (application c)) = Some (scheme, host)
       ∧ scheme ≠ "" ∧ host ≠ "")
  ∧ (let alg := strings_ToUpper (Algorithm (AppToken (application c))) in
     alg = "HS256" ∨ alg = "HS384" ∨ alg = "HS512")
  ∧ JWTSecret (AppToken (application c)) ≠ ""
  ∧ Addr (redis c) ≠ ""
  ∧ 0 ≤ MonPort (monitoring c) ≤ 65535.
Proof.
  unfold ValidateAndNormalize.
  case_bool_decide as Hport; [done|].
  destruct (decide (TargetHost _ = "")) as [|Hhost]; [done|].
  destruct (url_Parse _) as [[scheme host]|]; [|done].
  case_bool_decide as Hurl; [done|].
  destruct (decide (Algorithm _ = "")) as [|Halg]; [done|].
  case_bool_decide as Hsup; cbn; [|done].
  destruct (decide (JWTSecret _ = "")) as [|Hsec]; [done|].
  destruct (decide (Addr _ = "")) as [|Haddr]; [done|].
  case_bool_decide as Hmon; [done|].
  intros [= <-]. split; [done|]. split; [lia|]. split; [done|].
  split; [exists scheme, host; split; [done|]; split; intros ->; apply Hurl; auto|].
  split; [done|]. split; [done|]. split; [done|lia].
Qed.

Lemma ValidateAndNormalize_error c c' e :
  ValidateAndNormalize c = (Some e, c') → c' = c.
Proof.
  unfold ValidateAndNormalize.
  repeat (case_bool_decide || case_decide || case_match || cbn);
    by intros [= _ <-].
Qed.

Lemma ValidateAndNormalize_normalize c c' :
  ValidateAndNormalize c = (None, c') →
  ValidateAndNormalize c' = (None, c').
Proof.
  intros Hv. destruct (ValidateAndNormalize_ok c c' Hv) as (-> & _).
  revert Hv. unfold ValidateAndNormalize.
  change (application (normalize c)) with (application c).
  change (redis (normalize c)) with (redis c).
  change (monitoring (normalize c)) with (monitoring c).
  case_bool_decide as Hport; [done|].
  destruct (decide (TargetHost _ = "")) as [|Hhost]; [done|].
  destruct (url_Parse _) as [[scheme host]|]; [|done].
  case_bool_decide as Hurl; [done|].
  destruct (decide (Algorithm _ = "")) as [|Halg]; [done|].
  case_bool_decide as Hsup; cbn -[normalize]; [|done].
  destruct (decide (JWTSecret _ = "")) as [|Hsec]; [done|].
  destruct (decide (Addr _ = "")) as [|Haddr]; [done|].
  case_bool_decide as Hmon; [done|].
  intros _. by rewrite normalize_idempotent.
Qed.

End config.

(** X21.  A configuration that [ValidateAndNormalize] refuses is left as
    it was.  One that it accepts has an application port from 1 to 65535,
    a monitoring port from 0 to 65535, a target host, an algorithm that
    is HS256, HS384 or HS512 up to letter case, a secret and a Redis
    address; the call changes only the server timeouts, each of which is
    afterwards positive: kept when it was positive, the default of 5, 30,
    30 and 60 seconds when not.  The algorithm stays as it was written,
    and validating the result again accepts it and changes nothing. *)
Theorem X21_config_validated `{Config.Library} (c c' : Config.Config) :
  (∀ e, Config.ValidateAndNormalize c = (Some e, c') → c' = c)
  ∧ (Config.ValidateAndNormalize c = (None, c') →
     let st := Config.serverTimeouts c in
     let st' := Config.serverTimeouts c' in
     1 ≤ Config.Port (Config.application c) ≤ 65535
     ∧ 0 ≤ Config.MonPort (Config.monitoring c) ≤ 65535
     ∧ Config.TargetHost (Config.application c) ≠ ""
     ∧ Config.strings_ToUpper (Config.Algorithm (Config.AppToken (Config.application c)))
       ∈ ["HS256"; "HS384"; "HS512"]
     ∧ Config.JWTSecret (Config.AppToken (Config.application c)) ≠ ""
     ∧ Config.Addr (Config.redis c) ≠ ""
     ∧ Config.application c' = Config.application c
     ∧ Config.redis c' = Config.redis c
     ∧ Config.log c' = Config.log c
     ∧ Config.monitoring c' = Config.monitoring c
     ∧ Config.ReadHeaderTimeout st'
       = (if bool_decide (0 < Config.ReadHeaderTimeout st)
          then Config.ReadHeaderTimeout st else 5 * Second)
     ∧ Config.ReadTimeout st'
       = (if bool_decide (0 < Config.ReadTimeout st)
          then Config.ReadTimeout st else 30 * Second)
     ∧ Config.WriteTimeout st'
       = (if bool_decide (0 < Config.WriteTimeout st)
          then Config.WriteTimeout st else 30 * Second)
     ∧ Config.IdleTimeout st'
       = (if bool_decide (0 < Config.IdleTimeout st)
          then Config.IdleTimeout st else 60 * Second)
     ∧ 0 < Config.ReadHeaderTimeout st' ∧ 0 < Config.ReadTimeout st'
     ∧ 0 < Config.WriteTimeout st' ∧ 0 < Config.IdleTimeout st'
     ∧ Config.ValidateAndNormalize c' = (None, c')).
Proof.
  split; [intros e; apply ValidateAndNormalize_error|].
  intros Hv st st'.
  pose proof (ValidateAndNormalize_normalize c c' Hv) as Hagain.
  destruct (ValidateAndNormalize_ok c c' Hv)
    as (Hc' & Hport & Hhost & _ & Halg & Hsec & Haddr & Hmon).
  split; [done|]. split; [done|]. split; [done|]. split.
  { cbn in Halg. rewrite !elem_of_cons. tauto. }
  split; [done|]. split; [done|].
  unfold st'. rewrite Hc'. cbn. unfold Config.orDefault. fold st.
  split; [done|]. split; [done|]. split; [done|]. split; [done|].
  assert (∀ d def : Z, (if bool_decide (d ≤ 0) then def else d)
                       = (if bool_decide (0 < d) then d else def)) as Hflip.
  { intros d def. repeat case_bool_decide; lia. }
  rewrite !Hflip.
  unfold Config.defaultReadHeaderTimeout, Config.defaultReadTimeout,
    Config.defaultWriteTimeout, Config.defaultIdleTimeout.
  split; [done|]. split; [done|]. split; [done|]. split; [done|].
  unfold Second.
  split; [case_bool_decide; lia|]. split; [case_bool_decide; lia|].
  split; [case_bool_decide; lia|]. split; [case_bool_decide; lia|].
  by rewrite <- Hc'.
Qed.

(** The configuration of the examples, which sets no timeout, gets the
    default read timeout. *)
Lemma X21_config_validated_witness :
  Config.ReadTimeout
    (Config.serverTimeouts
       (@Config.ValidateAndNormalize Examples.library Examples.config).2)
  = 30 * Second.
Proof.
  destruct (@X21_config_validated Examples.library Examples.config
              (@Config.ValidateAndNormalize Examples.library Examples.config).2)
    as [_ Hok].
  destruct Hok as (_ & _ & _ & _ & _ & _ & _ & _ & _ & _ & _ & Hrt & _);
    [by vm_compute|].
  exact Hrt.
Defined.

(** X22.  Validation accepts the algorithm up to letter case and leaves
    it as it is written, and [main] hands it to the verifier as it is:
    the verifier of an accepted configuration has a key and an algorithm,
    and its key function compares the algorithm of a token exactly.  So
    when the accepted algorithm is not written in capitals, the key
    function refuses HS256, HS384 and HS512 alike. *)
Theorem X22_algorithm_as_written `{Config.Library} (c c' : Config.Config)
    (key alg : string) :
  Config.ValidateAndNormalize c = (None, c') →
  let v := Main.verifier c' in
  let written := Config.Algorithm (Config.AppToken (Config.application c)) in
  JWT.ExpectedAlg (JWT.ks v) = written
  ∧ written ≠ ""
  ∧ JWT.DefaultKey (JWT.ks v)
    = Some (Config.JWTSecret (Config.AppToken (Config.application c)))
  ∧ (JWT.keyfunc v key alg = inl key ↔ alg = written)
  ∧ (written ∉ ["HS256"; "HS384"; "HS512"] →
     alg ∈ ["HS256"; "HS384"; "HS512"] →
     JWT.keyfunc v key alg = inr (errorString ("unexpected alg: " +:+ alg))).
Proof.
  intros Hv v written.
  destruct (ValidateAndNormalize_ok c c' Hv) as (Hc' & _).
  assert (written ≠ "") as Hne.
  { revert Hv. unfold Config.ValidateAndNormalize.
    case_bool_decide; [done|].
    destruct (decide (Config.TargetHost _ = "")); [done|].
    destruct (Config.url_Parse _) as [[scheme host]|]; [|done].
    case_bool_decide; [done|].
    by destruct (decide (Config.Algorithm _ = "")). }
  assert (JWT.ExpectedAlg (JWT.ks v) = written) as Halg
    by (unfold v; by rewrite Hc').
  split; [done|]. split; [done|]. split; [unfold v; by rewrite Hc'|].
  unfold JWT.keyfunc. rewrite Halg. split.
  - destruct (decide (alg ≠ written)) as [Hd|Hd]; [by split|].
    apply dec_stable in Hd. by split.
  - intros Hlow Hin. rewrite decide_True; [done|]. by intros ->.
Qed.

(** The configuration in small letters is accepted, and the key function
    of its verifier refuses HS256. *)
Lemma X22_algorithm_as_written_witness :
  JWT.keyfunc
    (Main.verifier (@Config.ValidateAndNormalize Examples.library Examples.configLower).2)
    "secret" "HS256"
  = inr (errorString "unexpected alg: HS256").
Proof.
  destruct (@X22_algorithm_as_written Examples.library Examples.configLower
              (@Config.ValidateAndNormalize Examples.library Examples.configLower).2
              "secret" "HS256") as (_ & _ & _ & _ & Hrefuse); [by vm_compute|].
  apply Hrefuse.
  - rewrite !elem_of_cons. intros [E|[E|[E|E]]]; try discriminate E.
    by apply elem_of_nil in E.
  - by left.
Defined.
